(** * The symbolic value model of torchdynamo/variable_tracker.py

    A shallow embedding of the [VariableTracker] class hierarchy: the
    support state and guard combinators, [propagate], guard creation,
    identity keys, constant indexing, the list iterator and the deep
    traversal [apply].

    [VariableTracker] instances are Python objects; one of their methods
    ([ListIteratorVariable.next_variables]) assigns to fields of [self].
    Instances therefore live in a store and are referred to by location.
    Lists, dicts, tuples and sets are never updated in place by this module
    and are modelled as values. *)

From stdpp Require Import gmap strings list sorting.
From Stdlib Require Import ZArith Lia Ascii.

Open Scope string_scope.
Open Scope list_scope.
Set Warnings "-register-all,-clear-no-such-hyp".
Set Default Goal Selector "!".

(** ** Exceptions *)

Inductive exn :=
  | NotImplementedError
  | StopIteration
  | IndexError
  | TypeError
  | ValueError
  | KeyError
  | AttributeError
  | RecursionError
  | AssertionError.

Inductive result (A : Type) :=
  | Ok (a : A)
  | Raise (e : exn).
Arguments Ok {A} a.
Arguments Raise {A} e.

#[global] Instance result_ret : MRet result := fun _ a => Ok a.
#[global] Instance result_bind : MBind result := fun _ _ k r =>
  match r with
  | Ok a => k a
  | Raise e => Raise e
  end.

#[global] Instance result_fmap : FMap result := fun _ _ f r =>
  match r with
  | Ok a => Ok (f a)
  | Raise e => Raise e
  end.

(** ** TracingSupported *)

Inductive TracingSupported := UNKNOWN | YES | NO.

#[global] Instance TracingSupported_eq_dec : EqDecision TracingSupported.
Proof. solve_decision. Defined.

Module TS.
(** The enum's [.value]. *)
Definition value (s : TracingSupported) : Z :=
  match s with UNKNOWN => 0 | YES => 1 | NO => 2 end.

(** The enum's constructor [TracingSupported(n)]: a number that is no
    member's value raises [ValueError]. *)
Definition of_value (n : Z) : result TracingSupported :=
  if decide (n = 0)%Z then Ok UNKNOWN
  else if decide (n = 1)%Z then Ok YES
  else if decide (n = 2)%Z then Ok NO
  else Raise ValueError.

(** [TracingSupported.combine(a, b)]. *)
Definition combine (a b : TracingSupported) : result TracingSupported :=
  of_value (Z.max (value a) (value b)).
End TS.

(** ** Guards *)

Inductive GuardSource := LOCAL | GLOBAL.

#[global] Instance GuardSource_eq_dec : EqDecision GuardSource.
Proof. solve_decision. Defined.

(** Modelled from the spec: [torchdynamo.guards.Guard] is imported by the
    module but not defined in it.  A guard is a (binding-name,
    binding-source, validation-predicate) triple, immutable and hashable;
    the predicate is a host function, identified here by a number, or
    [None]. *)
Record Guard := mkGuard {
  guard_name : string;
  guard_source : GuardSource;
  guard_fn : option nat;
}.

#[global] Instance Guard_eq_dec : EqDecision Guard.
Proof. solve_decision. Defined.

#[global] Instance GuardSource_countable : Countable GuardSource.
Proof.
  refine (inj_countable' (fun s => match s with LOCAL => false | GLOBAL => true end)
                         (fun b => if b then GLOBAL else LOCAL) _).
  by intros [].
Defined.

#[global] Instance Guard_countable : Countable Guard.
Proof.
  refine (inj_countable' (fun g => (guard_name g, guard_source g, guard_fn g))
                         (fun t => mkGuard t.1.1 t.1.2 t.2) _).
  by intros [].
Defined.

(** ** functools.reduce without an initial value *)

Section reduce.
Context {A : Type} (f : A -> A -> result A).

Fixpoint reduce_from (acc : A) (l : list A) : result A :=
  match l with
  | [] => Ok acc
  | x :: l' => acc' ← f acc x; reduce_from acc' l'
  end.

(** [functools.reduce(f, l)]: the first element starts the accumulator;
    an empty sequence raises [TypeError]. *)
Definition reduce (l : list A) : result A :=
  match l with
  | [] => Raise TypeError
  | x :: l' => reduce_from x l'
  end.
End reduce.

(** The larger of two states in the order UNKNOWN < YES < NO. *)
Definition ts_max (a b : TracingSupported) : TracingSupported :=
  match a, b with
  | NO, _ | _, NO => NO
  | YES, _ | _, YES => YES
  | UNKNOWN, UNKNOWN => UNKNOWN
  end.

Definition combine_states : list TracingSupported -> result TracingSupported :=
  reduce TS.combine.

Definition combine_guards : list (gset Guard) -> result (gset Guard) :=
  reduce (fun a b => Ok (a ∪ b)).

(** ** Python values held in fields

    Literals as [ConstantVariable.is_literal] accepts them (floats and
    sets are left out), [slice] objects, and host objects (graph proxies,
    dtypes, devices, functions, modules, types), which the module only
    stores, passes on and identifies by [id]. *)

Inductive pyvalue :=
  | PNone
  | PBool (b : bool)
  | PInt (n : Z)
  | PStr (s : string)
  | PTuple (l : list pyvalue)
  | PList (l : list pyvalue)
  | PSlice (start stop step : pyvalue)
  | PHost (id : nat).

(** The keys of a constant dict: hashable scalar constants. *)
Inductive dict_key :=
  | DNone
  | DBool (b : bool)
  | DInt (n : Z)
  | DStr (s : string).

Definition dict_key_value (k : dict_key) : pyvalue :=
  match k with
  | DNone => PNone
  | DBool b => PBool b
  | DInt n => PInt n
  | DStr s => PStr s
  end.

(** ** VariableTracker instances *)

(** Locations of [VariableTracker] instances in the store. *)
Abbreviation loc := nat (only parsing).

(** The four fields [VariableTracker.__init__] sets. *)
Record base := mkBase {
  state : TracingSupported;
  guards : gset Guard;
  initial_name : option string;
  global_name : option string;
}.

Inductive plain_class := VariableTracker | UnknownVariable.
Inductive tensor_class := TensorVariable | BasicTypeVariable.
Inductive list_class := BaseListVariable | ListVariable | TupleVariable | SliceVariable.

(** An instance: its class and its [__dict__].  [R] is the type of the
    references to other instances; in the store these are locations. *)
Inductive object (R : Type) :=
  | Plain (c : plain_class) (b : base)
  | Tensor (c : tensor_class) (b : base) (proxy : nat)
      (dtype device : option nat) (ndim : option Z)
      (size stride : option (list Z))
  | NNModuleVariable (b : base) (module_key : string)
  | ConstantVariable (b : base) (value : pyvalue)
  | FunctionConstantWrapper (b : base) (value : R)
  | BuiltinVariable (b : base) (fn : nat)
  | ListIteratorVariable (b : base) (items : list R) (index : Z)
  | GetAttrVariable (b : base) (obj : R) (name : string)
  | BaseList (c : list_class) (b : base) (items : list R)
  | ConstDictVariable (b : base) (items : list (dict_key * R))
  | UserFunctionVariable (b : base) (fn : nat)
  | UserMethodVariable (b : base) (fn : nat) (obj : R)
  | AllowedFunctionOrModuleVariable (b : base) (value : nat)
  | PythonModuleVariable (b : base) (value : nat)
  | UnsupportedVariable (b : base) (value : nat) (value_type : nat).
Arguments Plain {R}.
Arguments Tensor {R}.
Arguments NNModuleVariable {R}.
Arguments ConstantVariable {R}.
Arguments FunctionConstantWrapper {R}.
Arguments BuiltinVariable {R}.
Arguments ListIteratorVariable {R}.
Arguments GetAttrVariable {R}.
Arguments BaseList {R}.
Arguments ConstDictVariable {R}.
Arguments UserFunctionVariable {R}.
Arguments UserMethodVariable {R}.
Arguments AllowedFunctionOrModuleVariable {R}.
Arguments PythonModuleVariable {R}.
Arguments UnsupportedVariable {R}.

Section object_fields.
Context {R : Type}.

Definition base_of (o : object R) : base :=
  match o with
  | Plain _ b | Tensor _ b _ _ _ _ _ _ | NNModuleVariable b _
  | ConstantVariable b _ | FunctionConstantWrapper b _
  | BuiltinVariable b _ | ListIteratorVariable b _ _
  | GetAttrVariable b _ _ | BaseList _ b _ | ConstDictVariable b _
  | UserFunctionVariable b _ | UserMethodVariable b _ _
  | AllowedFunctionOrModuleVariable b _ | PythonModuleVariable b _
  | UnsupportedVariable b _ _ => b
  end.

Definition with_base (f : base -> base) (o : object R) : object R :=
  match o with
  | Plain c b => Plain c (f b)
  | Tensor c b p dt dv n sz st => Tensor c (f b) p dt dv n sz st
  | NNModuleVariable b k => NNModuleVariable (f b) k
  | ConstantVariable b v => ConstantVariable (f b) v
  | FunctionConstantWrapper b v => FunctionConstantWrapper (f b) v
  | BuiltinVariable b fn => BuiltinVariable (f b) fn
  | ListIteratorVariable b items i => ListIteratorVariable (f b) items i
  | GetAttrVariable b obj name => GetAttrVariable (f b) obj name
  | BaseList c b items => BaseList c (f b) items
  | ConstDictVariable b items => ConstDictVariable (f b) items
  | UserFunctionVariable b fn => UserFunctionVariable (f b) fn
  | UserMethodVariable b fn obj => UserMethodVariable (f b) fn obj
  | AllowedFunctionOrModuleVariable b v => AllowedFunctionOrModuleVariable (f b) v
  | PythonModuleVariable b v => PythonModuleVariable (f b) v
  | UnsupportedVariable b v t => UnsupportedVariable (f b) v t
  end.

(** [self.__class__.__name__] *)
Definition class_name (o : object R) : string :=
  match o with
  | Plain VariableTracker _ => "VariableTracker"
  | Plain UnknownVariable _ => "UnknownVariable"
  | Tensor TensorVariable _ _ _ _ _ _ _ => "TensorVariable"
  | Tensor BasicTypeVariable _ _ _ _ _ _ _ => "BasicTypeVariable"
  | NNModuleVariable _ _ => "NNModuleVariable"
  | ConstantVariable _ _ => "ConstantVariable"
  | FunctionConstantWrapper _ _ => "FunctionConstantWrapper"
  | BuiltinVariable _ _ => "BuiltinVariable"
  | ListIteratorVariable _ _ _ => "ListIteratorVariable"
  | GetAttrVariable _ _ _ => "GetAttrVariable"
  | BaseList BaseListVariable _ _ => "BaseListVariable"
  | BaseList ListVariable _ _ => "ListVariable"
  | BaseList TupleVariable _ _ => "TupleVariable"
  | BaseList SliceVariable _ _ => "SliceVariable"
  | ConstDictVariable _ _ => "ConstDictVariable"
  | UserFunctionVariable _ _ => "UserFunctionVariable"
  | UserMethodVariable _ _ _ => "UserMethodVariable"
  | AllowedFunctionOrModuleVariable _ _ => "AllowedFunctionOrModuleVariable"
  | PythonModuleVariable _ _ => "PythonModuleVariable"
  | UnsupportedVariable _ _ _ => "UnsupportedVariable"
  end.

(** The other instances an instance's fields refer to, in field order. *)
Definition refs (o : object R) : list R :=
  match o with
  | FunctionConstantWrapper _ v => [v]
  | ListIteratorVariable _ items _ => items
  | GetAttrVariable _ obj _ => [obj]
  | BaseList _ _ items => items
  | ConstDictVariable _ items => items.*2
  | UserMethodVariable _ _ obj => [obj]
  | _ => []
  end.
End object_fields.

Definition set_guards (g : gset Guard) (b : base) : base :=
  mkBase (state b) g (initial_name b) (global_name b).
Definition set_initial_name (n : option string) (b : base) : base :=
  mkBase (state b) (guards b) n (global_name b).

(** ** The store and its monad *)

Abbreviation store := (list (object loc)) (only parsing).

(** A computation reads and updates the store and returns or raises; what
    it did to the store before raising stays done, as in Python. *)
Definition M (A : Type) : Type := store -> result A * store.

#[global] Instance M_ret : MRet M := fun _ a h => (Ok a, h).
#[global] Instance M_bind : MBind M := fun _ _ k m h =>
  match m h with
  | (Ok a, h') => k a h'
  | (Raise e, h') => (Raise e, h')
  end.

#[global] Instance M_fmap : FMap M := fun _ _ f m h =>
  match m h with
  | (Ok a, h') => (Ok (f a), h')
  | (Raise e, h') => (Raise e, h')
  end.

Definition raise {A} (e : exn) : M A := fun h => (Raise e, h).

Definition lift {A} (r : result A) : M A := fun h => (r, h).

(** Reading an instance.  A location outside the store has no Python
    counterpart (references cannot dangle); it is reported as
    [AssertionError] and never arises in a store built by [alloc]. *)
Definition deref (l : loc) : M (object loc) := fun h =>
  match h !! l with
  | Some o => (Ok o, h)
  | None => (Raise AssertionError, h)
  end.

(** A constructor call: the new instance gets the next free location. *)
Definition alloc (o : object loc) : M loc := fun h => (Ok (length h), h ++ [o]).

(** Assignment to fields of an existing instance. *)
Definition update (l : loc) (f : object loc -> object loc) : M () := fun h =>
  match h !! l with
  | Some o => (Ok (), <[l := f o]> h)
  | None => (Raise AssertionError, h)
  end.

Fixpoint mapM {A B} (f : A -> M B) (l : list A) : M (list B) :=
  match l with
  | [] => mret []
  | x :: l' => y ← f x; ys ← mapM f l'; mret (y :: ys)
  end.

(** ** Constructor options and [propagate] *)

(** The keyword dictionary [propagate] returns and constructors take as
    [**options]: each of the keys ["state"] and ["guards"] is present or
    absent. *)
Record options := mkOptions {
  opt_state : option TracingSupported;
  opt_guards : option (gset Guard);
}.

(** The empty dictionary [{}]. *)
Definition no_options : options := mkOptions None None.

(** [VariableTracker.__init__] called with [**options]: an absent ["state"] defaults to
    [UNKNOWN], [guards or set()] turns an absent ["guards"] into the empty
    set, and both names default to [None]. *)
Definition VariableTracker_init (o : options) : base :=
  mkBase (default UNKNOWN (opt_state o)) (default ∅ (opt_guards o)) None None.

(** [VariableTracker.propagate(vars)]; the assertion that every element
    is an instance holds by the type of [vars]. *)
Definition propagate (vars : list loc) : M options :=
  if decide (length vars = 0) then mret no_options
  else
    objs ← mapM deref vars;
    s ← lift (combine_states ((fun v => state (base_of v)) <$> objs));
    g ← lift (combine_guards ((fun v => guards (base_of v)) <$> objs));
    mret (mkOptions (Some s) (Some g)).

(** ** Guard creation *)

(** Python truth of an [Optional[str]]: [None] and the empty string are
    false. *)
Definition truthy (n : option string) : option string :=
  match n with
  | Some s => if decide (s = "") then None else Some s
  | None => None
  end.

(** [VariableTracker.create_guard(self, fn)] *)
Definition VariableTracker_create_guard (self : base) (fn : option nat) : result Guard :=
  match truthy (initial_name self) with
  | Some n => Ok (mkGuard n LOCAL fn)
  | None =>
      match truthy (global_name self) with
      | Some n => Ok (mkGuard n GLOBAL fn)
      | None => Raise NotImplementedError
      end
  end.

(** [GetAttrVariable.create_guard(self, fn)], given the instance [obj] that
    [self.obj] refers to. *)
Definition GetAttrVariable_create_guard (obj : base) (name : string)
    (fn : option nat) : result Guard :=
  match truthy (initial_name obj) with
  | Some n => Ok (mkGuard (String.append n (String.append "." name)) LOCAL fn)
  | None => Raise NotImplementedError
  end.

(** [self.create_guard(fn)] with the method resolved by the class of
    [self]: only [GetAttrVariable] overrides the base method. *)
Definition create_guard (self : loc) (fn : option nat) : M Guard :=
  o ← deref self;
  match o with
  | GetAttrVariable _ obj name =>
      oo ← deref obj;
      lift (GetAttrVariable_create_guard (base_of oo) name fn)
  | _ => lift (VariableTracker_create_guard (base_of o) fn)
  end.

(** [can_create_guard(self)] *)
Definition can_create_guard (self : loc) : M bool := fun h =>
  match create_guard self None h with
  | (Ok _, h') => (Ok true, h')
  | (Raise NotImplementedError, h') => (Ok false, h')
  | (Raise e, h') => (Raise e, h')
  end.

(** ** Tensor specialization *)

(** The configuration module [torchdynamo.config], of which the module
    reads one flag. *)
Record config := mkConfig { dynamic_shapes : bool }.

(** What [specialize] reads of a live [torch.Tensor]. *)
Record tensor := mkTensor {
  t_dtype : nat;
  t_device : nat;
  t_ndim : Z;
  t_size : list Z;
  t_stride : list Z;
}.

(** [TensorVariable.specialize(value)] *)
Definition specialize (cfg : config) (value : tensor) : gmap string pyvalue :=
  let props : gmap string pyvalue :=
    <["ndim" := PInt (t_ndim value)]>
      (<["device" := PHost (t_device value)]>
         (<["dtype" := PHost (t_dtype value)]> ∅)) in
  if negb (dynamic_shapes cfg) then
    <["stride" := PTuple (PInt <$> t_stride value)]>
      (<["size" := PTuple (PInt <$> t_size value)]> props)
  else props.

(** ** Python operations on field values *)

(** [bool] is a subclass of [int]: what [isinstance(v, int)] accepts, as
    the number it stands for. *)
Definition as_int (v : pyvalue) : option Z :=
  match v with
  | PInt n => Some n
  | PBool b => Some (if b then 1 else 0)%Z
  | _ => None
  end.

(** Python's [==] on field values: numbers by value across [int] and
    [bool], sequences element by element and never across [tuple] and
    [list], slices as their three components, host objects by identity. *)
Fixpoint py_eq (a b : pyvalue) : bool :=
  let fix all2 (l m : list pyvalue) : bool :=
    match l, m with
    | [], [] => true
    | x :: l', y :: m' => py_eq x y && all2 l' m'
    | _, _ => false
    end in
  match a, b with
  | PNone, PNone => true
  | PStr s, PStr t => bool_decide (s = t)
  | PTuple l, PTuple m => all2 l m
  | PList l, PList m => all2 l m
  | PSlice a1 a2 a3, PSlice b1 b2 b3 => py_eq a1 b1 && py_eq a2 b2 && py_eq a3 b3
  | PHost i, PHost j => bool_decide (i = j)
  | (PInt _ | PBool _), (PInt _ | PBool _) => bool_decide (as_int a = as_int b)
  | _, _ => false
  end.

(** [seq[i]] for an integer [i]: negative indices count from the end, an
    index outside [-len, len) raises [IndexError]. *)
Definition py_index {A} (seq : list A) (i : Z) : result A :=
  let n := Z.of_nat (length seq) in
  let j := if decide (i < 0)%Z then (i + n)%Z else i in
  if decide (0 <= j < n)%Z then
    match seq !! Z.to_nat j with
    | Some x => Ok x
    | None => Raise IndexError
    end
  else Raise IndexError.

(** A slice component: [None] or an integer, anything else raises
    [TypeError]. *)
Definition slice_arg (v : pyvalue) : result (option Z) :=
  match v with
  | PNone => Ok None
  | _ => match as_int v with
         | Some n => Ok (Some n)
         | None => Raise TypeError
         end
  end.

(** One bound of [slice.indices(n)]: a negative bound counts from the end
    and is then clipped to the range the step can reach. *)
Definition adjust_bound (n step : Z) (missing : Z) (v : option Z) : Z :=
  match v with
  | None => missing
  | Some i =>
      if decide (i < 0)%Z then
        (if decide (i + n < 0)%Z then (if decide (step < 0)%Z then -1 else 0)
         else i + n)%Z
      else if decide (n <= i)%Z then (if decide (step < 0)%Z then n - 1 else n)%Z
      else i
  end.

(** The indices [start, start + step, ...] a slice selects, [count] of
    them. *)
Fixpoint slice_positions (start step : Z) (count : nat) : list Z :=
  match count with
  | O => []
  | S c => start :: slice_positions (start + step)%Z step c
  end.

(** [seq[start:stop:step]]: the step is unpacked first and a zero step
    raises [ValueError]. *)
Definition py_slice {A} (seq : list A) (start stop step : pyvalue) : result (list A) :=
  c ← slice_arg step;
  let st := default 1%Z c in
  if decide (st = 0)%Z then Raise ValueError
  else
    a ← slice_arg start;
    b ← slice_arg stop;
    let n := Z.of_nat (length seq) in
    let lo := adjust_bound n st (if decide (st < 0)%Z then n - 1 else 0)%Z a in
    let hi := adjust_bound n st (if decide (st < 0)%Z then -1 else n)%Z b in
    let count :=
      if decide (st < 0)%Z
      then (if decide (hi < lo)%Z then (lo - hi - 1) / (- st) + 1 else 0)%Z
      else (if decide (lo < hi)%Z then (hi - lo - 1) / st + 1 else 0)%Z in
    Ok (omap (fun i => seq !! Z.to_nat i) (slice_positions lo st (Z.to_nat count))).

(** [seq[key]] for a key that is an integer or a slice; any other key
    raises [TypeError]. *)
Definition py_subscript {A} (seq : list A) (key : pyvalue)
    (one : A -> pyvalue) (many : list A -> pyvalue) : result pyvalue :=
  match key with
  | PSlice a b c => many <$> py_slice seq a b c
  | _ => match as_int key with
         | Some i => one <$> py_index seq i
         | None => Raise TypeError
         end
  end.

(** [value[key]] on a constant: tuples, lists and strings can be
    subscripted, anything else raises [TypeError]. *)
Definition py_getitem (value key : pyvalue) : result pyvalue :=
  match value with
  | PTuple l => py_subscript l key id PTuple
  | PList l => py_subscript l key id PList
  | PStr s => py_subscript (String.list_ascii_of_string s) key
                (fun c => PStr (String c EmptyString))
                (fun l => PStr (String.string_of_list_ascii l))
  | _ => Raise TypeError
  end.

(** ** Methods of the instances *)

(** The call of [slice] on an unpacked argument list. *)
Definition py_slice_new (args : list pyvalue) : result pyvalue :=
  match args with
  | [b] => Ok (PSlice PNone b PNone)
  | [a; b] => Ok (PSlice a b PNone)
  | [a; b; c] => Ok (PSlice a b c)
  | _ => Raise TypeError
  end.

(** [self.as_python_constant()], resolved by the class of [self].  The
    recursion follows references through the store; [fuel] is the
    interpreter's recursion limit. *)
Fixpoint as_python_constant (fuel : nat) (self : loc) : M pyvalue :=
  match fuel with
  | O => raise RecursionError
  | S fuel' =>
      o ← deref self;
      match o with
      | ConstantVariable _ value => mret value
      | BuiltinVariable _ fn => mret (PHost fn)
      | AllowedFunctionOrModuleVariable _ value => mret (PHost value)
      | BaseList BaseListVariable _ _ => raise NotImplementedError
      | BaseList ListVariable _ items =>
          PList <$> mapM (as_python_constant fuel') items
      | BaseList TupleVariable _ items =>
          PTuple <$> mapM (as_python_constant fuel') items
      | BaseList SliceVariable _ items =>
          args ← mapM (as_python_constant fuel') items;
          lift (py_slice_new args)
      | _ => raise NotImplementedError
      end
  end.

(** [self.clone] with keywords [kwargs]: a new instance of the same class whose
    [__dict__] is that of [self] updated by [kwargs]. *)
Definition clone (self : loc) (kwargs : object loc -> object loc) : M loc :=
  o ← deref self;
  alloc (kwargs o).

(** [self.add_guards(guards)] *)
Definition add_guards (self : loc) (gs : gset Guard) : M loc :=
  o ← deref self;
  clone self (with_base (set_guards (guards (base_of o) ∪ gs))).

(** [self.add_guard(guard)] *)
Definition add_guard (self : loc) (g : Guard) : M loc :=
  o ← deref self;
  clone self (with_base (set_guards (guards (base_of o) ∪ {[ g ]}))).

(** [self.with_initial_name(name)] *)
Definition with_initial_name (self : loc) (name : string) : M loc :=
  clone self (with_base (set_initial_name (Some name))).

(** The keyword [items=...] of [clone]. *)
Definition set_items (items : list loc) (o : object loc) : object loc :=
  match o with
  | BaseList c b _ => BaseList c b items
  | ListIteratorVariable b _ i => ListIteratorVariable b items i
  | _ => o
  end.

(** [ConstantVariable.getitem_const(self, arg)] *)
Definition ConstantVariable_getitem_const (fuel : nat) (self arg : loc)
    (value : pyvalue) : M loc :=
  key ← as_python_constant fuel arg;
  v ← lift (py_getitem value key);
  opts ← propagate [self; arg];
  alloc (ConstantVariable (VariableTracker_init opts) v).

(** [BaseListVariable.getitem_const(self, arg)] *)
Definition BaseListVariable_getitem_const (fuel : nat) (self arg : loc)
    (items : list loc) : M loc :=
  index ← as_python_constant fuel arg;
  match index with
  | PSlice start stop step =>
      part ← lift (py_slice items start stop step);
      r ← clone self (set_items part);
      a ← deref arg;
      add_guards r (guards (base_of a))
  | _ =>
      match as_int index with
      | None => raise AssertionError
      | Some i =>
          item ← lift (py_index items i);
          s ← deref self;
          r ← add_guards item (guards (base_of s));
          a ← deref arg;
          add_guards r (guards (base_of a))
      end
  end.

(** [self.getitem_const(arg)]: the two classes that define it. *)
Definition getitem_const (fuel : nat) (self arg : loc) : M loc :=
  o ← deref self;
  match o with
  | ConstantVariable _ value => ConstantVariable_getitem_const fuel self arg value
  | BaseList _ _ items => BaseListVariable_getitem_const fuel self arg items
  | _ => raise AttributeError
  end.

(** [ListIteratorVariable.next_variables(self)]: the two assignments to
    fields of [self] and the returned pair [(item, self)]. *)
Definition next_variables (self : loc) : M (loc * loc) :=
  o ← deref self;
  match o with
  | ListIteratorVariable _ items index =>
      if decide (Z.of_nat (length items) <= index)%Z then raise StopIteration
      else
        item ← lift (py_index items index);
        _ ← update self (fun o =>
               match o with
               | ListIteratorVariable b items index =>
                   ListIteratorVariable b items (index + 1)
               | _ => o
               end);
        _ ← update self (with_base (set_initial_name None));
        mret (item, self)
  | _ => raise AttributeError
  end.

(** What [call_const] returns: an instance, or a Python tuple of
    instances. *)
Inductive call_result :=
  | One (v : loc)
  | Many (vs : list loc).

(** [FunctionConstantWrapper.call_const(self, args, kwargs)]; [kwargs]
    is given by its keys. *)
Definition call_const (fuel : nat) (self : loc) (args : list loc)
    (kwargs : list string) : M call_result :=
  o ← deref self;
  match o with
  | FunctionConstantWrapper _ value =>
      if decide (kwargs = []) then
        match args with
        | [a] => One <$> getitem_const fuel value a
        | [] => mret (One value)
        | _ => Many <$> mapM (getitem_const fuel value) args
        end
      else raise AssertionError
  | _ => raise AttributeError
  end.

(** [name in names] for strings. *)
Definition name_in (name : string) (names : list string) : bool :=
  existsb (fun s => bool_decide (name = s)) names.

(** [x is not None] *)
Definition is_not_None {A} (x : option A) : bool :=
  match x with Some _ => true | None => false end.

(** [TensorVariable.const_attr(self, name)]; the result is [None] when
    the attribute is not known.  [is_cuda d] is [d.type == "cuda"] of the
    device [d]. *)
Definition const_attr (is_cuda : nat -> bool) (self : loc) (name : string)
    : M (option loc) :=
  o ← deref self;
  match o with
  | Tensor _ _ _ dtype device ndim size stride =>
      opts ← propagate [self];
      let b := VariableTracker_init opts in
      let wrap (wrapped : bool) (r : loc) : M (option loc) :=
        if wrapped then Some <$> alloc (FunctionConstantWrapper b r)
        else mret (Some r) in
      let tuple (l : list Z) := PTuple (PInt <$> l) in
      if name_in name ["ndim"; "ndimension"; "dim"] && is_not_None ndim
      then r ← alloc (ConstantVariable b (PInt (default 0%Z ndim)));
           wrap (negb (bool_decide (name = "ndim"))) r
      else if bool_decide (name = "dtype") && is_not_None dtype
      then Some <$> alloc (AllowedFunctionOrModuleVariable b (default 0 dtype))
      else if bool_decide (name = "device") && is_not_None device
      then Some <$> alloc (AllowedFunctionOrModuleVariable b (default 0 device))
      else if bool_decide (name = "is_cuda") && is_not_None device
      then Some <$> alloc (ConstantVariable b (PBool (is_cuda (default 0 device))))
      else if name_in name ["size"; "shape"] && is_not_None size
      then r ← alloc (ConstantVariable b (tuple (default [] size)));
           wrap (bool_decide (name = "size")) r
      else if bool_decide (name = "stride") && is_not_None stride
      then r ← alloc (ConstantVariable b (tuple (default [] stride)));
           wrap true r
      else mret None
  | _ => raise AttributeError
  end.

(** ** Sorting and looking up dict keys *)

Definition key_is_number (k : dict_key) : bool :=
  match k with DInt _ | DBool _ => true | _ => false end.
Definition key_is_string (k : dict_key) : bool :=
  match k with DStr _ => true | _ => false end.

(** [a <= b] between two numbers or between two strings (by code point). *)
Definition key_le (a b : dict_key) : Prop :=
  match a, b with
  | DStr s, DStr t => String.leb s t = true
  | _, _ =>
      match as_int (dict_key_value a), as_int (dict_key_value b) with
      | Some m, Some n => (m <= n)%Z
      | _, _ => True
      end
  end.

#[global] Instance key_le_dec : RelDecision key_le.
Proof.
  intros a b. unfold key_le.
  destruct a, b; simpl; try apply _.
Defined.

(** [sorted(keys)]: numbers sort among numbers and strings among strings;
    a comparison between the two, or one that involves [None], raises
    [TypeError].  Fewer than two keys need no comparison. *)
Definition py_sorted (keys : list dict_key) : result (list dict_key) :=
  if decide (length keys <= 1) then Ok keys
  else if forallb key_is_number keys || forallb key_is_string keys
  then Ok (merge_sort key_le keys)
  else Raise TypeError.

(** [d[k]]: the entry whose key equals [k]. *)
Definition dict_get {A} (d : list (dict_key * A)) (k : dict_key) : result A :=
  match find (fun e => py_eq (dict_key_value e.1) (dict_key_value k)) d with
  | Some e => Ok e.2
  | None => Raise KeyError
  end.

(** ** Identity keys *)

(** The values [get_key] builds: classes, constants, instances and tuples
    of these. *)
Inductive key :=
  | KClass (name : string)
  | KAtom (v : pyvalue)
  | KObject (l : loc)
  | KTuple (l : list key).

(** A constant as a component of a key: a tuple constant is a tuple. *)
Fixpoint key_of_value (v : pyvalue) : key :=
  match v with
  | PTuple l => KTuple (key_of_value <$> l)
  | _ => KAtom v
  end.

(** Python's [==] on keys: classes and instances by identity, constants
    by [py_eq], tuples element by element. *)
Fixpoint key_eq (a b : key) : bool :=
  match a, b with
  | KClass c, KClass d => bool_decide (c = d)
  | KAtom v, KAtom w => py_eq v w
  | KObject l, KObject m => bool_decide (l = m)
  | KTuple l, KTuple m =>
      (fix all2 (l m : list key) : bool :=
         match l, m with
         | [], [] => true
         | x :: l', y :: m' => key_eq x y && all2 l' m'
         | _, _ => false
         end) l m
  | _, _ => false
  end.

(** [id(x)] of a host object. *)
Definition id_host (n : nat) : key := KAtom (PInt (Z.of_nat n)).

(** [self.get_key()], resolved by the class of [self].  [id_int] gives
    the [id] of the [int] object that holds a cursor. *)
Fixpoint get_key (id_int : Z -> Z) (fuel : nat) (self : loc) : M key :=
  match fuel with
  | O => raise RecursionError
  | S fuel' =>
      o ← deref self;
      let cls := KClass (class_name o) in
      match o with
      | Plain _ _ | Tensor _ _ _ _ _ _ _ _ => mret cls
      | NNModuleVariable _ module_key =>
          mret (KTuple [cls; KAtom (PStr module_key)])
      | ConstantVariable _ value => mret (KTuple [cls; key_of_value value])
      | FunctionConstantWrapper _ value => mret (KTuple [cls; KObject value])
      | BuiltinVariable _ fn => mret (KTuple [cls; id_host fn])
      | ListIteratorVariable _ items index =>
          ks ← mapM (get_key id_int fuel') items;
          mret (KTuple [cls; KAtom (PInt (id_int index)); KTuple ks])
      | GetAttrVariable _ obj name =>
          k ← get_key id_int fuel' obj;
          mret (KTuple [cls; KAtom (PStr name); k])
      | BaseList _ _ items =>
          ks ← mapM (get_key id_int fuel') items;
          mret (KTuple [cls; KTuple ks])
      | ConstDictVariable _ items =>
          keys ← lift (py_sorted items.*1);
          ks ← mapM (fun k =>
                       v ← lift (dict_get items k);
                       kv ← get_key id_int fuel' v;
                       mret (KTuple [KAtom (dict_key_value k); kv])) keys;
          mret (KTuple [cls; KTuple ks])
      | UserFunctionVariable _ fn => mret (KTuple [cls; id_host fn])
      | UserMethodVariable _ fn obj =>
          k ← get_key id_int fuel' obj;
          mret (KTuple [cls; id_host fn; k])
      | AllowedFunctionOrModuleVariable _ value => mret (KTuple [cls; id_host value])
      | PythonModuleVariable _ value => mret (KTuple [cls; id_host value])
      | UnsupportedVariable _ _ value_type => mret (KTuple [cls; id_host value_type])
      end
  end.

(** ** The deep traversal *)

(** [identity(x)] *)
Definition identity (x : loc) : M loc := mret x.

Definition set_state (s : TracingSupported) (b : base) : base :=
  mkBase s (guards b) (initial_name b) (global_name b).

(** [apply] on a field value that is no instance: a list is rebuilt
    element by element, everything else is returned as it is. *)
Fixpoint apply_value (v : pyvalue) : pyvalue :=
  match v with
  | PList l => PList (apply_value <$> l)
  | _ => v
  end.

(** [apply] on a dict of instances: the keys are sorted and each entry is
    looked up and traversed in that order. *)
Definition apply_items (rec : loc -> M loc) (items : list (dict_key * loc))
    : M (list (dict_key * loc)) :=
  keys ← lift (py_sorted items.*1);
  mapM (fun k => v ← lift (dict_get items k); v' ← rec v; mret (k, v')) keys.

(** The entry ["state"] of [value.__dict__], read when the traversal of
    the sorted field names reaches it: after the fields named ["items"]
    and ["obj"], whose traversal calls [fn]. *)
Definition read_state (value : loc) (o : object loc) : M (object loc) :=
  v ← deref value;
  mret (with_base (set_state (state (base_of v))) o).

(** [cls.apply(fn, value.__dict__)]: the new [__dict__], its entries
    computed in the sorted order of the field names.  Of each class at most
    one field holds instances; [rec] is [cls.apply(fn, _)] on these.  Sets,
    tuples and host objects are returned as they are (a host object is
    taken to be no list and no dict), so the clone shares them with
    [value]. *)
Definition apply_dict (rec : loc -> M loc) (value : loc) (o : object loc)
    : M (object loc) :=
  match o with
  | ConstantVariable b v => mret (ConstantVariable b (apply_value v))
  | FunctionConstantWrapper b v =>
      v' ← rec v; mret (FunctionConstantWrapper b v')
  | ListIteratorVariable b items index =>
      items' ← mapM rec items;
      read_state value (ListIteratorVariable b items' index)
  | GetAttrVariable b obj name =>
      obj' ← rec obj;
      read_state value (GetAttrVariable b obj' name)
  | BaseList c b items =>
      items' ← mapM rec items;
      read_state value (BaseList c b items')
  | ConstDictVariable b items =>
      items' ← apply_items rec items;
      read_state value (ConstDictVariable b items')
  | UserMethodVariable b fn obj =>
      obj' ← rec obj;
      read_state value (UserMethodVariable b fn obj')
  | _ => mret o
  end.

(** [VariableTracker.apply(fn, value)] on an instance: [fn] is called on
    a clone of [value] that holds the traversed fields.  [fuel] is the
    interpreter's recursion limit. *)
Fixpoint apply (fuel : nat) (fn : loc -> M loc) (value : loc) : M loc :=
  match fuel with
  | O => raise RecursionError
  | S fuel' =>
      o ← deref value;
      d ← apply_dict (apply fuel' fn) value o;
      c ← clone value (fun _ => d);
      fn c
  end.

(** [VariableTracker.copy(value)] *)
Definition copy (fuel : nat) (value : loc) : M loc := apply fuel identity value.

(** ** Bindings *)

(** A value has a binding when the field holds a name; a name is a
    non-empty string. *)
Definition bound (n : option string) : Prop :=
  exists s, n = Some s /\ s <> "".

(** Instances of [GetAttrVariable], the class that overrides
    [create_guard]. *)
Definition is_GetAttrVariable {R} (o : object R) : bool :=
  match o with GetAttrVariable _ _ _ => true | _ => false end.

(** ** Computations that only read the store *)

Definition readonly {A} (m : M A) : Prop := forall h, (m h).2 = h.

(** ** Computations that leave existing instances alone *)

(** [m] changes no instance at a location below [n]. *)
Definition keeps {A} (n : nat) (m : M A) : Prop :=
  forall h i, i < n -> i < length h -> (m h).2 !! i = h !! i.

(** [m] changes no instance of the store it starts in: whatever it
    returns or raises, all it did was to construct new instances. *)
Definition preserves {A} (m : M A) : Prop :=
  forall h i, i < length h -> (m h).2 !! i = h !! i.

(** ** Advancing an iterator several times *)

(** [n] successive calls of [next_variables], each on the iterator the
    call before returned, collecting the emitted items. *)
Fixpoint advance (n : nat) (self : loc) : M (list loc) :=
  match n with
  | O => mret []
  | S n' =>
      r ← next_variables self;
      rest ← advance n' r.2;
      mret (r.1 :: rest)
  end.

(** ** What equal keys could mean *)


(** Two instances agree on what the key of their class records: their own
    fields and, through [R], the instances they hold, item by item; the
    entries of two dicts are compared in the sorted order of their keys,
    key with key and value with value. *)
Definition fields_agree (id_int : Z -> Z) (R : loc -> loc -> Prop)
    (a b : object loc) : Prop :=
  match a, b with
  | Plain c _, Plain d _ => c = d
  | Tensor c _ _ _ _ _ _ _, Tensor d _ _ _ _ _ _ _ => c = d
  | NNModuleVariable _ k, NNModuleVariable _ k' => k = k'
  | ConstantVariable _ v, ConstantVariable _ w => py_eq v w = true
  | FunctionConstantWrapper _ v, FunctionConstantWrapper _ w => v = w
  | BuiltinVariable _ f, BuiltinVariable _ f' => f = f'
  | ListIteratorVariable _ items i, ListIteratorVariable _ items' i' =>
      id_int i = id_int i' /\ Forall2 R items items'
  | GetAttrVariable _ o n, GetAttrVariable _ o' n' => n = n' /\ R o o'
  | BaseList c _ items, BaseList d _ items' => c = d /\ Forall2 R items items'
  | ConstDictVariable _ items, ConstDictVariable _ items' =>
      exists keys keys',
        py_sorted items.*1 = Ok keys /\ py_sorted items'.*1 = Ok keys' /\
        Forall2 (fun k k' =>
                   py_eq (dict_key_value k) (dict_key_value k') = true /\
                   exists v v', dict_get items k = Ok v /\
                                dict_get items' k' = Ok v' /\ R v v')
                keys keys'
  | UserFunctionVariable _ f, UserFunctionVariable _ f' => f = f'
  | UserMethodVariable _ f o, UserMethodVariable _ f' o' => f = f' /\ R o o'
  | AllowedFunctionOrModuleVariable _ v, AllowedFunctionOrModuleVariable _ w => v = w
  | PythonModuleVariable _ v, PythonModuleVariable _ w => v = w
  | UnsupportedVariable _ _ t, UnsupportedVariable _ _ t' => t = t'
  | _, _ => False
  end.

(** The instances at [a] and [b] are of the same class and agree on what
    their keys record, and so do the instances they hold, down to the
    depth [fuel], the recursion limit of [get_key]. *)
Fixpoint key_agree (id_int : Z -> Z) (fuel : nat) (h : store) (a b : loc) : Prop :=
  match fuel with
  | O => False
  | S fuel' =>
      match h !! a, h !! b with
      | Some oa, Some ob =>
          class_name oa = class_name ob /\
          fields_agree id_int (key_agree id_int fuel' h) oa ob
      | _, _ => False
      end
  end.

(** ** What the traversal builds *)

(** A visitor that assigns to the clone it is given: [g] computes the
    clone's new [__dict__] from its current one, and the clone is
    returned. *)
Definition visit (g : object loc -> object loc) (l : loc) : M loc :=
  _ ← update l g;
  mret l.

(** A visitor that leaves the clone as it is and returns a new instance,
    [g] of the clone's [__dict__], as [add_guards] and
    [with_initial_name] do. *)
Definition rebuild (g : object loc -> object loc) (l : loc) : M loc := clone l g.

(** What a visitor makes of the clone it is given: called on the newest
    instance [d] of a store, [fn] leaves in its place the instances
    [emit d] and returns the last of them; the instances before [d] are
    not read and not changed. *)
Definition visitor_emits (fn : loc -> M loc)
    (emit : object loc -> list (object loc)) : Prop :=
  forall (hc : store) (d : object loc),
    emit d <> [] /\
    fn (length hc) (hc ++ [d]) =
      (Ok (length hc + length (emit d) - 1), hc ++ emit d).

(** The instances a traversal of the values [ls] constructs when the next
    free location is [n], in the order of their construction, and the
    locations of the results; [lay l n] is what the traversal of [l]
    constructs, its result last. *)
Fixpoint layout_list (lay : loc -> nat -> result (list (object loc)))
    (ls : list loc) (n : nat) : result (list (object loc) * list loc) :=
  match ls with
  | [] => Ok ([], [])
  | l :: ls' =>
      e ← lay l n;
      r ← layout_list lay ls' (n + length e);
      Ok (e ++ r.1, (n + length e - 1) :: r.2)
  end.

Fixpoint mapR {A B} (f : A -> result B) (l : list A) : result (list B) :=
  match l with
  | [] => Ok []
  | x :: l' => y ← f x; ys ← mapR f l'; Ok (y :: ys)
  end.

(** The entries of a dict in the sorted order of their keys. *)
Definition sorted_entries {A} (items : list (dict_key * A)) : result (list (dict_key * A)) :=
  keys ← py_sorted items.*1;
  mapR (fun k => v ← dict_get items k; Ok (k, v)) keys.

(** What the traversal of the fields of [o] constructs, and the new
    [__dict__]: every field that holds instances is traversed from left to
    right, a dict in the sorted order of its keys, and refers to the
    results; a field that holds no instance, a constant's value among
    them, is the same in the new [__dict__]. *)
Definition layout_dict (lay : loc -> nat -> result (list (object loc)))
    (o : object loc) (n : nat) : result (list (object loc) * object loc) :=
  match o with
  | FunctionConstantWrapper b v =>
      e ← lay v n;
      Ok (e, FunctionConstantWrapper b (n + length e - 1))
  | ListIteratorVariable b items index =>
      r ← layout_list lay items n;
      Ok (r.1, ListIteratorVariable b r.2 index)
  | GetAttrVariable b obj name =>
      e ← lay obj n;
      Ok (e, GetAttrVariable b (n + length e - 1) name)
  | BaseList c b items =>
      r ← layout_list lay items n;
      Ok (r.1, BaseList c b r.2)
  | ConstDictVariable b items =>
      entries ← sorted_entries items;
      r ← layout_list lay entries.*2 n;
      Ok (r.1, ConstDictVariable b (zip entries.*1 r.2))
  | UserMethodVariable b fn obj =>
      e ← lay obj n;
      Ok (e, UserMethodVariable b fn (n + length e - 1))
  | _ => Ok ([], o)
  end.

(** The instances the traversal of [value] constructs from the store [h]
    when the next free location is [n], with a visitor that makes [emit d]
    of a clone [d]: those of the fields, bottom-up, and then what the
    visitor makes of the clone of [value], which holds the results of the
    fields. *)
Fixpoint layout (fuel : nat) (h : store) (emit : object loc -> list (object loc))
    (value : loc) (n : nat) : result (list (object loc)) :=
  match fuel with
  | O => Raise RecursionError
  | S fuel' =>
      match h !! value with
      | None => Raise AssertionError
      | Some o =>
          r ← layout_dict (layout fuel' h emit) o n;
          Ok (r.1 ++ emit r.2)
      end
  end.

(** Every instance refers to instances constructed before it: the
    constructors take existing instances and no field is assigned an
    instance later. *)
Definition acyclic (h : store) : Prop :=
  forall l o r, h !! l = Some o -> r ∈ refs o -> r < l.

(** The keys of every dict in the store can be sorted. *)
Definition sortable (h : store) : Prop :=
  forall l b items,
    h !! l = Some (ConstDictVariable b items) ->
    exists keys, py_sorted items.*1 = Ok keys.

(** Every instance among [e], laid out from location [n] on, refers only
    to instances of [e] that come before it. *)
Definition refs_within (n : nat) (e : list (object loc)) : Prop :=
  forall i o r, e !! i = Some o -> r ∈ refs o -> n <= r < n + i.

(** ** Constants and literals *)

(** The classes that define [as_python_constant]; on all others the base
    method raises [NotImplementedError]. *)
Definition defines_constant {R} (o : object R) : bool :=
  match o with
  | ConstantVariable _ _ | BuiltinVariable _ _
  | AllowedFunctionOrModuleVariable _ _ => true
  | BaseList (ListVariable | TupleVariable | SliceVariable) _ _ => true
  | _ => false
  end.

(** [ConstantVariable.is_literal(obj)]: scalars, and lists and tuples of
    literals (floats and sets are not among the modelled values). *)
Fixpoint is_literal (obj : pyvalue) : bool :=
  match obj with
  | PNone | PBool _ | PInt _ | PStr _ => true
  | PTuple l | PList l => forallb is_literal l
  | PSlice _ _ _ | PHost _ => false
  end.

(** ** Dicts *)

(** The keys of a Python dict are pairwise unequal: the dict holds one
    entry for each key. *)
Definition dict_keys (keys : list dict_key) : Prop :=
  forall i j x y, keys !! i = Some x -> keys !! j = Some y ->
    py_eq (dict_key_value x) (dict_key_value y) = true -> i = j.

(** Every dict in the store is a Python dict. *)
Definition proper_dicts (h : store) : Prop :=
  forall l b items, h !! l = Some (ConstDictVariable b items) -> dict_keys items.*1.

Definition is_FunctionConstantWrapper {R} (o : object R) : bool :=
  match o with FunctionConstantWrapper _ _ => true | _ => false end.

(** No instance in the store is a [FunctionConstantWrapper]. *)
Definition no_wrappers (h : store) : Prop :=
  forall l o, h !! l = Some o -> is_FunctionConstantWrapper o = false.

(** ** Asking whether a value is a constant *)

(** [self.is_python_constant()]: [NotImplementedError] is caught, any
    other exception is passed on. *)
Definition is_python_constant (fuel : nat) (self : loc) : M bool := fun h =>
  match as_python_constant fuel self h with
  | (Ok _, h') => (Ok true, h')
  | (Raise NotImplementedError, h') => (Ok false, h')
  | (Raise e, h') => (Raise e, h')
  end.

(** * The benchmark runner *)

(** A [str] is the list of its characters. *)

(** [seq[:stop]] *)
Definition py_prefix {A} (seq : list A) (stop : Z) : list A :=
  let n := Z.of_nat (length seq) in
  take (Z.to_nat (adjust_bound n 1 n (Some stop))) seq.

(** [s.rstrip(chars)]: [s] without its trailing characters that occur in
    [chars]. *)
Fixpoint rstrip (chars : list ascii) (s : list ascii) : list ascii :=
  match s with
  | [] => []
  | a :: s' =>
      match rstrip chars s' with
      | [] => if bool_decide (a ∈ chars) then [] else [a]
      | r => a :: r
      end
  end.

(** [short_name(name, limit)]; [limit] defaults to 20. *)
Definition short_name (name : list ascii) (limit : Z) : list ascii :=
  if decide (Z.of_nat (length name) <= limit)%Z then name
  else rstrip ["_"%char] (py_prefix name (limit - 3)) ++ ["."; "."; "."]%char.

(** * The test helpers *)

(** What [same] raises: an exception of the kinds above, or a
    [RuntimeError] that names a type. *)
Inductive test_exn :=
  | Exn (e : exn)
  | RuntimeError (type_name : string).

(** The values [same] compares: lists and tuples, tensors, and objects of
    any other type, of which the type's name and the attribute [mean], if
    there is one, are kept. *)
Inductive tvalue (tensor : Type) :=
  | TSeq (tuple : bool) (items : list (tvalue tensor))
  | TTensor (t : tensor)
  | TObject (type_name : string) (mean : option (tvalue tensor)).
Arguments TSeq {tensor}.
Arguments TTensor {tensor}.
Arguments TObject {tensor}.

Section testing.
Context {tensor : Type}.

(** [torch.allclose(a, b, atol=1e-4, rtol=1e-4)], which raises for tensors
    that cannot be compared. *)
Variable allclose : tensor -> tensor -> test_exn + bool.

(** [v.mean]: a list or a tuple has no such attribute, and that of a
    tensor is a bound method. *)
Definition getattr_mean (v : tvalue tensor) : test_exn + tvalue tensor :=
  match v with
  | TSeq _ _ => inl (Exn AttributeError)
  | TTensor _ => inr (TObject "builtin_function_or_method" None)
  | TObject _ (Some m) => inr m
  | TObject _ None => inl (Exn AttributeError)
  end.

(** [all(f(ai, bi) for ai, bi in zip(a, b))]: the pairs are compared in
    order up to the first that is not true. *)
Fixpoint all_zip (f : tvalue tensor -> tvalue tensor -> test_exn + bool)
    (a b : list (tvalue tensor)) : test_exn + bool :=
  match a, b with
  | ai :: a', bi :: b' =>
      match f ai bi with
      | inr true => all_zip f a' b'
      | r => r
      end
  | _, _ => inr true
  end.

(** [same(a, b)]; [fuel] is the interpreter's recursion limit. *)
Fixpoint same (fuel : nat) (a b : tvalue tensor) : test_exn + bool :=
  match fuel with
  | O => inl (Exn RecursionError)
  | S fuel' =>
      match a with
      | TSeq _ items =>
          match b with
          | TSeq _ items' => all_zip (same fuel') items items'
          | _ => inl (Exn AssertionError)
          end
      | TTensor t =>
          match b with
          | TTensor u => allclose t u
          | _ => inl (Exn AssertionError)
          end
      | TObject name mean =>
          if bool_decide (name = "SquashedNormal") then
            match mean with
            | Some m =>
                match getattr_mean b with
                | inr m' => same fuel' m m'
                | inl e => inl e
                end
            | None => inl (Exn AttributeError)
            end
          else inl (RuntimeError name)
      end
  end.

End testing.

(** * Properties *)

(** ** Running computations *)

Lemma bind_ok {A B} (m : M A) (k : A -> M B) h a h' :
  m h = (Ok a, h') -> (m ≫= k) h = k a h'.
Proof. intros E. unfold mbind, M_bind. by rewrite E. Qed.

Lemma bind_raise {A B} (m : M A) (k : A -> M B) h e h' :
  m h = (Raise e, h') -> (m ≫= k) h = (Raise e, h').
Proof. intros E. unfold mbind, M_bind. by rewrite E. Qed.

Lemma fmap_ok {A B} (f : A -> B) (m : M A) h a h' :
  m h = (Ok a, h') -> (f <$> m) h = (Ok (f a), h').
Proof. intros E. unfold fmap, M_fmap. by rewrite E. Qed.

Lemma deref_ok h l o : h !! l = Some o -> deref l h = (Ok o, h).
Proof. intros E. unfold deref. by rewrite E. Qed.

Lemma mapM_deref h vars objs :
  Forall2 (fun l o => h !! l = Some o) vars objs ->
  mapM deref vars h = (Ok objs, h).
Proof.
  induction 1 as [|l o vars objs Hl _ IH]; [done|].
  simpl. rewrite (bind_ok _ _ _ _ _ (deref_ok _ _ _ Hl)).
  by rewrite (bind_ok _ _ _ _ _ IH).
Qed.

(** ** Combining support states *)

Lemma combine_max a b : TS.combine a b = Ok (ts_max a b).
Proof. by destruct a, b. Qed.

Lemma ts_max_value a b : TS.value (ts_max a b) = Z.max (TS.value a) (TS.value b).
Proof. by destruct a, b. Qed.

Lemma reduce_from_combine acc l :
  reduce_from TS.combine acc l = Ok (foldl ts_max acc l).
Proof.
  revert acc. induction l as [|x l IH]; intros acc; [done|].
  simpl. rewrite combine_max. apply IH.
Qed.

Lemma reduce_from_union (acc : gset Guard) l :
  reduce_from (fun a b => Ok (a ∪ b)) acc l = Ok (foldl (∪) acc l).
Proof.
  revert acc. induction l as [|x l IH]; intros acc; [done|]. apply IH.
Qed.

Lemma foldl_ts_max_NO acc l :
  foldl ts_max acc l = NO <-> acc = NO \/ Exists (fun s => s = NO) l.
Proof.
  revert acc. induction l as [|x l IH]; intros acc; simpl.
  - rewrite Exists_nil. tauto.
  - rewrite IH, Exists_cons. destruct acc, x; simpl; intuition congruence.
Qed.

Lemma foldl_ts_max_UNKNOWN acc l :
  foldl ts_max acc l = UNKNOWN <-> acc = UNKNOWN /\ Forall (fun s => s = UNKNOWN) l.
Proof.
  revert acc. induction l as [|x l IH]; intros acc; simpl.
  - rewrite Forall_nil. tauto.
  - rewrite IH, Forall_cons. destruct acc, x; simpl; intuition congruence.
Qed.

Lemma foldl_ts_max_value acc l :
  TS.value (foldl ts_max acc l) = foldl Z.max (TS.value acc) (TS.value <$> l).
Proof.
  revert acc. induction l as [|x l IH]; intros acc; [done|].
  simpl. by rewrite IH, ts_max_value.
Qed.

Lemma foldl_union_elem (acc : gset Guard) l g :
  g ∈ foldl (∪) acc l <-> g ∈ acc \/ exists s, s ∈ l /\ g ∈ s.
Proof.
  revert acc. induction l as [|x l IH]; intros acc; simpl.
  - split; [auto|]. intros [?|(s & Hs & _)]; [done|]. by apply elem_of_nil in Hs.
  - rewrite IH, elem_of_union. split.
    + intros [[?|?]|(s & Hs & ?)]; [by left| |].
      * right. exists x. split; [left|done].
      * right. exists s. split; [by right|done].
    + intros [?|(s & Hs & ?)]; [by left; left|].
      apply elem_of_cons in Hs as [->|Hs]; [by left; right|].
      right. eauto.
Qed.

(** What [propagate] returns on a non-empty list of instances. *)
Lemma propagate_nonempty h v vars o objs :
  h !! v = Some o ->
  Forall2 (fun l o => h !! l = Some o) vars objs ->
  propagate (v :: vars) h =
    (Ok (mkOptions
           (Some (foldl ts_max (state (base_of o))
                    ((fun v => state (base_of v)) <$> objs)))
           (Some (foldl (∪) (guards (base_of o))
                    ((fun v => guards (base_of v)) <$> objs)))), h).
Proof.
  intros Hv Hvars. unfold propagate. simpl.
  assert (Hall : Forall2 (fun l o => h !! l = Some o) (v :: vars) (o :: objs))
    by by constructor.
  rewrite (bind_ok _ _ _ _ _ (mapM_deref _ _ _ Hall)). simpl.
  unfold combine_states, combine_guards, lift. simpl.
  unfold mbind at 1, M_bind. rewrite reduce_from_combine.
  unfold mbind at 1, M_bind. by rewrite reduce_from_union.
Qed.

Lemma propagate_single h x o :
  h !! x = Some o ->
  propagate [x] h =
    (Ok (mkOptions (Some (state (base_of o))) (Some (guards (base_of o)))), h).
Proof. intros Hx. by rewrite (propagate_nonempty h x [] o [] Hx). Qed.

(** ** propagate *)

(** C1: on the empty list [propagate] returns, without touching the
    store, the empty options; a constructor given these options sets the
    support state UNKNOWN and the empty guard set, and these two are the
    neutral elements of the state and guard combinators. *)
Theorem propagate_empty_neutral (h : store) :
  propagate [] h = (Ok no_options, h) /\
  state (VariableTracker_init no_options) = UNKNOWN /\
  guards (VariableTracker_init no_options) = ∅ /\
  (forall s, TS.combine (state (VariableTracker_init no_options)) s = Ok s /\
             TS.combine s (state (VariableTracker_init no_options)) = Ok s) /\
  (forall g : gset Guard,
     guards (VariableTracker_init no_options) ∪ g = g /\
     g ∪ guards (VariableTracker_init no_options) = g).
Proof.
  split; [done|]. split; [done|]. split; [done|]. split.
  - intros s. by destruct s.
  - intros g. simpl. split; set_solver.
Qed.

(** C2: on a non-empty list of instances the combined state is NO exactly
    when some instance has state NO, otherwise YES exactly when some
    instance has state YES, otherwise UNKNOWN; it is the maximum of the
    instances' states in the order UNKNOWN < YES < NO. *)
Theorem propagate_state_max (h : store) (vars : list loc) (objs : list (object loc)) :
  vars <> [] ->
  Forall2 (fun l o => h !! l = Some o) vars objs ->
  exists s g,
    propagate vars h = (Ok (mkOptions (Some s) (Some g)), h) /\
    (s = NO <-> Exists (fun o => state (base_of o) = NO) objs) /\
    (s = YES <-> ~ Exists (fun o => state (base_of o) = NO) objs /\
                 Exists (fun o => state (base_of o) = YES) objs) /\
    (s = UNKNOWN <-> Forall (fun o => state (base_of o) = UNKNOWN) objs) /\
    (forall o, o ∈ objs -> (TS.value (state (base_of o)) <= TS.value s)%Z) /\
    (exists o, o ∈ objs /\ state (base_of o) = s).
Proof.
  intros Hne Hall. destruct Hall as [|v o vars objs Hv Hall]; [done|].
  eexists _, _. split; [by apply propagate_nonempty|].
  set (ss := (fun v => state (base_of v)) <$> objs).
  set (s := foldl ts_max (state (base_of o)) ss).
  assert (HNO : s = NO <-> Exists (fun o => state (base_of o) = NO) (o :: objs)).
  { unfold s. rewrite foldl_ts_max_NO, Exists_cons. unfold ss.
    by rewrite Exists_fmap. }
  assert (HUN : s = UNKNOWN <-> Forall (fun o => state (base_of o) = UNKNOWN) (o :: objs)).
  { unfold s. rewrite foldl_ts_max_UNKNOWN, Forall_cons. unfold ss.
    by rewrite Forall_fmap. }
  split; [done|]. split; [|split; [done|]].
  - rewrite <- HNO. split.
    + intros Hs. split; [congruence|].
      destruct (decide (Exists (fun o => state (base_of o) = YES) (o :: objs)))
        as [|Hno]; [done|].
      exfalso. assert (s = UNKNOWN); [|congruence].
      apply HUN. apply Forall_forall. intros x Hx.
      destruct (state (base_of x)) eqn:E; [done| |].
      * destruct Hno. apply Exists_exists. eauto.
      * assert (s = NO); [|congruence]. apply HNO, Exists_exists. eauto.
    + intros [Hn Hy]. destruct s eqn:E; [|done|done].
      apply proj1 in HUN. specialize (HUN eq_refl).
      apply Exists_exists in Hy as (x & Hx & Hy).
      rewrite Forall_forall in HUN. specialize (HUN x Hx). congruence.
  - split.
    + intros x Hx. destruct (state (base_of x)) eqn:E; simpl.
      * destruct s; simpl; lia.
      * destruct s eqn:Es; simpl; try lia.
        apply proj1 in HUN. specialize (HUN eq_refl).
        rewrite Forall_forall in HUN. specialize (HUN x Hx). congruence.
      * assert (s = NO) as ->; [|simpl; lia].
        apply HNO, Exists_exists. eauto.
    + destruct s eqn:Es.
      * exists o. split; [left|]. apply proj1 in HUN. specialize (HUN eq_refl).
        by inversion HUN.
      * destruct (decide (Exists (fun o => state (base_of o) = YES) (o :: objs)))
          as [Hy|Hno].
        { apply Exists_exists in Hy as (x & Hx & Hy). eauto. }
        exfalso. assert (YES = UNKNOWN); [|done].
        apply HUN. apply Forall_forall. intros x Hx.
        destruct (state (base_of x)) eqn:E; [done| |].
        -- destruct Hno. apply Exists_exists. eauto.
        -- assert (YES = NO); [|done]. apply HNO, Exists_exists. eauto.
      * apply proj1 in HNO. specialize (HNO eq_refl).
        apply Exists_exists in HNO as (x & Hx & Hy). eauto.
Qed.

(** C2, at the three instances UNKNOWN, NO, YES. *)
Lemma propagate_state_max_witness :
  let h : store := [Plain UnknownVariable (mkBase UNKNOWN ∅ None None);
                    Plain UnknownVariable (mkBase NO ∅ None None);
                    Plain UnknownVariable (mkBase YES ∅ None None)] in
  exists s g, propagate [0; 1; 2] h = (Ok (mkOptions (Some s) (Some g)), h) /\ s = NO.
Proof.
  intros h.
  destruct (propagate_state_max h [0; 1; 2] h) as (s & g & Hp & HNO & _).
  - done.
  - repeat constructor.
  - exists s, g. split; [done|]. apply HNO. apply Exists_cons_tl, Exists_cons_hd. done.
Defined.

(** ** Guard creation *)

Lemma truthy_Some n s : truthy n = Some s <-> n = Some s /\ s <> "".
Proof.
  unfold truthy. destruct n as [t|]; [|naive_solver].
  destruct (decide (t = "")); naive_solver.
Qed.

Lemma truthy_None n : truthy n = None <-> ~ bound n.
Proof.
  unfold bound, truthy. destruct n as [t|]; [|naive_solver].
  destruct (decide (t = "")); naive_solver.
Qed.

Lemma create_guard_base h self o fn :
  h !! self = Some o -> is_GetAttrVariable o = false ->
  create_guard self fn h = (VariableTracker_create_guard (base_of o) fn, h).
Proof.
  intros Hs Hc. unfold create_guard.
  rewrite (bind_ok _ _ _ _ _ (deref_ok _ _ _ Hs)). by destruct o.
Qed.

Lemma create_guard_getattr h self b obj name oo fn :
  h !! self = Some (GetAttrVariable b obj name) -> h !! obj = Some oo ->
  create_guard self fn h = (GetAttrVariable_create_guard (base_of oo) name fn, h).
Proof.
  intros Hs Ho. unfold create_guard.
  rewrite (bind_ok _ _ _ _ _ (deref_ok _ _ _ Hs)).
  by rewrite (bind_ok _ _ _ _ _ (deref_ok _ _ _ Ho)).
Qed.

(** C7 as stated fails: an attribute-access value with a local name whose
    object has none cannot create a guard. *)
Lemma create_guard_iff_counterexample :
  ~ (forall (h : store) (self : loc) (o : object loc) (fn : option nat),
       h !! self = Some o ->
       (create_guard self fn h).1 = Raise NotImplementedError <->
       ~ bound (initial_name (base_of o)) /\ ~ bound (global_name (base_of o))).
Proof.
  intros H.
  specialize (H [Plain UnknownVariable (mkBase UNKNOWN ∅ None None);
                 GetAttrVariable (mkBase UNKNOWN ∅ (Some "x") None) 0 "a"]
                1 _ None eq_refl).
  apply proj1 in H. destruct (H eq_refl) as [Hn _].
  apply Hn. exists "x". done.
Qed.

(** C7, amended: for an instance of any class but [GetAttrVariable],
    [create_guard] raises [NotImplementedError] exactly when the instance
    has neither a local nor a global name, leaves the store alone, and
    otherwise returns the guard (name, LOCAL or GLOBAL, fn) on a name the
    instance has; for a [GetAttrVariable] it raises exactly when the object
    it reads from has no local name and otherwise returns the LOCAL guard
    on object-name "." attribute-name. *)
Theorem create_guard_iff (h : store) (self : loc) (o : object loc) (fn : option nat) :
  h !! self = Some o ->
  (forall r, r ∈ refs o -> is_Some (h !! r)) ->
  (create_guard self fn h).2 = h /\
  (is_GetAttrVariable o = false ->
     ((create_guard self fn h).1 = Raise NotImplementedError <->
      ~ bound (initial_name (base_of o)) /\ ~ bound (global_name (base_of o))) /\
     (bound (initial_name (base_of o)) \/ bound (global_name (base_of o)) ->
      exists name source,
        (create_guard self fn h).1 = Ok (mkGuard name source fn) /\
        (source = LOCAL /\ initial_name (base_of o) = Some name \/
         source = GLOBAL /\ global_name (base_of o) = Some name))) /\
  (forall b obj name oo,
     o = GetAttrVariable b obj name -> h !! obj = Some oo ->
     ((create_guard self fn h).1 = Raise NotImplementedError <->
      ~ bound (initial_name (base_of oo))) /\
     (forall n, initial_name (base_of oo) = Some n -> n <> "" ->
        (create_guard self fn h).1 =
          Ok (mkGuard (String.append n (String.append "." name)) LOCAL fn))).
Proof.
  intros Hs Hrefs. split; [|split].
  - destruct (is_GetAttrVariable o) eqn:Hc.
    + destruct o; try done. destruct (Hrefs obj) as [oo Ho]; [by left|].
      by rewrite (create_guard_getattr _ _ _ _ _ _ _ Hs Ho).
    + by rewrite (create_guard_base _ _ _ _ Hs Hc).
  - intros Hc. rewrite (create_guard_base _ _ _ _ Hs Hc). simpl.
    unfold VariableTracker_create_guard.
    destruct (truthy (initial_name (base_of o))) as [n|] eqn:Hi.
    + apply truthy_Some in Hi as [Hi Hn]. split.
      * split; [done|]. intros [Hb _]. destruct Hb. by eexists.
      * intros _. exists n, LOCAL. eauto.
    + apply truthy_None in Hi.
      destruct (truthy (global_name (base_of o))) as [n|] eqn:Hg.
      * apply truthy_Some in Hg as [Hg Hn]. split.
        -- split; [done|]. intros [_ Hb]. destruct Hb. by eexists.
        -- intros _. exists n, GLOBAL. eauto.
      * apply truthy_None in Hg. split; [done|]. tauto.
  - intros b obj name oo -> Ho.
    rewrite (create_guard_getattr _ _ _ _ _ _ _ Hs Ho). simpl.
    unfold GetAttrVariable_create_guard.
    destruct (truthy (initial_name (base_of oo))) as [n|] eqn:Hi.
    + apply truthy_Some in Hi as [Hi Hn]. split.
      * split; [done|]. intros Hb. destruct Hb. by eexists.
      * intros n' Hn' _. congruence.
    + apply truthy_None in Hi. split; [done|].
      intros n Hn Hne. destruct Hi. exists n. done.
Qed.

(** C7, amended, at a tensor named ["x"] and at its attribute ["shape"]. *)
Lemma create_guard_iff_witness :
  let h : store :=
    [Tensor TensorVariable (mkBase YES ∅ (Some "x") None) 7 None None None None None;
     GetAttrVariable (mkBase YES ∅ None None) 0 "shape"] in
  (create_guard 0 (Some 3) h).1 = Ok (mkGuard "x" LOCAL (Some 3)) /\
  (create_guard 1 (Some 3) h).1 = Ok (mkGuard "x.shape" LOCAL (Some 3)).
Proof.
  intros h. split.
  - destruct (create_guard_iff h 0 _ (Some 3) eq_refl) as (_ & H & _).
    + intros r Hr. by apply elem_of_nil in Hr.
    + destruct (H eq_refl) as [_ H2]. reflexivity.
  - destruct (create_guard_iff h 1 _ (Some 3) eq_refl) as (_ & _ & H).
    + intros r Hr. apply list_elem_of_singleton in Hr as ->. by eexists.
    + destruct (H _ _ _ _ eq_refl eq_refl) as [_ H2].
      apply (H2 "x" eq_refl). done.
Defined.

(** C10 as stated fails: an attribute-access value with a local and a
    global name guards the attribute of its object, not its own local
    name. *)
Lemma create_guard_local_counterexample :
  ~ (forall (h : store) (self : loc) (o : object loc) (fn : option nat) (l g : string),
       h !! self = Some o ->
       initial_name (base_of o) = Some l -> l <> "" ->
       global_name (base_of o) = Some g -> g <> "" ->
       (create_guard self fn h).1 = Ok (mkGuard l LOCAL fn)).
Proof.
  intros H.
  specialize (H [Plain UnknownVariable (mkBase UNKNOWN ∅ (Some "o") None);
                 GetAttrVariable (mkBase UNKNOWN ∅ (Some "x") (Some "g")) 0 "a"]
                1 _ None "x" "g" eq_refl eq_refl).
  discriminate H; done.
Qed.

(** C10, amended: for an instance of any class but [GetAttrVariable], a
    local name yields the LOCAL guard on that name whether or not there is
    a global name, and a GLOBAL guard is returned only when there is no
    local name, on the global name. *)
Theorem create_guard_local_first (h : store) (self : loc) (o : object loc)
    (fn : option nat) :
  h !! self = Some o ->
  is_GetAttrVariable o = false ->
  (forall l, initial_name (base_of o) = Some l -> l <> "" ->
     create_guard self fn h = (Ok (mkGuard l LOCAL fn), h)) /\
  (forall g, (create_guard self fn h).1 = Ok g -> guard_source g = GLOBAL ->
     ~ bound (initial_name (base_of o)) /\
     global_name (base_of o) = Some (guard_name g)).
Proof.
  intros Hs Hc. rewrite (create_guard_base _ _ _ _ Hs Hc).
  unfold VariableTracker_create_guard. split.
  - intros l Hl Hne.
    assert (truthy (initial_name (base_of o)) = Some l) as ->; [|done].
    by apply truthy_Some.
  - intros g. simpl.
    destruct (truthy (initial_name (base_of o))) as [n|] eqn:Hi.
    { intros [= <-]. done. }
    apply truthy_None in Hi.
    destruct (truthy (global_name (base_of o))) as [n|] eqn:Hg; [|done].
    apply truthy_Some in Hg as [Hg _]. intros [= <-] _. done.
Qed.

(** C10, amended, at a constant with the local name ["x"] and the global
    name ["g"]. *)
Lemma create_guard_local_first_witness :
  let h : store := [ConstantVariable (mkBase YES ∅ (Some "x") (Some "g")) (PInt 4)] in
  create_guard 0 (Some 1) h = (Ok (mkGuard "x" LOCAL (Some 1)), h).
Proof.
  intros h.
  destruct (create_guard_local_first h 0 _ (Some 1) eq_refl eq_refl) as [H _].
  apply (H "x" eq_refl). done.
Defined.

(** ** Tensor specialization *)

(** C9: the properties always hold the element type, the device and the
    rank; they hold the size and the stride exactly when [dynamic_shapes]
    is off, and nothing else. *)
Theorem specialize_props (cfg : config) (value : tensor) :
  specialize cfg value !! "dtype" = Some (PHost (t_dtype value)) /\
  specialize cfg value !! "device" = Some (PHost (t_device value)) /\
  specialize cfg value !! "ndim" = Some (PInt (t_ndim value)) /\
  (is_Some (specialize cfg value !! "size") <-> dynamic_shapes cfg = false) /\
  (is_Some (specialize cfg value !! "stride") <-> dynamic_shapes cfg = false) /\
  (dynamic_shapes cfg = false ->
     specialize cfg value !! "size" = Some (PTuple (PInt <$> t_size value)) /\
     specialize cfg value !! "stride" = Some (PTuple (PInt <$> t_stride value))) /\
  (forall k, is_Some (specialize cfg value !! k) ->
     k ∈ ["dtype"; "device"; "ndim"; "size"; "stride"]).
Proof.
  unfold specialize. destruct (dynamic_shapes cfg); simpl.
  - repeat split; try done.
    + intros [? [=]].
    + intros [? [=]].
    + intros k [x Hx]. rewrite !lookup_insert in Hx.
      repeat case_decide; subst; try set_solver.
  - repeat split; try done.
    intros k [x Hx]. rewrite !lookup_insert in Hx.
    repeat case_decide; subst; try set_solver.
Qed.

(** ** Computations that only read the store *)

Lemma readonly_ret {A} (a : A) : readonly (mret a).
Proof. done. Qed.

Lemma readonly_raise {A} e : readonly (@raise A e).
Proof. done. Qed.

Lemma readonly_lift {A} (r : result A) : readonly (lift r).
Proof. done. Qed.

Lemma readonly_deref l : readonly (deref l).
Proof. intros h. unfold deref. by destruct (h !! l). Qed.

Lemma readonly_bind {A B} (m : M A) (k : A -> M B) :
  readonly m -> (forall a, readonly (k a)) -> readonly (m ≫= k).
Proof.
  intros Hm Hk h. unfold mbind, M_bind. specialize (Hm h).
  destruct (m h) as [[a|e] h1]; simpl in *; subst; [apply Hk|done].
Qed.

Lemma readonly_fmap {A B} (f : A -> B) (m : M A) :
  readonly m -> readonly (f <$> m).
Proof.
  intros Hm h. unfold fmap, M_fmap. specialize (Hm h).
  by destruct (m h) as [[a|e] h1].
Qed.

Lemma readonly_mapM {A B} (f : A -> M B) l :
  (forall x, readonly (f x)) -> readonly (mapM f l).
Proof.
  intros Hf. induction l as [|x l IH]; [done|]. simpl.
  apply readonly_bind; [done|]. intros y.
  apply readonly_bind; [done|]. intros ys. done.
Qed.

Create HintDb readonly.
#[local] Hint Resolve readonly_ret readonly_raise readonly_lift readonly_deref
  readonly_bind readonly_fmap readonly_mapM : readonly.

Lemma readonly_as_python_constant fuel l : readonly (as_python_constant fuel l).
Proof.
  revert l. induction fuel as [|fuel IH]; intros l; simpl; [done|].
  apply readonly_bind; [apply readonly_deref|].
  intros [| | | | | | | | [] | | | | | |]; auto 6 with readonly.
Qed.

Lemma readonly_propagate vars : readonly (propagate vars).
Proof.
  unfold propagate. case_decide; auto 8 with readonly.
Qed.

Lemma readonly_run {A} (m : M A) h r h' : readonly m -> m h = (r, h') -> h' = h.
Proof. intros Hm E. specialize (Hm h). by rewrite E in Hm. Qed.

(** ** Inverting a successful run *)

Lemma bind_inv {A B} (m : M A) (k : A -> M B) h b h' :
  (m ≫= k) h = (Ok b, h') ->
  exists a h1, m h = (Ok a, h1) /\ k a h1 = (Ok b, h').
Proof.
  unfold mbind, M_bind. destruct (m h) as [[a|e] h1]; [eauto|done].
Qed.

Lemma deref_inv l h o h' : deref l h = (Ok o, h') -> h' = h /\ h !! l = Some o.
Proof. unfold deref. destruct (h !! l); naive_solver. Qed.

Lemma lift_inv {A} (r : result A) h a h' : lift r h = (Ok a, h') -> h' = h /\ r = Ok a.
Proof. unfold lift. naive_solver. Qed.

Lemma alloc_inv o h l h' :
  alloc o h = (Ok l, h') -> h' = h ++ [o] /\ l = length h /\ h' !! l = Some o.
Proof.
  unfold alloc. intros [= <- <-]. split; [done|]. split; [done|].
  by apply list_lookup_middle.
Qed.

Lemma clone_inv self kwargs h r h' :
  clone self kwargs h = (Ok r, h') ->
  exists o, h !! self = Some o /\ h' = h ++ [kwargs o] /\ r = length h /\
            h' !! r = Some (kwargs o).
Proof.
  unfold clone. intros H.
  apply bind_inv in H as (o & h1 & [-> Ho]%deref_inv & H).
  apply alloc_inv in H. naive_solver.
Qed.

Lemma add_guards_inv self gs h r h' :
  add_guards self gs h = (Ok r, h') ->
  exists o, h !! self = Some o /\
            h' = h ++ [with_base (set_guards (guards (base_of o) ∪ gs)) o] /\
            r = length h /\
            h' !! r = Some (with_base (set_guards (guards (base_of o) ∪ gs)) o).
Proof.
  unfold add_guards. intros H.
  apply bind_inv in H as (o & h1 & [-> Ho]%deref_inv & H).
  apply clone_inv in H as (o' & Ho' & H). naive_solver.
Qed.

Lemma base_of_with_base {R} f (o : object R) : base_of (with_base f o) = f (base_of o).
Proof. by destruct o. Qed.

Lemma lookup_extend {A} (h ext : list A) l o : h !! l = Some o -> (h ++ ext) !! l = Some o.
Proof. apply lookup_app_l_Some. Qed.

(** ** Guards are never dropped *)

Lemma ConstantVariable_getitem_const_guards fuel h self arg so ao value r h' :
  h !! self = Some so -> h !! arg = Some ao ->
  ConstantVariable_getitem_const fuel self arg value h = (Ok r, h') ->
  exists ro, h' !! r = Some ro /\
    guards (base_of ro) = guards (base_of so) ∪ guards (base_of ao).
Proof.
  intros Hs Ha H. unfold ConstantVariable_getitem_const in H.
  apply bind_inv in H as (key & h1 & Hk & H).
  apply (readonly_run _ _ _ _ (readonly_as_python_constant _ _)) in Hk as ->.
  apply bind_inv in H as (v & h1 & [-> _]%lift_inv & H).
  apply bind_inv in H as (opts & h1 & Hp & H).
  rewrite (propagate_nonempty h self [arg] so [ao]) in Hp;
    [|done|by repeat constructor].
  injection Hp as <- <-.
  apply alloc_inv in H as (_ & _ & H). eexists. split; [exact H|done].
Qed.

Lemma BaseListVariable_getitem_const_guards fuel h self arg so ao items r h' :
  h !! self = Some so -> h !! arg = Some ao ->
  BaseListVariable_getitem_const fuel self arg items h = (Ok r, h') ->
  exists ro, h' !! r = Some ro /\
    guards (base_of so) ∪ guards (base_of ao) ⊆ guards (base_of ro).
Proof.
  intros Hs Ha H. unfold BaseListVariable_getitem_const in H.
  apply bind_inv in H as (index & h1 & Hk & H).
  apply (readonly_run _ _ _ _ (readonly_as_python_constant _ _)) in Hk as ->.
  assert (Hint : forall i, as_int index = Some i ->
    (item ← lift (py_index items i);
     s ← deref self;
     r ← add_guards item (guards (base_of s));
     a ← deref arg;
     add_guards r (guards (base_of a))) h = (Ok r, h') ->
    exists ro, h' !! r = Some ro /\
      guards (base_of so) ∪ guards (base_of ao) ⊆ guards (base_of ro)).
  { clear H. intros i _ H.
    apply bind_inv in H as (item & h1 & [-> _]%lift_inv & H).
    apply bind_inv in H as (s & h1 & [-> Hs']%deref_inv & H).
    apply bind_inv in H as (r1 & h1 & Hr1 & H).
    apply add_guards_inv in Hr1 as (io & Hio & -> & -> & Hr1).
    apply bind_inv in H as (a & h2 & [-> Ha']%deref_inv & H).
    apply add_guards_inv in H as (o1 & Ho1 & -> & -> & H).
    rewrite (lookup_extend _ _ _ _ Ha) in Ha'. rewrite Hs in Hs'.
    rewrite Hr1 in Ho1. injection Ha' as <-. injection Hs' as <-.
    injection Ho1 as <-.
    eexists. split; [exact H|].
    repeat (rewrite base_of_with_base; simpl). set_solver. }
  destruct index; try (by simpl in H; first [done | eapply Hint; eauto]).
  apply bind_inv in H as (part & h1 & [-> _]%lift_inv & H).
  apply bind_inv in H as (r1 & h1 & Hr1 & H).
  apply clone_inv in Hr1 as (so' & Hso' & -> & -> & Hr1).
  apply bind_inv in H as (a & h2 & [-> Ha']%deref_inv & H).
  apply add_guards_inv in H as (o1 & Ho1 & -> & -> & H).
  rewrite (lookup_extend _ _ _ _ Ha) in Ha'. rewrite Hs in Hso'.
  rewrite Hr1 in Ho1. injection Ha' as <-. injection Hso' as <-.
  injection Ho1 as <-.
  eexists. split; [exact H|]. rewrite base_of_with_base. simpl.
  assert (base_of (set_items part so) = base_of so) as -> by by destruct so.
  set_solver.
Qed.

Lemma getitem_const_guards fuel h self arg so ao r h' :
  h !! self = Some so -> h !! arg = Some ao ->
  getitem_const fuel self arg h = (Ok r, h') ->
  exists ro, h' !! r = Some ro /\
    guards (base_of so) ∪ guards (base_of ao) ⊆ guards (base_of ro).
Proof.
  intros Hs Ha H. unfold getitem_const in H.
  apply bind_inv in H as (o & h1 & [-> Ho]%deref_inv & H).
  rewrite Hs in Ho. injection Ho as <-.
  destruct so; try done.
  - destruct (ConstantVariable_getitem_const_guards _ _ _ _ _ _ _ _ _ Hs Ha H)
      as (ro & Hro & Hg).
    exists ro. split; [done|]. by rewrite Hg.
  - by eapply BaseListVariable_getitem_const_guards.
Qed.

Lemma as_python_constant_constant fuel h l b v :
  h !! l = Some (ConstantVariable b v) ->
  as_python_constant (S fuel) l h = (Ok v, h).
Proof. intros Hl. simpl. by rewrite (bind_ok _ _ _ _ _ (deref_ok _ _ _ Hl)). Qed.

Lemma add_guards_run h l o gs :
  h !! l = Some o ->
  add_guards l gs h =
    (Ok (length h), h ++ [with_base (set_guards (guards (base_of o) ∪ gs)) o]).
Proof.
  intros Hl. unfold add_guards, clone.
  rewrite (bind_ok _ _ _ _ _ (deref_ok _ _ _ Hl)).
  by rewrite (bind_ok _ _ _ _ _ (deref_ok _ _ _ Hl)).
Qed.

(** Indexing a list value by a constant integer in range returns: two
    clones of the selected item are made, the second one is the result. *)
Lemma getitem_const_index_returns fuel h self arg c b items ab i item io :
  h !! self = Some (BaseList c b items) ->
  h !! arg = Some (ConstantVariable ab (PInt i)) ->
  py_index items i = Ok item ->
  h !! item = Some io ->
  let o1 := with_base (set_guards (guards (base_of io) ∪ guards b)) io in
  let o2 := with_base (set_guards (guards (base_of o1) ∪ guards ab)) o1 in
  getitem_const (S fuel) self arg h = (Ok (S (length h)), h ++ [o1; o2]).
Proof.
  intros Hs Ha Hi Hio o1 o2. unfold getitem_const.
  rewrite (bind_ok _ _ _ _ _ (deref_ok _ _ _ Hs)).
  unfold BaseListVariable_getitem_const.
  rewrite (bind_ok _ _ _ _ _ (as_python_constant_constant _ _ _ _ _ Ha)).
  simpl. rewrite Hi.
  rewrite (bind_ok _ _ _ item h); [|done].
  rewrite (bind_ok _ _ _ _ _ (deref_ok _ _ _ Hs)).
  rewrite (bind_ok _ _ _ _ _ (add_guards_run _ _ _ _ Hio)).
  rewrite (bind_ok _ _ _ _ _ (deref_ok _ _ _ (lookup_extend _ _ _ _ Ha))).
  assert (Hn : (h ++ [o1]) !! length h = Some o1) by by apply list_lookup_middle.
  rewrite (add_guards_run _ _ _ _ Hn).
  rewrite length_app, <- app_assoc. simpl. by rewrite Nat.add_1_r.
Qed.

Lemma ConstantVariable_getitem_const_run fuel h self arg b value ao key :
  h !! self = Some (ConstantVariable b value) ->
  h !! arg = Some ao ->
  as_python_constant fuel arg h = (Ok key, h) ->
  ConstantVariable_getitem_const fuel self arg value h =
    match py_getitem value key with
    | Ok v =>
        (Ok (length h),
         h ++ [ConstantVariable
                 (mkBase (ts_max (state b) (state (base_of ao)))
                    (guards b ∪ guards (base_of ao)) None None) v])
    | Raise e => (Raise e, h)
    end.
Proof.
  intros Hs Ha Hk.
  unfold ConstantVariable_getitem_const. rewrite (bind_ok _ _ _ _ _ Hk).
  destruct (py_getitem value key) as [v|e]; [|done].
  rewrite (bind_ok _ _ _ v h) by done.
  rewrite (bind_ok _ _ _ _ _
             (propagate_nonempty h self [arg] _ [ao] Hs ltac:(by repeat constructor))).
  done.
Qed.

(** ** The list iterator *)

Lemma update_run h l o f :
  h !! l = Some o -> update l f h = (Ok (), <[l := f o]> h).
Proof. intros Hl. unfold update. by rewrite Hl. Qed.

Lemma py_index_nonneg {A} (seq : list A) (i : Z) x :
  (0 <= i)%Z -> seq !! Z.to_nat i = Some x -> py_index seq i = Ok x.
Proof.
  intros Hi Hx. unfold py_index.
  apply lookup_lt_Some in Hx as Hlt.
  destruct (decide (i < 0)%Z) as [|_]; [lia|].
  rewrite decide_True by lia. by rewrite Hx.
Qed.

(** One advance of an iterator whose cursor is a position of its items. *)
Lemma next_variables_step h self b items index item :
  h !! self = Some (ListIteratorVariable b items index) ->
  (0 <= index)%Z ->
  items !! Z.to_nat index = Some item ->
  next_variables self h =
    (Ok (item, self),
     <[self := ListIteratorVariable (set_initial_name None b) items (index + 1)]> h).
Proof.
  intros Hs Hi Hitem. unfold next_variables.
  rewrite (bind_ok _ _ _ _ _ (deref_ok _ _ _ Hs)).
  apply lookup_lt_Some in Hitem as Hlt.
  rewrite decide_False by lia.
  rewrite (py_index_nonneg _ _ _ Hi Hitem).
  rewrite (bind_ok _ _ _ item h); [|done].
  rewrite (bind_ok _ _ _ _ _ (update_run _ _ _ _ Hs)).
  assert (Hs' : <[self := ListIteratorVariable b items (index + 1)]> h !! self
                = Some (ListIteratorVariable b items (index + 1))).
  { apply list_lookup_insert_eq. by apply lookup_lt_Some in Hs. }
  rewrite (bind_ok _ _ _ _ _ (update_run _ _ _ _ Hs')).
  unfold mret, M_ret. by rewrite list_insert_insert_eq.
Qed.

(** An exhausted iterator raises [StopIteration] and nothing changes. *)
Lemma next_variables_exhausted h self b items index :
  h !! self = Some (ListIteratorVariable b items index) ->
  (Z.of_nat (length items) <= index)%Z ->
  next_variables self h = (Raise StopIteration, h).
Proof.
  intros Hs Hi. unfold next_variables.
  rewrite (bind_ok _ _ _ _ _ (deref_ok _ _ _ Hs)).
  by rewrite decide_True by lia.
Qed.

(** The items [n] advances emit, from a cursor that is a position. *)
Lemma advance_from h self b items index n :
  h !! self = Some (ListIteratorVariable b items index) ->
  (0 <= index)%Z ->
  (index + Z.of_nat n <= Z.of_nat (length items))%Z ->
  advance n self h =
    (Ok (take n (drop (Z.to_nat index) items)),
     match n with
     | O => h
     | S _ => <[self := ListIteratorVariable (set_initial_name None b) items
                          (index + Z.of_nat n)]> h
     end).
Proof.
  revert h b index. induction n as [|n IH]; intros h b index Hs Hi Hn; [done|].
  destruct (lookup_lt_is_Some_2 items (Z.to_nat index)) as [item Hitem]; [lia|].
  cbn [advance].
  rewrite (bind_ok _ _ _ _ _ (next_variables_step _ _ _ _ _ _ Hs Hi Hitem)).
  cbn [fst snd].
  set (h1 := <[self := _]> h).
  assert (Hs1 : h1 !! self
                = Some (ListIteratorVariable (set_initial_name None b) items (index + 1))).
  { apply list_lookup_insert_eq. by apply lookup_lt_Some in Hs. }
  rewrite (bind_ok _ _ _ _ _ (IH _ _ _ Hs1 ltac:(lia) ltac:(lia))).
  unfold mret, M_ret. f_equal.
  - f_equal. rewrite (drop_S _ _ _ Hitem). simpl.
    by replace (Z.to_nat (index + 1)) with (S (Z.to_nat index)) by lia.
  - destruct n.
    + unfold h1. by replace (index + Z.of_nat 1)%Z with (index + 1)%Z by lia.
    + unfold h1. rewrite list_insert_insert_eq.
      by replace (index + 1 + Z.of_nat (S n))%Z
        with (index + Z.of_nat (S (S n)))%Z by lia.
Qed.

(** An advance of an iterator that is not exhausted, whatever its cursor:
    a negative cursor counts from the end of the items, as Python's
    indexing does, and one below [-len(items)] raises [IndexError] before
    anything is assigned. *)
Lemma next_variables_run h self b items index :
  h !! self = Some (ListIteratorVariable b items index) ->
  (index < Z.of_nat (length items))%Z ->
  next_variables self h =
    match py_index items index with
    | Ok item =>
        (Ok (item, self),
         <[self := ListIteratorVariable (set_initial_name None b) items (index + 1)]> h)
    | Raise e => (Raise e, h)
    end.
Proof.
  intros Hs Hi. unfold next_variables.
  rewrite (bind_ok _ _ _ _ _ (deref_ok _ _ _ Hs)).
  rewrite decide_False by lia.
  destruct (py_index items index) as [item|e]; [|done].
  rewrite (bind_ok _ _ _ item h); [|done].
  rewrite (bind_ok _ _ _ _ _ (update_run _ _ _ _ Hs)).
  assert (Hs' : <[self := ListIteratorVariable b items (index + 1)]> h !! self
                = Some (ListIteratorVariable b items (index + 1))).
  { apply list_lookup_insert_eq. by apply lookup_lt_Some in Hs. }
  rewrite (bind_ok _ _ _ _ _ (update_run _ _ _ _ Hs')).
  unfold mret, M_ret. by rewrite list_insert_insert_eq.
Qed.

Example next_variables_negative_cursor :
  let c := ConstantVariable (mkBase YES ∅ None None) (PInt 1) in
  next_variables 1 [c; ListIteratorVariable (mkBase YES ∅ None None) [0] (-1)]
    = (Ok (0, 1), [c; ListIteratorVariable (mkBase YES ∅ None None) [0] 0]) /\
  next_variables 1 [c; ListIteratorVariable (mkBase YES ∅ None None) [0] (-2)]
    = (Raise IndexError,
       [c; ListIteratorVariable (mkBase YES ∅ None None) [0] (-2)]).
Proof. done. Qed.

(** ** Operations that construct and never assign *)

Lemma preserves_length {A} (m : M A) h : preserves m -> length h <= length (m h).2.
Proof.
  intros Hm. destruct (decide (length h = 0)) as [->|Hne]; [lia|].
  specialize (Hm h (length h - 1) ltac:(lia)).
  destruct (lookup_lt_is_Some_2 h (length h - 1)) as [o Ho]; [lia|].
  rewrite Ho in Hm. apply lookup_lt_Some in Hm. lia.
Qed.

Lemma preserves_prefix {A} (m : M A) h : preserves m -> h `prefix_of` (m h).2.
Proof.
  intros Hm. exists (drop (length h) (m h).2).
  rewrite <- (take_drop (length h) (m h).2) at 1. f_equal.
  apply list_eq. intros i. destruct (decide (i < length h)) as [Hi|Hi].
  - rewrite lookup_take_lt by done. by apply Hm.
  - rewrite lookup_take_ge by lia. symmetry. apply lookup_ge_None. lia.
Qed.

Lemma preserves_readonly {A} (m : M A) : readonly m -> preserves m.
Proof. intros Hm h i _. by rewrite Hm. Qed.

Lemma preserves_bind {A B} (m : M A) (k : A -> M B) :
  preserves m -> (forall a, preserves (k a)) -> preserves (m ≫= k).
Proof.
  intros Hm Hk h i Hi. unfold mbind, M_bind.
  pose proof (Hm h i Hi) as Hmi. pose proof (preserves_length m h Hm) as Hlen.
  destruct (m h) as [[a|e] h1]; simpl in *; [|done].
  rewrite <- Hmi. apply Hk. lia.
Qed.

Lemma preserves_fmap {A B} (f : A -> B) (m : M A) : preserves m -> preserves (f <$> m).
Proof.
  intros Hm h i Hi. specialize (Hm h i Hi). unfold fmap, M_fmap.
  by destruct (m h) as [[a|e] h1].
Qed.

Lemma preserves_mapM {A B} (f : A -> M B) l :
  (forall x, preserves (f x)) -> preserves (mapM f l).
Proof.
  intros Hf. induction l as [|x l IH]; [done|]. simpl.
  apply preserves_bind; [done|]. intros y.
  apply preserves_bind; [done|]. intros ys. done.
Qed.

Lemma preserves_alloc o : preserves (alloc o).
Proof. intros h i Hi. simpl. by apply lookup_app_l. Qed.

Lemma preserves_clone self kwargs : preserves (clone self kwargs).
Proof.
  apply preserves_bind; [apply preserves_readonly, readonly_deref|].
  intros o. apply preserves_alloc.
Qed.

Lemma preserves_add_guards self gs : preserves (add_guards self gs).
Proof.
  apply preserves_bind; [apply preserves_readonly, readonly_deref|].
  intros o. apply preserves_clone.
Qed.

Lemma preserves_add_guard self g : preserves (add_guard self g).
Proof.
  apply preserves_bind; [apply preserves_readonly, readonly_deref|].
  intros o. apply preserves_clone.
Qed.

Lemma preserves_with_initial_name self name : preserves (with_initial_name self name).
Proof. apply preserves_clone. Qed.

#[local] Hint Resolve preserves_bind preserves_fmap preserves_mapM preserves_alloc
  preserves_clone preserves_add_guards : readonly.
#[local] Hint Extern 1 (preserves (deref _)) =>
  apply preserves_readonly, readonly_deref : readonly.
#[local] Hint Extern 1 (preserves (lift _)) =>
  apply preserves_readonly, readonly_lift : readonly.
#[local] Hint Extern 1 (preserves (raise _)) =>
  apply preserves_readonly, readonly_raise : readonly.
#[local] Hint Extern 1 (preserves (mret _)) =>
  apply preserves_readonly, readonly_ret : readonly.
#[local] Hint Extern 1 (preserves (as_python_constant _ _)) =>
  apply preserves_readonly, readonly_as_python_constant : readonly.
#[local] Hint Extern 1 (preserves (propagate _)) =>
  apply preserves_readonly, readonly_propagate : readonly.

Lemma preserves_getitem_const fuel self arg : preserves (getitem_const fuel self arg).
Proof.
  unfold getitem_const. apply preserves_bind; [auto with readonly|].
  intros o. destruct o; auto with readonly.
  - unfold ConstantVariable_getitem_const. auto 8 with readonly.
  - unfold BaseListVariable_getitem_const.
    apply preserves_bind; [auto with readonly|].
    intros index. destruct index as [| [] | | | | | |]; simpl; auto 10 with readonly.
Qed.

Lemma readonly_create_guard self fn : readonly (create_guard self fn).
Proof.
  unfold create_guard. apply readonly_bind; [apply readonly_deref|].
  intros o. destruct o; auto with readonly.
Qed.

Lemma readonly_can_create_guard self : readonly (can_create_guard self).
Proof.
  intros h. unfold can_create_guard.
  pose proof (readonly_create_guard self None h) as H.
  destruct (create_guard self None h) as [[g|[]] h1]; done.
Qed.

Lemma readonly_get_key id_int fuel self : readonly (get_key id_int fuel self).
Proof.
  revert self. induction fuel as [|fuel IH]; intros self; simpl; [done|].
  apply readonly_bind; [apply readonly_deref|].
  intros o. destruct o; auto 8 with readonly.
Qed.

(** A visitor that changes at most the instance it is given, and
    instances made after it, may be run on a fresh clone. *)
Lemma preserves_clone_then self kwargs (fn : loc -> M loc) :
  (forall l, keeps l (fn l)) -> preserves (clone self kwargs ≫= fn).
Proof.
  intros Hfn h i Hi. unfold clone, mbind, M_bind, deref.
  destruct (h !! self) as [o|]; [|done]. simpl.
  rewrite (Hfn (length h) (h ++ [kwargs o]) i Hi).
  - by apply lookup_app_l.
  - rewrite length_app. lia.
Qed.

Lemma preserves_read_state value o : preserves (read_state value o).
Proof. unfold read_state. auto with readonly. Qed.

Lemma preserves_apply_items rec items :
  (forall l, preserves (rec l)) -> preserves (apply_items rec items).
Proof. intros Hrec. unfold apply_items. auto 10 with readonly. Qed.

Lemma preserves_apply_dict rec value o :
  (forall l, preserves (rec l)) -> preserves (apply_dict rec value o).
Proof.
  intros Hrec. pose proof (preserves_read_state value) as Hst.
  pose proof (preserves_apply_items rec) as Hit.
  destruct o; simpl; auto 8 with readonly.
Qed.

(** The traversal changes no instance of the store it starts in, provided
    the visitor changes at most the clone it is given. *)
Lemma preserves_apply fuel fn value :
  (forall l, keeps l (fn l)) -> preserves (apply fuel fn value).
Proof.
  intros Hfn. revert value. induction fuel as [|fuel IH]; intros value; simpl.
  { auto with readonly. }
  apply preserves_bind; [auto with readonly|]. intros o.
  apply preserves_bind; [by apply preserves_apply_dict|]. intros d.
  by apply preserves_clone_then.
Qed.

Lemma keeps_identity l : keeps l (identity l).
Proof. done. Qed.

Lemma preserves_copy fuel value : preserves (copy fuel value).
Proof. apply preserves_apply. intros l. apply keeps_identity. Qed.

(** An advance changes no instance but the iterator. *)
Lemma next_variables_others self h i :
  i <> self -> (next_variables self h).2 !! i = h !! i.
Proof.
  intros Hne. unfold next_variables, mbind, M_bind, deref.
  destruct (h !! self) as [o|] eqn:Hs; [|done].
  destruct o; try done.
  case_decide; [done|]. unfold lift.
  destruct (py_index items index) as [item|e]; [|done].
  unfold update. rewrite Hs.
  assert (Hs' : <[self := ListIteratorVariable b items (index + 1)]> h !! self
                = Some (ListIteratorVariable b items (index + 1))).
  { apply list_lookup_insert_eq. by apply lookup_lt_Some in Hs. }
  rewrite Hs'. simpl. by rewrite !list_lookup_insert_ne.
Qed.

(** On an instance of any other class [next_variables] is not defined. *)
Lemma next_variables_not_iterator self h o :
  h !! self = Some o -> class_name o <> "ListIteratorVariable" ->
  next_variables self h = (Raise AttributeError, h).
Proof.
  intros Hs Hc. unfold next_variables.
  rewrite (bind_ok _ _ _ _ _ (deref_ok _ _ _ Hs)). by destruct o.
Qed.

(** ** Attribute constants and their calls *)

Lemma preserves_call_const fuel self args kwargs :
  preserves (call_const fuel self args kwargs).
Proof.
  unfold call_const. apply preserves_bind; [auto with readonly|].
  pose proof (preserves_getitem_const fuel) as Hg.
  intros o. destruct o; auto with readonly.
  case_decide; [|auto with readonly].
  destruct args as [|a [|a' args]]; auto with readonly.
Qed.

Lemma preserves_const_attr is_cuda self name : preserves (const_attr is_cuda self name).
Proof.
  unfold const_attr. apply preserves_bind; [auto with readonly|].
  intros o. destruct o; auto with readonly.
  apply preserves_bind; [auto with readonly|]. intros opts.
  repeat (destruct (_ && _);
          [repeat case_bool_decide; simpl; auto 6 with readonly|]).
  auto with readonly.
Qed.

(** A call of a wrapped constant with one argument indexes the constant:
    the result holds the guards of the constant and of the argument. *)
Lemma call_const_guards fuel h self b value arg vo ao r h' :
  h !! self = Some (FunctionConstantWrapper b value) ->
  h !! value = Some vo -> h !! arg = Some ao ->
  call_const fuel self [arg] [] h = (Ok (One r), h') ->
  exists ro, h' !! r = Some ro /\
    guards (base_of vo) ∪ guards (base_of ao) ⊆ guards (base_of ro).
Proof.
  intros Hs Hv Ha H. unfold call_const in H.
  rewrite (bind_ok _ _ _ _ _ (deref_ok _ _ _ Hs)) in H.
  rewrite decide_True in H by done.
  unfold fmap, M_fmap in H.
  destruct (getitem_const fuel value arg h) as [[r'|e] h1] eqn:Hg; [|done].
  injection H as <- <-. by eapply getitem_const_guards.
Qed.

(** Tracing [x.shape[0]] for a tensor [x] of size (4, 3) guarded on its
    shape: the attribute is a constant tuple, its item the constant 4, and
    both carry the guard of [x]. *)
Example shape_index_constant :
  let gx := mkGuard "x" LOCAL (Some 1) in
  let h : store :=
    [Tensor TensorVariable (mkBase YES {[gx]} (Some "x") None) 7
       None None (Some 2%Z) (Some [4; 3]%Z) (Some [3; 1]%Z);
     ConstantVariable (mkBase UNKNOWN ∅ None None) (PInt 0)] in
  let h1 := (const_attr (fun _ => false) 0 "shape" h).2 in
  let h2 := (getitem_const 2 2 1 h1).2 in
  const_attr (fun _ => false) 0 "shape" h = (Ok (Some 2), h1) /\
  h1 !! 2 = Some (ConstantVariable (mkBase YES {[gx]} None None)
                    (PTuple [PInt 4; PInt 3])) /\
  getitem_const 2 2 1 h1 = (Ok 3, h2) /\
  exists b, h2 !! 3 = Some (ConstantVariable b (PInt 4)) /\
            state b = YES /\ gx ∈ guards b.
Proof.
  intros gx h h1 h2. split; [by vm_compute|]. split; [by vm_compute|].
  split; [by vm_compute|]. eexists. split; [by vm_compute|].
  split; [done|]. simpl. set_solver.
Qed.

(** C5: an advance of an iterator whose cursor is a position of its items
    returns the item at the cursor and the iterator itself, adds one to the
    cursor, sets the iterator's initial name to [None] and changes nothing
    else in the store; [n] advances of a fresh iterator emit its first [n]
    items in order; and no other operation changes an existing instance:
    they read the store or construct new instances. *)
Theorem iterator_single_mutation :
  (forall (h : store) (self : loc) (b : base) (items : list loc) (index : Z)
          (item : loc),
     h !! self = Some (ListIteratorVariable b items index) ->
     (0 <= index)%Z ->
     items !! Z.to_nat index = Some item ->
     next_variables self h =
       (Ok (item, self),
        <[self := ListIteratorVariable (set_initial_name None b) items (index + 1)]> h)) /\
  (forall (h : store) (self : loc) (b : base) (items : list loc) (n : nat),
     h !! self = Some (ListIteratorVariable b items 0) ->
     n <= length items ->
     (advance n self h).1 = Ok (take n items) /\
     forall i, i <> self -> (advance n self h).2 !! i = h !! i) /\
  (forall (h : store) (self i : loc),
     i <> self -> (next_variables self h).2 !! i = h !! i) /\
  (forall (h : store) (self : loc) (o : object loc),
     h !! self = Some o -> class_name o <> "ListIteratorVariable" ->
     next_variables self h = (Raise AttributeError, h)) /\
  ((forall vars, preserves (propagate vars)) /\
   (forall self fn, preserves (create_guard self fn)) /\
   (forall self, preserves (can_create_guard self)) /\
   (forall fuel self, preserves (as_python_constant fuel self)) /\
   (forall id_int fuel self, preserves (get_key id_int fuel self)) /\
   (forall self kwargs, preserves (clone self kwargs)) /\
   (forall self gs, preserves (add_guards self gs)) /\
   (forall self g, preserves (add_guard self g)) /\
   (forall self name, preserves (with_initial_name self name)) /\
   (forall fuel self arg, preserves (getitem_const fuel self arg)) /\
   (forall fuel self args kwargs, preserves (call_const fuel self args kwargs)) /\
   (forall is_cuda self name, preserves (const_attr is_cuda self name)) /\
   (forall fuel fn value,
      (forall l, keeps l (fn l)) -> preserves (apply fuel fn value)) /\
   (forall fuel value, preserves (copy fuel value))).
Proof.
  split; [apply next_variables_step|].
  split.
  { intros h self b items n Hs Hn.
    rewrite (advance_from h self b items 0 n Hs); [|lia|lia].
    split; [done|]. intros i Hi. destruct n; [done|]. simpl.
    by apply list_lookup_insert_ne. }
  split; [intros; by apply next_variables_others|].
  split; [intros; by eapply next_variables_not_iterator|].
  repeat split.
  - intros. apply preserves_readonly, readonly_propagate.
  - intros. apply preserves_readonly, readonly_create_guard.
  - intros. apply preserves_readonly, readonly_can_create_guard.
  - intros. apply preserves_readonly, readonly_as_python_constant.
  - intros. apply preserves_readonly, readonly_get_key.
  - apply preserves_clone.
  - apply preserves_add_guards.
  - apply preserves_add_guard.
  - apply preserves_with_initial_name.
  - apply preserves_getitem_const.
  - apply preserves_call_const.
  - apply preserves_const_attr.
  - apply preserves_apply.
  - apply preserves_copy.
Qed.

(** C5 at an iterator named ["it"] over three constants: two advances emit
    the first two, move the cursor to 2 and clear the name. *)
Lemma iterator_single_mutation_witness :
  let c n := ConstantVariable (mkBase YES ∅ None None) (PInt n) in
  let h : store :=
    [c 10%Z; c 20%Z; c 30%Z;
     ListIteratorVariable (mkBase YES ∅ (Some "it") None) [0; 1; 2] 0] in
  (advance 2 3 h).1 = Ok [0; 1] /\
  (advance 2 3 h).2 !! 3 =
    Some (ListIteratorVariable (mkBase YES ∅ None None) [0; 1; 2] 2) /\
  next_variables 3 h =
    (Ok (0, 3),
     <[3 := ListIteratorVariable (mkBase YES ∅ None None) [0; 1; 2] 1]> h).
Proof.
  intros c h. destruct iterator_single_mutation as (Hstep & Hadv & _).
  split; [|split].
  - apply (Hadv h 3 _ [0; 1; 2] 2 eq_refl). simpl. lia.
  - reflexivity.
  - apply (Hstep h 3 _ [0; 1; 2] 0%Z 0 eq_refl); [lia|reflexivity].
Defined.

(** C8: advancing an iterator whose cursor is at or past the end of its
    items raises [StopIteration], which is not the [NotImplementedError]
    that unsupported operations raise, and leaves the whole store, and so
    the iterator's cursor, items and initial name, as it was. *)
Theorem next_variables_exhausted_atomic (h : store) (self : loc) (b : base)
    (items : list loc) (index : Z) :
  h !! self = Some (ListIteratorVariable b items index) ->
  (Z.of_nat (length items) <= index)%Z ->
  next_variables self h = (Raise StopIteration, h) /\
  (next_variables self h).1 <> Raise NotImplementedError /\
  (next_variables self h).2 !! self = Some (ListIteratorVariable b items index).
Proof.
  intros Hs Hi. rewrite (next_variables_exhausted _ _ _ _ _ Hs Hi). done.
Qed.

(** C8 at an iterator that has emitted its only item, and at one over no
    items. *)
Lemma next_variables_exhausted_atomic_witness :
  let h : store :=
    [Plain UnknownVariable (mkBase UNKNOWN ∅ None None);
     ListIteratorVariable (mkBase YES ∅ (Some "it") None) [0] 1;
     ListIteratorVariable (mkBase YES ∅ None None) [] 0] in
  next_variables 1 h = (Raise StopIteration, h) /\
  next_variables 2 h = (Raise StopIteration, h).
Proof.
  intros h. split.
  - apply (next_variables_exhausted_atomic h 1 _ [0] 1 eq_refl). simpl. lia.
  - apply (next_variables_exhausted_atomic h 2 _ [] 0 eq_refl). simpl. lia.
Defined.

(** ** Identity keys *)

Lemma pyvalue_nested_ind (P : pyvalue -> Prop) :
  P PNone -> (forall b, P (PBool b)) -> (forall n, P (PInt n)) ->
  (forall s, P (PStr s)) ->
  (forall l, Forall P l -> P (PTuple l)) ->
  (forall l, Forall P l -> P (PList l)) ->
  (forall a b c, P a -> P b -> P c -> P (PSlice a b c)) ->
  (forall i, P (PHost i)) ->
  forall v, P v.
Proof.
  intros HN HB HI HS HT HL HSl HH.
  fix IH 1. intros [| | | |l|l|a b c|].
  - exact HN.
  - apply HB.
  - apply HI.
  - apply HS.
  - apply HT. induction l as [|x l IHl]; constructor; [apply IH|exact IHl].
  - apply HL. induction l as [|x l IHl]; constructor; [apply IH|exact IHl].
  - apply HSl; apply IH.
  - apply HH.
Qed.


Lemma mapM_length {A B} (f : A -> M B) l h ys h' :
  mapM f l h = (Ok ys, h') -> length ys = length l.
Proof.
  revert h ys h'. induction l as [|x l IH]; intros h ys h' H; simpl in H.
  - by injection H as <- _.
  - apply bind_inv in H as (y & h1 & _ & H).
    apply bind_inv in H as (ys' & h2 & Hys & H).
    injection H as <- _. simpl. f_equal. by eapply IH.
Qed.

Lemma py_sorted_length keys keys' : py_sorted keys = Ok keys' -> length keys' = length keys.
Proof.
  unfold py_sorted. case_decide; [by intros [= <-]|].
  destruct (_ || _); [|done]. intros [= <-]. by rewrite merge_sort_Permutation.
Qed.


(** The constants [1] and [True] have equal keys and differ. *)
Example get_key_int_bool :
  let h : store := [ConstantVariable (mkBase YES ∅ None None) (PInt 1);
                    ConstantVariable (mkBase YES ∅ None None) (PBool true)] in
  exists ka kb, get_key id 1 0 h = (Ok ka, h) /\ get_key id 1 1 h = (Ok kb, h) /\
                key_eq ka kb = true.
Proof. intros h. by eexists _, _. Qed.

(** Two unsupported values of one type have equal keys whatever the
    objects they stand for. *)
Example get_key_unsupported_same_type :
  let h : store := [UnsupportedVariable (mkBase NO ∅ None None) 11 5;
                    UnsupportedVariable (mkBase NO ∅ None None) 12 5] in
  exists ka kb, get_key id 1 0 h = (Ok ka, h) /\ get_key id 1 1 h = (Ok kb, h) /\
                key_eq ka kb = true.
Proof. intros h. by eexists _, _. Qed.









Section key_agree_step.
Context (id_int : Z -> Z) (fuel : nat) (h : store) (R : loc -> loc -> Prop).

(** The induction hypothesis: on the instances an instance holds, equal
    keys are agreement. *)
Hypothesis IH : forall x y kx ky hx hy,
  get_key id_int fuel x h = (Ok kx, hx) ->
  get_key id_int fuel y h = (Ok ky, hy) ->
  key_eq kx ky = true <-> R x y.




End key_agree_step.



(** Two tuples of the same length whose items have different keys have
    different keys, and do not agree. *)
Example get_key_nested_differ :
  let b := mkBase YES ∅ None None in
  let h : store :=
    [ConstantVariable b (PInt 1); ConstantVariable b (PInt 2);
     BaseList TupleVariable b [0]; BaseList TupleVariable b [1]] in
  (exists ka kb, get_key id 2 2 h = (Ok ka, h) /\ get_key id 2 3 h = (Ok kb, h) /\
                 key_eq ka kb = false) /\
  ~ key_agree id 2 h 2 3.
Proof.
  intros b h. split.
  - exists (KTuple [KClass "TupleVariable";
                    KTuple [KTuple [KClass "ConstantVariable"; KAtom (PInt 1)]]]),
           (KTuple [KClass "TupleVariable";
                    KTuple [KTuple [KClass "ConstantVariable"; KAtom (PInt 2)]]]).
    by vm_compute.
  - unfold h. simpl. intros (_ & _ & H).
    apply Forall2_cons_1 in H as [Hv _]. simpl in Hv.
    destruct Hv as [_ Hv]. discriminate Hv.
Qed.

(** ** The traversal and what it constructs *)

Lemma rbind_inv {A B} (r : result A) (k : A -> result B) b :
  r ≫= k = Ok b -> exists a, r = Ok a /\ k a = Ok b.
Proof. destruct r as [a|e]; [eauto|done]. Qed.

Lemma lift_ok {A} (a : A) h : lift (Ok a) h = (Ok a, h).
Proof. done. Qed.

(** The visitors of the module are of this kind. *)
Lemma visitor_emits_visit g : visitor_emits (visit g) (fun d => [g d]).
Proof.
  intros hc d. split; [done|].
  unfold visit, update. unfold mbind, M_bind.
  rewrite list_lookup_middle by done. unfold mret, M_ret. simpl.
  rewrite insert_app_r_alt, Nat.sub_diag by lia. f_equal. f_equal. lia.
Qed.

Lemma visitor_emits_rebuild g : visitor_emits (rebuild g) (fun d => [d; g d]).
Proof.
  intros hc d. split; [done|]. unfold rebuild, clone.
  rewrite (bind_ok _ _ _ d (hc ++ [d]))
    by (apply deref_ok; by apply list_lookup_middle).
  unfold alloc. rewrite length_app, <- app_assoc. simpl. f_equal. f_equal. lia.
Qed.

Lemma visitor_emits_identity : visitor_emits identity (fun d => [d]).
Proof.
  intros hc d. split; [done|]. unfold identity, mret, M_ret. simpl.
  f_equal. f_equal. lia.
Qed.

Lemma visitor_emits_add_guards gs :
  visitor_emits (fun l => add_guards l gs)
    (fun d => [d; with_base (set_guards (guards (base_of d) ∪ gs)) d]).
Proof.
  intros hc d. split; [done|].
  rewrite (add_guards_run _ _ d) by by apply list_lookup_middle.
  rewrite length_app, <- app_assoc. simpl. f_equal. f_equal. lia.
Qed.

Lemma clone_then fn emit hc value o d :
  visitor_emits fn emit ->
  hc !! value = Some o ->
  (clone value (fun _ => d) ≫= fn) hc =
    (Ok (length hc + length (emit d) - 1), hc ++ emit d).
Proof.
  intros Hfn Hv. unfold clone.
  rewrite (bind_ok _ _ _ (length hc) (hc ++ [d])).
  - apply Hfn.
  - by rewrite (bind_ok _ _ _ _ _ (deref_ok _ _ _ Hv)).
Qed.

(** A constant's value is rebuilt equal: lists of literals hold no
    instance. *)
Lemma apply_value_id v : apply_value v = v.
Proof.
  induction v as [| | | |l IH|l IH|a b c|] using pyvalue_nested_ind; try done.
  simpl. f_equal. induction IH as [|x l Hx _ IHl]; [done|].
  rewrite fmap_cons. by rewrite Hx, IHl.
Qed.

Lemma set_state_same b : set_state (state b) b = b.
Proof. by destruct b. Qed.

Lemma read_state_same hc value o o' :
  hc !! value = Some o -> base_of o' = base_of o ->
  read_state value o' hc = (Ok o', hc).
Proof.
  intros Hv Hb. unfold read_state.
  rewrite (bind_ok _ _ _ _ _ (deref_ok _ _ _ Hv)). unfold mret, M_ret.
  rewrite <- Hb. f_equal. f_equal. destruct o'; simpl; by rewrite set_state_same.
Qed.

Section apply_layout.
Context (f : loc -> M loc) (emit : object loc -> list (object loc)).
Context (h : store) (fuel : nat).

(** The induction hypothesis: what the traversal of one value does in a
    store that extends [h]. *)
Hypothesis IH : forall pre value ext,
  layout fuel h emit value (length h + length pre) = Ok ext ->
  apply fuel f value (h ++ pre) =
    (Ok (length h + length pre + length ext - 1), h ++ pre ++ ext).

Lemma mapM_apply_layout ls pre e rs :
  layout_list (layout fuel h emit) ls (length h + length pre) = Ok (e, rs) ->
  mapM (apply fuel f) ls (h ++ pre) = (Ok rs, h ++ pre ++ e).
Proof using IH.
  revert pre e rs. induction ls as [|l ls IHls]; intros pre e rs H; simpl in H.
  - injection H as <- <-. simpl. by rewrite app_nil_r.
  - apply rbind_inv in H as (e1 & He1 & H).
    apply rbind_inv in H as ([e2 rs2] & He2 & H). injection H as <- <-.
    simpl. rewrite (bind_ok _ _ _ _ _ (IH _ _ _ He1)).
    replace (length h + length pre + length e1)
      with (length h + length (pre ++ e1)) in He2 by (rewrite length_app; lia).
    specialize (IHls _ _ _ He2). rewrite <- app_assoc in IHls.
    rewrite (bind_ok _ _ _ _ _ IHls). unfold mret, M_ret.
    by rewrite <- ?app_assoc.
Qed.

Lemma apply_items_layout items pre entries e rs :
  sorted_entries items = Ok entries ->
  layout_list (layout fuel h emit) entries.*2 (length h + length pre) = Ok (e, rs) ->
  apply_items (apply fuel f) items (h ++ pre) =
    (Ok (zip entries.*1 rs), h ++ pre ++ e).
Proof using IH.
  unfold sorted_entries, apply_items. intros Hs Hl.
  apply rbind_inv in Hs as (keys & Hkeys & Hs). rewrite Hkeys.
  rewrite (bind_ok _ _ _ keys (h ++ pre)) by done.
  clear Hkeys. revert pre entries e rs Hs Hl.
  induction keys as [|k keys IHk]; intros pre entries e rs Hs Hl; simpl in Hs.
  - injection Hs as <-. simpl in Hl. injection Hl as <- <-.
    simpl. by rewrite app_nil_r.
  - apply rbind_inv in Hs as ([k' v] & Hkv & Hs).
    apply rbind_inv in Hkv as (v' & Hv & Hkv). injection Hkv as <- <-.
    apply rbind_inv in Hs as (entries' & Hent & Hs). injection Hs as <-.
    simpl in Hl.
    apply rbind_inv in Hl as (e1 & He1 & Hl).
    apply rbind_inv in Hl as ([e2 rs2] & He2 & Hl). injection Hl as <- <-.
    simpl. rewrite Hv.
    rewrite (bind_ok _ _ _ (k, length h + length pre + length e1 - 1)
               (h ++ pre ++ e1)).
    2:{ rewrite (bind_ok _ _ _ v' (h ++ pre)) by done.
        by rewrite (bind_ok _ _ _ _ _ (IH _ _ _ He1)). }
    replace (length h + length pre + length e1)
      with (length h + length (pre ++ e1)) in He2 by (rewrite length_app; lia).
    specialize (IHk _ _ _ _ Hent He2). rewrite <- app_assoc in IHk.
    rewrite (bind_ok _ _ _ _ _ IHk). unfold mret, M_ret.
    by rewrite <- ?app_assoc.
Qed.

Lemma apply_dict_layout value o pre e d :
  h !! value = Some o ->
  layout_dict (layout fuel h emit) o (length h + length pre) = Ok (e, d) ->
  apply_dict (apply fuel f) value o (h ++ pre) = (Ok d, h ++ pre ++ e).
Proof using IH.
  intros Hv H.
  assert (Hv' : forall e, (h ++ pre ++ e) !! value = Some o).
  { intros e'. by apply lookup_app_l_Some. }
  destruct o; simpl in H |- *;
    try (injection H as <- <-; by rewrite ?apply_value_id, app_nil_r).
  - apply rbind_inv in H as (e1 & He1 & H). injection H as <- <-.
    rewrite (bind_ok _ _ _ _ _ (IH _ _ _ He1)). done.
  - apply rbind_inv in H as ([e1 rs] & He1 & H). injection H as <- <-.
    rewrite (bind_ok _ _ _ _ _ (mapM_apply_layout _ _ _ _ He1)).
    by apply read_state_same with (o := ListIteratorVariable b items index).
  - apply rbind_inv in H as (e1 & He1 & H). injection H as <- <-.
    rewrite (bind_ok _ _ _ _ _ (IH _ _ _ He1)).
    by apply read_state_same with (o := GetAttrVariable b obj name).
  - apply rbind_inv in H as ([e1 rs] & He1 & H). injection H as <- <-.
    rewrite (bind_ok _ _ _ _ _ (mapM_apply_layout _ _ _ _ He1)).
    by apply read_state_same with (o := BaseList c b items).
  - apply rbind_inv in H as (entries & Hent & H).
    apply rbind_inv in H as ([e1 rs] & He1 & H). injection H as <- <-.
    rewrite (bind_ok _ _ _ _ _ (apply_items_layout _ _ _ _ _ Hent He1)).
    by apply read_state_same with (o := ConstDictVariable b items).
  - apply rbind_inv in H as (e1 & He1 & H). injection H as <- <-.
    rewrite (bind_ok _ _ _ _ _ (IH _ _ _ He1)).
    by apply read_state_same with (o := UserMethodVariable b fn obj).
Qed.
End apply_layout.

(** The traversal, run in a store that extends [h], appends what [layout]
    computes from [h] and returns the last instance appended. *)
Lemma apply_layout fn emit h fuel pre value ext :
  visitor_emits fn emit ->
  layout fuel h emit value (length h + length pre) = Ok ext ->
  apply fuel fn value (h ++ pre) =
    (Ok (length h + length pre + length ext - 1), h ++ pre ++ ext).
Proof.
  intros Hfn.
  revert pre value ext. induction fuel as [|fuel IH]; intros pre value ext H; [done|].
  simpl in H. destruct (h !! value) as [o|] eqn:Hv; [|done].
  apply rbind_inv in H as ([e d] & Hd & H). injection H as <-.
  cbn [apply].
  rewrite (bind_ok _ _ _ _ _ (deref_ok _ _ _ (lookup_extend _ _ _ _ Hv))).
  rewrite (bind_ok _ _ _ _ _ (apply_dict_layout fn emit h fuel IH _ _ _ _ _ Hv Hd)).
  rewrite (clone_then fn emit _ value o d Hfn).
  - rewrite !length_app. simpl. rewrite <- !app_assoc.
    do 2 f_equal. lia.
  - by apply lookup_app_l_Some.
Qed.

Lemma py_sorted_perm keys keys' : py_sorted keys = Ok keys' -> keys' ≡ₚ keys.
Proof.
  unfold py_sorted. case_decide; [by intros [= <-]|].
  destruct (_ || _); [|done]. intros [= <-]. apply merge_sort_Permutation.
Qed.

Lemma py_eq_dict_key k : py_eq (dict_key_value k) (dict_key_value k) = true.
Proof. destruct k; simpl; by rewrite ?bool_decide_eq_true. Qed.

Lemma dict_get_elem {A} (items : list (dict_key * A)) k :
  k ∈ items.*1 -> exists v, dict_get items k = Ok v /\ v ∈ items.*2.
Proof.
  intros Hk. unfold dict_get.
  destruct (find _ items) as [e|] eqn:Hf.
  - apply find_some in Hf as [Hin _]. exists e.2. split; [done|].
    apply list_elem_of_fmap. exists e. split; [done|]. by apply list_elem_of_In.
  - apply list_elem_of_fmap in Hk as (e & -> & He).
    apply list_elem_of_In in He.
    pose proof (find_none _ _ Hf e He) as Hn. simpl in Hn.
    by rewrite py_eq_dict_key in Hn.
Qed.

Lemma sorted_entries_total {A} (items : list (dict_key * A)) keys :
  py_sorted items.*1 = Ok keys ->
  exists entries, sorted_entries items = Ok entries /\
    entries.*1 = keys /\ forall v, v ∈ entries.*2 -> v ∈ items.*2.
Proof.
  intros Hkeys. unfold sorted_entries. rewrite Hkeys. simpl.
  assert (Hsub : forall k, k ∈ keys -> k ∈ items.*1).
  { intros k Hk. by rewrite <- (py_sorted_perm _ _ Hkeys). }
  clear Hkeys. induction keys as [|k keys IH]; simpl.
  - exists []. split; [done|]. split; [done|]. intros v Hv. by apply elem_of_nil in Hv.
  - destruct (dict_get_elem items k) as (v & Hv & Hin); [apply Hsub; left|].
    destruct IH as (entries & -> & <- & Hent); [intros k' Hk'; apply Hsub; by right|].
    rewrite Hv. simpl. exists ((k, v) :: entries). split; [done|]. split; [done|].
    intros v' Hv'. simpl in Hv'. apply elem_of_cons in Hv' as [->|Hv']; auto.
Qed.

Lemma layout_list_total lay ls :
  (forall l n, l ∈ ls -> exists e, lay l n = Ok e) ->
  forall n, exists r, layout_list lay ls n = Ok r.
Proof.
  induction ls as [|l ls IH]; intros Hlay n; simpl; [by eexists|].
  destruct (Hlay l n) as [e He]; [left|]. rewrite He. simpl.
  destruct (IH (fun l' n' Hl' => Hlay l' n' (list_elem_of_further _ _ _ Hl'))
              (n + length e)) as [r Hr].
  rewrite Hr. simpl. by eexists.
Qed.

(** In a store whose instances refer to older instances only and whose
    dicts can be sorted, a recursion limit above the location of the value
    is enough for the traversal. *)
Lemma layout_total emit h fuel value n :
  acyclic h -> sortable h -> value < fuel -> value < length h ->
  exists ext, layout fuel h emit value n = Ok ext.
Proof.
  intros Hacyc Hsort. revert value n.
  induction fuel as [|fuel IH]; intros value n Hfuel Hlen; [lia|].
  simpl. destruct (lookup_lt_is_Some_2 h value Hlen) as [o Ho]. rewrite Ho.
  assert (Hrefs : forall r m, r ∈ refs o -> exists e, layout fuel h emit r m = Ok e).
  { intros r m Hr. pose proof (Hacyc _ _ _ Ho Hr). apply IH; lia. }
  assert (Hlist : forall ls m, (forall r, r ∈ ls -> r ∈ refs o) ->
            exists r, layout_list (layout fuel h emit) ls m = Ok r).
  { intros ls m Hls. apply layout_list_total. intros l k Hl. apply Hrefs. auto. }
  destruct o; simpl in *; try (by eexists).
  - destruct (Hrefs value0 n) as [e ->]; [by left|]. by eexists.
  - destruct (Hlist items n) as [r ->]; [done|]. by eexists.
  - destruct (Hrefs obj n) as [e ->]; [by left|]. by eexists.
  - destruct (Hlist items n) as [r ->]; [done|]. by eexists.
  - destruct (Hsort _ _ _ Ho) as [keys Hkeys].
    destruct (sorted_entries_total _ _ Hkeys) as (entries & -> & _ & Hent).
    simpl. destruct (Hlist entries.*2 n) as [r ->]; [done|]. by eexists.
  - destruct (Hrefs obj n) as [e ->]; [by left|]. by eexists.
Qed.

(** Stores built by constructor calls are acyclic, and stay so when an
    iterator advances. *)
Lemma acyclic_nil : acyclic [].
Proof. intros l o r H. by rewrite lookup_nil in H. Qed.

Lemma acyclic_alloc h o :
  acyclic h -> (forall r, r ∈ refs o -> r < length h) -> acyclic (h ++ [o]).
Proof.
  intros Hh Ho l o' r Hl Hr. apply lookup_app_Some in Hl as [Hl|[Hlen Hl]].
  - eauto.
  - apply list_lookup_singleton_Some in Hl as [Hl <-].
    specialize (Ho r Hr). lia.
Qed.

Lemma acyclic_insert h l o o' :
  acyclic h -> h !! l = Some o -> refs o' = refs o -> acyclic (<[l := o']> h).
Proof.
  intros Hh Hl Hrefs k x r Hk Hr.
  destruct (decide (k = l)) as [->|Hne].
  - rewrite list_lookup_insert_eq in Hk by by apply lookup_lt_Some in Hl.
    injection Hk as <-. rewrite Hrefs in Hr. eauto.
  - rewrite list_lookup_insert_ne in Hk by done. eauto.
Qed.

(** ** The order of the keys *)

Lemma key_le_total : Total key_le.
Proof.
  intros a b. unfold key_le.
  destruct a, b; simpl; try lia; try tauto.
  destruct (String.leb_total s s0); auto.
Qed.

Lemma py_sorted_Sorted keys keys' : py_sorted keys = Ok keys' -> Sorted key_le keys'.
Proof.
  unfold py_sorted. case_decide as Hlen.
  - intros [= <-]. destruct keys as [|k [|k' keys]]; simpl in Hlen; [| |lia].
    + constructor.
    + by repeat constructor.
  - destruct (_ || _); [|done]. intros [= <-].
    apply (Sorted_merge_sort key_le (Total0 := key_le_total)).
Qed.

(** ** The instances the traversal constructs are new *)


Lemma refs_within_nil n : refs_within n [].
Proof. intros i o r H. by rewrite lookup_nil in H. Qed.

Lemma refs_within_app n e1 e2 :
  refs_within n e1 -> refs_within (n + length e1) e2 -> refs_within n (e1 ++ e2).
Proof.
  intros H1 H2 i o r Hi Hr. apply lookup_app_Some in Hi as [Hi|[Hlen Hi]].
  - eauto.
  - specialize (H2 _ _ _ Hi Hr). lia.
Qed.

Lemma layout_list_fresh lay ls n e rs :
  (forall l m x, lay l m = Ok x -> x <> [] /\ refs_within m x) ->
  layout_list lay ls n = Ok (e, rs) ->
  refs_within n e /\ length rs = length ls /\
  forall r, r ∈ rs -> n <= r < n + length e.
Proof.
  intros Hlay. revert n e rs. induction ls as [|l ls IH]; intros n e rs H; simpl in H.
  - injection H as <- <-. split; [apply refs_within_nil|]. split; [done|].
    intros r Hr. by apply elem_of_nil in Hr.
  - apply rbind_inv in H as (e1 & He1 & H).
    apply rbind_inv in H as ([e2 rs2] & He2 & H). injection H as <- <-.
    destruct (Hlay _ _ _ He1) as [Hne Hw1].
    destruct (IH _ _ _ He2) as (Hw2 & Hlen & Hrs).
    assert (0 < length e1) by (destruct e1; simpl; [done|lia]).
    split; [by apply refs_within_app|]. split; [simpl; by f_equal|].
    intros r Hr. rewrite length_app. simpl in Hr.
    apply elem_of_cons in Hr as [->|Hr]; [lia|].
    specialize (Hrs r Hr). lia.
Qed.

Lemma layout_dict_fresh lay o n e d :
  (forall l m x, lay l m = Ok x -> x <> [] /\ refs_within m x) ->
  layout_dict lay o n = Ok (e, d) ->
  refs_within n e /\ (forall r, r ∈ refs d -> n <= r < n + length e) /\
  class_name d = class_name o /\ base_of d = base_of o.
Proof.
  intros Hlay H.
  assert (Hone : forall l x,
    lay l n = Ok x ->
    refs_within n x /\ forall r, r ∈ [n + length x - 1] -> n <= r < n + length x).
  { intros l x Hx. destruct (Hlay _ _ _ Hx) as [Hne Hw]. split; [done|].
    intros r ->%list_elem_of_singleton.
    assert (0 < length x) by (destruct x; simpl; [done|lia]). lia. }
  destruct o; simpl in H;
    try (injection H as <- <-; split; [apply refs_within_nil|];
         split; [|done]; intros r Hr; by apply elem_of_nil in Hr).
  - apply rbind_inv in H as (e1 & He1 & H). injection H as <- <-.
    destruct (Hone _ _ He1). done.
  - apply rbind_inv in H as ([e1 rs] & He1 & H). injection H as <- <-.
    destruct (layout_list_fresh _ _ _ _ _ Hlay He1) as (? & ? & ?). done.
  - apply rbind_inv in H as (e1 & He1 & H). injection H as <- <-.
    destruct (Hone _ _ He1). done.
  - apply rbind_inv in H as ([e1 rs] & He1 & H). injection H as <- <-.
    destruct (layout_list_fresh _ _ _ _ _ Hlay He1) as (? & ? & ?). done.
  - apply rbind_inv in H as (entries & Hent & H).
    apply rbind_inv in H as ([e1 rs] & He1 & H). injection H as <- <-.
    destruct (layout_list_fresh _ _ _ _ _ Hlay He1) as (? & Hlen & Hrs).
    split; [done|]. split; [|done]. simpl. intros r Hr. apply Hrs.
    rewrite snd_zip in Hr; [done|]. rewrite Hlen, !length_fmap. lia.
  - apply rbind_inv in H as (e1 & He1 & H). injection H as <- <-.
    destruct (Hone _ _ He1). done.
Qed.

Lemma refs_within_block n e l :
  refs_within n e ->
  (forall o r, o ∈ l -> r ∈ refs o -> n <= r < n + length e) ->
  refs_within n (e ++ l).
Proof.
  intros He Hl i o r Hi Hr. apply lookup_app_Some in Hi as [Hi|[Hlen Hi]].
  - eauto.
  - apply list_elem_of_lookup_2 in Hi. specialize (Hl o r Hi Hr). lia.
Qed.

(** What the traversal constructs is not empty, and with a visitor whose
    instances refer to what the clone refers to, every new instance
    refers to new instances only, made before it. *)
Lemma layout_fresh emit h fuel value n ext :
  (forall d, emit d <> []) ->
  (forall d x r, x ∈ emit d -> r ∈ refs x -> r ∈ refs d) ->
  layout fuel h emit value n = Ok ext ->
  ext <> [] /\ refs_within n ext.
Proof.
  intros Hne Hrefs. revert value n ext.
  induction fuel as [|fuel IH]; intros value n ext H; [done|].
  simpl in H. destruct (h !! value) as [o|]; [|done].
  apply rbind_inv in H as ([e d] & Hd & H). injection H as <-.
  destruct (layout_dict_fresh _ _ _ _ _ IH Hd) as (Hw & Hr & _).
  split.
  - simpl. specialize (Hne d). destruct e, (emit d); done.
  - simpl. apply refs_within_block; [done|].
    intros x r Hx Hrx. apply Hr. by eapply Hrefs.
Qed.

Lemma sorted_entries_keys {A} (items : list (dict_key * A)) entries :
  sorted_entries items = Ok entries -> py_sorted items.*1 = Ok entries.*1.
Proof.
  unfold sorted_entries. intros H. apply rbind_inv in H as (keys & -> & H).
  f_equal. revert entries H. induction keys as [|k keys IH]; intros entries H; simpl in H.
  - by injection H as <-.
  - apply rbind_inv in H as ([k' v] & Hkv & H).
    apply rbind_inv in Hkv as (v' & _ & Hkv). injection Hkv as <- <-.
    apply rbind_inv in H as (entries' & Hent & H). injection H as <-.
    simpl. f_equal. by apply IH.
Qed.

(** The clone of a dict holds its entries in the sorted order of the
    keys. *)
Lemma layout_dict_sorted emit h fuel value n ext b items :
  h !! value = Some (ConstDictVariable b items) ->
  layout fuel h emit value n = Ok ext ->
  exists e keys rs,
    ext = e ++ emit (ConstDictVariable b (zip keys rs)) /\
    length rs = length keys /\
    py_sorted items.*1 = Ok keys /\ Sorted key_le keys /\ keys ≡ₚ items.*1.
Proof.
  intros Hv H. destruct fuel as [|fuel]; [done|]. simpl in H. rewrite Hv in H.
  apply rbind_inv in H as ([e d] & Hd & H). injection H as <-. simpl in Hd.
  apply rbind_inv in Hd as (entries & Hent & Hd).
  apply rbind_inv in Hd as ([e1 rs] & He1 & Hd). injection Hd as <- <-.
  apply sorted_entries_keys in Hent.
  exists e1, entries.*1, rs. split; [done|]. split.
  - clear Hent. revert n e1 rs He1.
    induction entries as [|x entries IH]; intros n e1 rs He1; simpl in He1.
    + by injection He1 as <- <-.
    + apply rbind_inv in He1 as (e2 & _ & He1).
      apply rbind_inv in He1 as ([e3 rs3] & He3 & He1). injection He1 as <- <-.
      simpl. f_equal. by eapply IH.
  - split; [done|]. split; [by eapply py_sorted_Sorted|by apply py_sorted_perm].
Qed.

(** ** Copying *)

Lemma bind_ext {A B} (m : M A) (k1 k2 : A -> M B) h :
  (forall a h', k1 a h' = k2 a h') -> (m ≫= k1) h = (m ≫= k2) h.
Proof.
  intros Hk. unfold mbind, M_bind. destruct (m h) as [[a|e] h1]; [apply Hk|done].
Qed.

Lemma mapM_ext {A B} (f1 f2 : A -> M B) l h :
  (forall x h', f1 x h' = f2 x h') -> mapM f1 l h = mapM f2 l h.
Proof.
  intros Hf. revert h. induction l as [|x l IH]; intros h; [done|]. simpl.
  unfold mbind at 1 3, M_bind. rewrite Hf.
  destruct (f2 x h) as [[y|e] h1]; [|done].
  unfold mbind, M_bind. rewrite IH. done.
Qed.

Lemma apply_dict_ext rec1 rec2 value o h :
  (forall l h', rec1 l h' = rec2 l h') ->
  apply_dict rec1 value o h = apply_dict rec2 value o h.
Proof.
  intros Hrec. destruct o; simpl; try done.
  - unfold mbind, M_bind. by rewrite Hrec.
  - unfold mbind, M_bind. by rewrite (mapM_ext _ _ _ _ Hrec).
  - unfold mbind, M_bind. by rewrite Hrec.
  - unfold mbind, M_bind. by rewrite (mapM_ext _ _ _ _ Hrec).
  - assert (apply_items rec1 items h = apply_items rec2 items h) as Hit.
    { unfold apply_items. apply bind_ext. intros keys h1.
      apply mapM_ext. intros k h2. apply bind_ext. intros v h3.
      unfold mbind, M_bind. by rewrite Hrec. }
    unfold mbind, M_bind. by rewrite Hit.
  - unfold mbind, M_bind. by rewrite Hrec.
Qed.

(** [copy] is the traversal with a visitor that assigns nothing. *)
Lemma copy_visit_id fuel value h : copy fuel value h = apply fuel (visit id) value h.
Proof.
  unfold copy. revert value h. induction fuel as [|fuel IH]; intros value h; [done|].
  cbn [apply]. apply bind_ext. intros o h1.
  unfold mbind at 1 3, M_bind. rewrite (apply_dict_ext _ _ _ _ _ IH).
  destruct (apply_dict _ value o h1) as [[d|e] h2]; [|done].
  unfold clone, mbind, M_bind, deref.
  destruct (h2 !! value) as [o'|]; [|done]. simpl.
  unfold visit, identity, update, mbind, M_bind, mret, M_ret.
  rewrite list_lookup_middle by done. f_equal.
  by rewrite insert_app_r_alt, Nat.sub_diag by lia.
Qed.

(** C6: the traversal changes no instance of the store it starts in when
    the visitor changes at most the clone it is given; for every visitor
    that makes of a clone the instances [emit] lists, one that assigns to
    the clone, one that returns a new instance, [identity] and
    [add_guards] among them, it appends to the store exactly the instances
    [layout] lists, children before parents and dict entries in the sorted
    order of their keys, each clone holding what the visitor returned for
    its fields, and returns what the visitor returned last, and so does
    [copy]; in a store whose instances refer to older ones and whose dicts
    can be sorted, a recursion limit above the value's location is enough
    for it to return; the clone of a value comes after all that was built
    for its fields, has the value's class and base fields and refers only
    to instances the traversal built; a dict's clone holds the entries
    sorted by key. *)
Theorem apply_pure_traversal :
  (forall (fuel : nat) (fn : loc -> M loc) (value : loc),
     (forall l, keeps l (fn l)) -> preserves (apply fuel fn value)) /\
  (forall (fn : loc -> M loc) (emit : object loc -> list (object loc))
          (h : store) (fuel : nat) (value : loc) (ext : list (object loc)),
     visitor_emits fn emit ->
     layout fuel h emit value (length h) = Ok ext ->
     apply fuel fn value h = (Ok (length h + length ext - 1), h ++ ext)) /\
  (forall (g : object loc -> object loc) (gs : gset Guard),
     visitor_emits (visit g) (fun d => [g d]) /\
     visitor_emits (rebuild g) (fun d => [d; g d]) /\
     visitor_emits identity (fun d => [d]) /\
     visitor_emits (fun l => add_guards l gs)
       (fun d => [d; with_base (set_guards (guards (base_of d) ∪ gs)) d])) /\
  (forall (h : store) (fuel : nat) (value : loc) (ext : list (object loc)),
     layout fuel h (fun d => [d]) value (length h) = Ok ext ->
     copy fuel value h = (Ok (length h + length ext - 1), h ++ ext)) /\
  (forall (emit : object loc -> list (object loc)) (h : store) (value : loc)
          (n : nat),
     acyclic h -> sortable h -> value < length h ->
     exists ext, layout (S value) h emit value n = Ok ext) /\
  (forall (emit : object loc -> list (object loc)) (h : store) (fuel : nat)
          (value : loc) (n : nat) (ext : list (object loc)) (o : object loc),
     (forall d, emit d <> []) ->
     (forall d x r, x ∈ emit d -> r ∈ refs x -> r ∈ refs d) ->
     h !! value = Some o ->
     layout fuel h emit value n = Ok ext ->
     refs_within n ext /\
     exists e d,
       ext = e ++ emit d /\ class_name d = class_name o /\ base_of d = base_of o /\
       forall r, r ∈ refs d -> n <= r < n + length e) /\
  (forall (emit : object loc -> list (object loc)) (h : store) (fuel : nat)
          (value : loc) (n : nat) (ext : list (object loc)) (b : base)
          (items : list (dict_key * loc)),
     h !! value = Some (ConstDictVariable b items) ->
     layout fuel h emit value n = Ok ext ->
     exists e keys rs,
       ext = e ++ emit (ConstDictVariable b (zip keys rs)) /\
       length rs = length keys /\
       py_sorted items.*1 = Ok keys /\ Sorted key_le keys /\ keys ≡ₚ items.*1).
Proof.
  assert (Hbuild : forall fn emit (h : store) fuel value ext,
            visitor_emits fn emit ->
            layout fuel h emit value (length h) = Ok ext ->
            apply fuel fn value h =
              (Ok (length h + length ext - 1), h ++ ext)).
  { intros fn emit h fuel value ext Hfn H.
    pose proof (apply_layout fn emit h fuel [] value ext Hfn) as Hal.
    simpl in Hal. rewrite Nat.add_0_r, app_nil_r in Hal. by apply Hal. }
  split; [apply preserves_apply|].
  split; [exact Hbuild|].
  split.
  { intros g gs. split; [apply visitor_emits_visit|].
    split; [apply visitor_emits_rebuild|].
    split; [apply visitor_emits_identity|apply visitor_emits_add_guards]. }
  split.
  { intros h fuel value ext H. unfold copy.
    by apply (Hbuild _ _ _ _ _ _ visitor_emits_identity). }
  split.
  { intros emit h value n Hacyc Hsort Hlen. apply layout_total; [done|done|lia|done]. }
  split.
  { intros emit h fuel value n ext o Hne Hrefs Hv H.
    split; [by apply (layout_fresh emit h fuel value n ext Hne Hrefs)|].
    destruct fuel as [|fuel]; [done|]. simpl in H. rewrite Hv in H.
    apply rbind_inv in H as ([e d] & Hd & H). injection H as <-.
    destruct (layout_dict_fresh _ _ _ _ _
                (fun l m x => layout_fresh emit h fuel l m x Hne Hrefs) Hd)
      as (_ & Hr & Hc & Hb).
    by exists e, d. }
  intros emit h fuel value n ext b items. apply layout_dict_sorted.
Qed.

(** C6 at the attribute of a list that holds a dict and a constant the
    dict holds too, with the visitor that adds a guard: every value is
    cloned and the visitor's result, not the clone, is what the parent's
    clone holds and what is returned; the dict's entries are sorted, the
    shared constant is traversed twice, its list rebuilt equal, and the
    input store is kept. *)
Lemma apply_pure_traversal_witness :
  let g := mkGuard "x" LOCAL None in
  let b := mkBase YES ∅ None None in
  let bg := mkBase YES {[g]} None None in
  let z := mkBase NO ∅ (Some "z") None in
  let zg := mkBase NO {[g]} (Some "z") None in
  let l := PList [PInt 10; PList [PStr "a"]] in
  let h : store :=
    [ConstantVariable b l;
     ConstantVariable b (PInt 20);
     ConstDictVariable b [(DInt 2, 0); (DInt 1, 1)];
     BaseList ListVariable b [2; 0];
     GetAttrVariable z 3 "attr"] in
  apply 5 (fun v => add_guards v {[g]}) 4 h =
    (Ok 16,
     h ++ [ConstantVariable b (PInt 20); ConstantVariable bg (PInt 20);
           ConstantVariable b l; ConstantVariable bg l;
           ConstDictVariable b [(DInt 1, 6); (DInt 2, 8)];
           ConstDictVariable bg [(DInt 1, 6); (DInt 2, 8)];
           ConstantVariable b l; ConstantVariable bg l;
           BaseList ListVariable b [10; 12]; BaseList ListVariable bg [10; 12];
           GetAttrVariable z 14 "attr"; GetAttrVariable zg 14 "attr"]).
Proof.
  intros g b bg z zg l h.
  destruct apply_pure_traversal as (_ & Hbuild & Hvis & _).
  destruct (Hvis id {[g]}) as (_ & _ & _ & Hadd).
  apply (Hbuild _ _ h 5 4
           [ConstantVariable b (PInt 20); ConstantVariable bg (PInt 20);
            ConstantVariable b l; ConstantVariable bg l;
            ConstDictVariable b [(DInt 1, 6); (DInt 2, 8)];
            ConstDictVariable bg [(DInt 1, 6); (DInt 2, 8)];
            ConstantVariable b l; ConstantVariable bg l;
            BaseList ListVariable b [10; 12]; BaseList ListVariable bg [10; 12];
            GetAttrVariable z 14 "attr"; GetAttrVariable zg 14 "attr"] Hadd).
  vm_compute. reflexivity.
Defined.

(** ** Guards under composition *)

(** Indexing a list value by a constant that is an integer, a boolean
    among them, and in range returns: two clones of the selected item are
    made, the second one is the result. *)
Lemma getitem_const_int_returns fuel h self arg c b items ao key i item io :
  h !! self = Some (BaseList c b items) ->
  h !! arg = Some ao ->
  as_python_constant fuel arg h = (Ok key, h) ->
  as_int key = Some i ->
  py_index items i = Ok item ->
  h !! item = Some io ->
  let o1 := with_base (set_guards (guards (base_of io) ∪ guards b)) io in
  let o2 := with_base (set_guards (guards (base_of o1) ∪ guards (base_of ao))) o1 in
  getitem_const fuel self arg h = (Ok (S (length h)), h ++ [o1; o2]).
Proof.
  intros Hs Ha Hk Hint Hi Hio o1 o2. unfold getitem_const.
  rewrite (bind_ok _ _ _ _ _ (deref_ok _ _ _ Hs)).
  unfold BaseListVariable_getitem_const.
  rewrite (bind_ok _ _ _ _ _ Hk).
  assert (Hrun : (item ← lift (py_index items i);
                  s ← deref self;
                  r ← add_guards item (guards (base_of s));
                  a ← deref arg;
                  add_guards r (guards (base_of a))) h =
                 (Ok (S (length h)), h ++ [o1; o2])).
  { rewrite Hi. rewrite (bind_ok _ _ _ item h); [|done].
    rewrite (bind_ok _ _ _ _ _ (deref_ok _ _ _ Hs)).
    rewrite (bind_ok _ _ _ _ _ (add_guards_run _ _ _ _ Hio)).
    rewrite (bind_ok _ _ _ _ _ (deref_ok _ _ _ (lookup_extend _ _ _ _ Ha))).
    assert (Hn : (h ++ [o1]) !! length h = Some o1) by by apply list_lookup_middle.
    rewrite (add_guards_run _ _ _ _ Hn).
    rewrite length_app, <- app_assoc. simpl. by rewrite Nat.add_1_r. }
  destruct key; try done; simpl in Hint; injection Hint as <-; exact Hrun.
Qed.

(** Slicing a list value by a constant slice returns, unless the slice of
    the items raises: a clone with the selected items is made and then a
    clone of it that holds the guards of the key too. *)
Lemma getitem_const_slice_returns fuel h self arg c b items ao x y z :
  h !! self = Some (BaseList c b items) ->
  h !! arg = Some ao ->
  as_python_constant fuel arg h = (Ok (PSlice x y z), h) ->
  getitem_const fuel self arg h =
    match py_slice items x y z with
    | Ok part =>
        (Ok (S (length h)),
         h ++ [BaseList c b part;
               BaseList c (set_guards (guards b ∪ guards (base_of ao)) b) part])
    | Raise e => (Raise e, h)
    end.
Proof.
  intros Hs Ha Hk. unfold getitem_const.
  rewrite (bind_ok _ _ _ _ _ (deref_ok _ _ _ Hs)).
  unfold BaseListVariable_getitem_const. rewrite (bind_ok _ _ _ _ _ Hk).
  destruct (py_slice items x y z) as [part|e]; [|done].
  rewrite (bind_ok _ _ _ part h) by done.
  rewrite (bind_ok _ _ _ (length h) (h ++ [BaseList c b part])).
  2:{ unfold clone. by rewrite (bind_ok _ _ _ _ _ (deref_ok _ _ _ Hs)). }
  rewrite (bind_ok _ _ _ _ _ (deref_ok _ _ _ (lookup_extend _ _ _ _ Ha))).
  rewrite (add_guards_run _ (length h) (BaseList c b part)).
  - rewrite length_app, Nat.add_1_r, <- app_assoc. done.
  - by apply list_lookup_middle.
Qed.

Lemma getitem_const_extends fuel self arg h r h' :
  getitem_const fuel self arg h = (Ok r, h') -> h `prefix_of` h'.
Proof.
  intros H. pose proof (preserves_prefix _ h (preserves_getitem_const fuel self arg)) as Hp.
  by rewrite H in Hp.
Qed.

(** Every value a call with several arguments returns holds the guards of
    the wrapped value and of its argument. *)
Lemma mapM_getitem_const_guards fuel (h0 : store) value vo args :
  h0 !! value = Some vo ->
  forall h rs h',
    h0 `prefix_of` h ->
    mapM (getitem_const fuel value) args h = (Ok rs, h') ->
    h `prefix_of` h' /\
    Forall2 (fun a r => forall ao, h0 !! a = Some ao ->
               exists ro, h' !! r = Some ro /\
                 guards (base_of vo) ∪ guards (base_of ao) ⊆ guards (base_of ro))
            args rs.
Proof.
  intros Hv. induction args as [|a args IH]; intros h rs h' Hp H; simpl in H.
  - injection H as <- <-. split; [done|constructor].
  - apply bind_inv in H as (r & h1 & Hr & H).
    apply bind_inv in H as (rs' & h2 & Hrs & H). injection H as <- <-.
    pose proof (getitem_const_extends _ _ _ _ _ _ Hr) as Hp1.
    destruct (IH h1 rs' h2) as [Hp2 Hall]; [by etrans|done|].
    split; [by etrans|]. constructor; [|done].
    intros ao Ha.
    destruct (getitem_const_guards fuel h value a vo ao r h1) as (ro & Hro & Hg);
      [by eapply prefix_lookup_Some..|done|].
    exists ro. split; [by eapply prefix_lookup_Some|done].
Qed.

(** The wrapper [const_attr] returns wraps a constant that holds the
    guards the wrapper holds, those of the tensor value. *)
Lemma const_attr_wrapper is_cuda h x o name w h' b v :
  h !! x = Some o ->
  const_attr is_cuda x name h = (Ok (Some w), h') ->
  h' !! w = Some (FunctionConstantWrapper b v) ->
  exists vb val, h' !! v = Some (ConstantVariable vb val) /\
    guards vb = guards (base_of o) /\ guards b = guards (base_of o).
Proof.
  intros Hx H Hw.
  unfold const_attr in H. rewrite (bind_ok _ _ _ _ _ (deref_ok _ _ _ Hx)) in H.
  destruct o; try done.
  rewrite (bind_ok _ _ _ _ _ (propagate_single _ _ _ Hx)) in H.
  cbn [base_of state guards] in H |- *.
  set (B := VariableTracker_init (mkOptions (Some (state b0)) (Some (guards b0)))) in H.
  assert (Hwrap : forall (wr : bool) val,
    (c0 ← alloc (ConstantVariable B val);
     if wr then Some <$> alloc (FunctionConstantWrapper B c0)
     else mret (Some c0)) h = (Ok (Some w), h') ->
    exists vb val, h' !! v = Some (ConstantVariable vb val) /\
      guards vb = guards b0 /\ guards b = guards b0).
  { intros wr val Hr. unfold mbind, M_bind, alloc in Hr.
    destruct wr; simpl in Hr.
    - unfold fmap, M_fmap in Hr. simpl in Hr. injection Hr as <- <-.
      rewrite list_lookup_middle in Hw by done. injection Hw as <- <-.
      exists B, val. split; [|done].
      apply lookup_app_l_Some. by apply list_lookup_middle.
    - injection Hr as <- <-.
      rewrite list_lookup_middle in Hw by done. discriminate Hw. }
  assert (Hone : forall (ro : object nat),
    is_FunctionConstantWrapper ro = false ->
    (Some <$> alloc ro) h = (Ok (Some w), h') ->
    exists vb val, h' !! v = Some (ConstantVariable vb val) /\
      guards vb = guards b0 /\ guards b = guards b0).
  { intros ro Hro Hr. unfold fmap, M_fmap, alloc in Hr. injection Hr as <- <-.
    rewrite list_lookup_middle in Hw by done. injection Hw as ->. done. }
  cbv beta zeta in H.
  repeat (destruct (_ && _) in H;
          [first [by apply Hwrap in H
                 |by apply (Hwrap true) in H
                 |by (apply Hone in H; [|reflexivity])]|]).
  discriminate H.
Qed.

(** C3 as stated fails: the value a wrapper returns when it is called
    does not hold the guards of the wrapper. *)
Lemma guards_monotone_counterexample :
  ~ (forall (fuel : nat) (h : store) (self arg : loc) (so ao ro : object loc)
            (r : loc) (h' : store),
       h !! self = Some so -> h !! arg = Some ao ->
       call_const fuel self [arg] [] h = (Ok (One r), h') ->
       h' !! r = Some ro ->
       guards (base_of so) ∪ guards (base_of ao) ⊆ guards (base_of ro)).
Proof.
  intros H.
  pose (g := mkGuard "x" LOCAL None).
  pose (b := mkBase YES ∅ None None).
  specialize (H 2
    [ConstantVariable b (PTuple [PInt 4; PInt 3]);
     FunctionConstantWrapper (mkBase YES {[g]} None None) 0;
     ConstantVariable b (PInt 0)]
    1 2 _ _ (ConstantVariable b (PInt 4)) 3 _ eq_refl eq_refl eq_refl eq_refl).
  specialize (H g). simpl in H. set_solver.
Qed.

(** C3, amended: the guards [propagate] returns on a non-empty list
    contain the guards of every operand; the instance [getitem_const]
    returns, on a list, tuple or slice value and on a constant, for an
    index and for a slice, holds the guards of the indexed value and of
    the key, and [getitem_const] does return when the key is a constant
    for which the indexing is defined; a wrapper that is called returns
    values that hold the guards of the value it wraps and of the
    argument, which are the guards of the wrapper when [const_attr] built
    it. *)
Theorem guards_monotone :
  (forall (h : store) (vars : list loc) (objs : list (object loc)),
     vars <> [] ->
     Forall2 (fun l o => h !! l = Some o) vars objs ->
     exists s g,
       propagate vars h = (Ok (mkOptions (Some s) (Some g)), h) /\
       forall o, o ∈ objs -> guards (base_of o) ⊆ g) /\
  (forall (fuel : nat) (h : store) (self arg : loc) (so ao : object loc)
          (r : loc) (h' : store),
     h !! self = Some so -> h !! arg = Some ao ->
     getitem_const fuel self arg h = (Ok r, h') ->
     exists ro, h' !! r = Some ro /\
       guards (base_of so) ∪ guards (base_of ao) ⊆ guards (base_of ro)) /\
  (forall (fuel : nat) (h : store) (self arg : loc) (b : base)
          (value key v : pyvalue) (ao : object loc),
     h !! self = Some (ConstantVariable b value) ->
     h !! arg = Some ao ->
     as_python_constant fuel arg h = (Ok key, h) ->
     py_getitem value key = Ok v ->
     getitem_const fuel self arg h =
       (Ok (length h),
        h ++ [ConstantVariable
                (mkBase (ts_max (state b) (state (base_of ao)))
                   (guards b ∪ guards (base_of ao)) None None) v])) /\
  (forall (fuel : nat) (h : store) (self arg : loc) (c : list_class)
          (b : base) (items : list loc) (ao : object loc) (key : pyvalue)
          (i : Z) (item : loc) (io : object loc),
     h !! self = Some (BaseList c b items) ->
     h !! arg = Some ao ->
     as_python_constant fuel arg h = (Ok key, h) ->
     as_int key = Some i ->
     py_index items i = Ok item ->
     h !! item = Some io ->
     let o1 := with_base (set_guards (guards (base_of io) ∪ guards b)) io in
     let o2 := with_base (set_guards (guards (base_of o1) ∪ guards (base_of ao))) o1 in
     getitem_const fuel self arg h = (Ok (S (length h)), h ++ [o1; o2])) /\
  (forall (fuel : nat) (h : store) (self arg : loc) (c : list_class)
          (b : base) (items part : list loc) (ao : object loc) (x y z : pyvalue),
     h !! self = Some (BaseList c b items) ->
     h !! arg = Some ao ->
     as_python_constant fuel arg h = (Ok (PSlice x y z), h) ->
     py_slice items x y z = Ok part ->
     getitem_const fuel self arg h =
       (Ok (S (length h)),
        h ++ [BaseList c b part;
              BaseList c (set_guards (guards b ∪ guards (base_of ao)) b) part])) /\
  (forall (fuel : nat) (h : store) (self : loc) (b : base) (value : loc)
          (vo : object loc) (args : list loc) (res : call_result) (h' : store),
     h !! self = Some (FunctionConstantWrapper b value) ->
     h !! value = Some vo ->
     args <> [] ->
     call_const fuel self args [] h = (Ok res, h') ->
     exists rs,
       res = match rs with [r] => One r | _ => Many rs end /\
       Forall2 (fun a r => forall ao, h !! a = Some ao ->
                  exists ro, h' !! r = Some ro /\
                    guards (base_of vo) ∪ guards (base_of ao) ⊆ guards (base_of ro))
               args rs) /\
  (forall (is_cuda : nat -> bool) (fuel : nat) (h h1 h2 : store) (x w arg r : loc)
          (o ao : object loc) (name : string) (b : base) (v : loc),
     h !! x = Some o ->
     const_attr is_cuda x name h = (Ok (Some w), h1) ->
     h1 !! w = Some (FunctionConstantWrapper b v) ->
     h1 !! arg = Some ao ->
     call_const fuel w [arg] [] h1 = (Ok (One r), h2) ->
     guards b = guards (base_of o) /\
     exists ro, h2 !! r = Some ro /\
       guards b ∪ guards (base_of ao) ⊆ guards (base_of ro)).
Proof.
  split; [|split; [|split; [|split; [|split; [|split]]]]].
  - intros h vars objs Hne Hall.
    destruct Hall as [|v o vars objs Hv Hall]; [done|].
    eexists _, _. split; [by apply propagate_nonempty|].
    intros x Hx g Hg. apply foldl_union_elem.
    apply elem_of_cons in Hx as [->|Hx]; [by left|].
    right. exists (guards (base_of x)). split; [|done].
    apply list_elem_of_fmap. eauto.
  - intros fuel h self arg so ao r h' Hs Ha H.
    by apply (getitem_const_guards fuel h self arg so ao r h').
  - intros fuel h self arg b value key v ao Hs Ha Hk Hv. unfold getitem_const.
    rewrite (bind_ok _ _ _ _ _ (deref_ok _ _ _ Hs)).
    rewrite (ConstantVariable_getitem_const_run fuel h self arg b value ao key Hs Ha Hk).
    by rewrite Hv.
  - intros fuel h self arg c b items ao key i item io Hs Ha Hk Hint Hi Hio.
    by apply (getitem_const_int_returns fuel h self arg c b items ao key i item io).
  - intros fuel h self arg c b items part ao x y z Hs Ha Hk Hp.
    rewrite (getitem_const_slice_returns fuel h self arg c b items ao x y z Hs Ha Hk).
    by rewrite Hp.
  - intros fuel h self b value vo args res h' Hs Hv Hne H.
    unfold call_const in H.
    rewrite (bind_ok _ _ _ _ _ (deref_ok _ _ _ Hs)) in H.
    rewrite decide_True in H by done.
    destruct args as [|a [|a' args]]; [done| |].
    + unfold fmap, M_fmap in H.
      destruct (getitem_const fuel value a h) as [[r|e] h1] eqn:Hg; [|done].
      injection H as <- <-. exists [r]. split; [done|].
      constructor; [|constructor]. intros ao Ha.
      by eapply getitem_const_guards.
    + unfold fmap, M_fmap in H.
      destruct (mapM (getitem_const fuel value) (a :: a' :: args) h)
        as [[rs|e] h1] eqn:Hm; [|done].
      injection H as <- <-.
      destruct (mapM_getitem_const_guards fuel h value vo _ Hv h rs h1
                  ltac:(done) Hm) as [_ Hall].
      exists rs. split; [|done].
      apply Forall2_length in Hall. by destruct rs as [|? [|? ?]].
  - intros is_cuda fuel h h1 h2 x w arg r o ao name b v Hx Hc Hw Ha H.
    destruct (const_attr_wrapper is_cuda h x o name w h1 b v Hx Hc Hw)
      as (vb & val & Hv & Hvb & Hb).
    split; [done|].
    destruct (call_const_guards fuel h1 w b v arg _ ao r h2 Hw Hv Ha H)
      as (ro & Hro & Hg).
    exists ro. split; [done|]. simpl in Hg. by rewrite Hb, <- Hvb.
Qed.

(** C3, amended, at the constant tuple [(5, 6)] guarded on ["c"] and at
    the list [[(5, 6), 6]] guarded on ["a"], both indexed by the constant
    [-2] guarded on ["b"]: the first index returns the constant [5] with
    the guards on ["c"] and ["b"], the second a value that holds the guards
    on ["a"] and ["b"]. *)
Lemma guards_monotone_witness :
  let ga := mkGuard "a" LOCAL (Some 1) in
  let gb := mkGuard "b" LOCAL (Some 2) in
  let gc := mkGuard "c" GLOBAL (Some 3) in
  let h : store :=
    [ConstantVariable (mkBase YES {[gc]} None None) (PTuple [PInt 5; PInt 6]);
     ConstantVariable (mkBase UNKNOWN {[gb]} (Some "b") None) (PInt (-2));
     ConstantVariable (mkBase YES ∅ None None) (PInt 6);
     BaseList ListVariable (mkBase UNKNOWN {[ga]} (Some "a") None) [0; 2]] in
  getitem_const 1 0 1 h =
    (Ok 4, h ++ [ConstantVariable (mkBase YES ({[gc]} ∪ {[gb]}) None None) (PInt 5)]) /\
  (let io := ConstantVariable (mkBase YES {[gc]} None None) (PTuple [PInt 5; PInt 6]) in
   let o1 := with_base (set_guards ({[gc]} ∪ {[ga]})) io in
   let o2 := with_base (set_guards (guards (base_of o1) ∪ {[gb]})) o1 in
   getitem_const 1 3 1 h = (Ok 5, h ++ [o1; o2])) /\
  exists r h' ro,
    getitem_const 2 3 1 h = (Ok r, h') /\ h' !! r = Some ro /\
    {[ga]} ∪ {[gb]} ⊆ guards (base_of ro).
Proof.
  intros ga gb gc h.
  destruct guards_monotone as (_ & Hget & Hconst & Hidx & _).
  split; [|split].
  - exact (Hconst 1 h 0 1 _ _ _ _ _ eq_refl eq_refl eq_refl eq_refl).
  - exact (Hidx 1 h 3 1 _ _ _ _ _ _ 0 _ eq_refl eq_refl eq_refl eq_refl eq_refl eq_refl).
  - destruct (Hget 2 h 3 1 _ _ 5 (getitem_const 2 3 1 h).2 eq_refl eq_refl eq_refl)
      as (ro & Hro & Hg).
    exists 5, (getitem_const 2 3 1 h).2, ro. done.
Defined.

(** * Further properties of the value model *)

(** ** The state combinator *)

(** X1: [TracingSupported.combine] never raises; it is commutative,
    associative and idempotent, and UNKNOWN is its unit. *)
Theorem combine_semilattice :
  (forall a b, exists s, TS.combine a b = Ok s /\
     TS.value s = Z.max (TS.value a) (TS.value b)) /\
  (forall a b, TS.combine a b = TS.combine b a) /\
  (forall a b c,
     (TS.combine a b ≫= fun x => TS.combine x c) =
     (TS.combine b c ≫= fun y => TS.combine a y)) /\
  (forall a, TS.combine a a = Ok a) /\
  (forall a, TS.combine UNKNOWN a = Ok a).
Proof.
  split; [|split; [|split; [|split]]].
  - intros a b. exists (ts_max a b). split; [apply combine_max|apply ts_max_value].
  - intros a b. by destruct a, b.
  - intros a b c. by destruct a, b, c.
  - intros a. by destruct a.
  - intros a. by destruct a.
Qed.

(** ** propagate on permuted and on joined lists *)

Lemma ts_max_comm a b : ts_max a b = ts_max b a.
Proof. by destruct a, b. Qed.

Lemma ts_max_assoc a b c : ts_max a (ts_max b c) = ts_max (ts_max a b) c.
Proof. by destruct a, b, c. Qed.

Lemma foldl_ts_max_acc acc l :
  foldl ts_max acc l = ts_max acc (foldl ts_max UNKNOWN l).
Proof.
  revert acc. induction l as [|x l IH]; intros acc.
  - by destruct acc.
  - cbn [foldl]. rewrite (IH (ts_max acc x)), (IH (ts_max UNKNOWN x)).
    by destruct acc, x, (foldl ts_max UNKNOWN l).
Qed.

Lemma foldl_union_acc (acc : gset Guard) l :
  foldl (∪) acc l = acc ∪ foldl (∪) ∅ l.
Proof.
  apply set_eq. intros g. rewrite elem_of_union, !foldl_union_elem. set_solver.
Qed.

(** X2: the options of a joined list are the options of its two parts
    combined: the larger state and the union of the guards. *)
Theorem propagate_app (h : store) (vs1 vs2 : list loc) (os1 os2 : list (object loc))
    (s1 s2 : TracingSupported) (g1 g2 : gset Guard) :
  Forall2 (fun l o => h !! l = Some o) vs1 os1 ->
  Forall2 (fun l o => h !! l = Some o) vs2 os2 ->
  propagate vs1 h = (Ok (mkOptions (Some s1) (Some g1)), h) ->
  propagate vs2 h = (Ok (mkOptions (Some s2) (Some g2)), h) ->
  propagate (vs1 ++ vs2) h = (Ok (mkOptions (Some (ts_max s1 s2)) (Some (g1 ∪ g2))), h).
Proof.
  intros H1 H2 P1 P2.
  destruct H1 as [|v1 o1 vs1 os1 Hv1 H1]; [done|].
  destruct H2 as [|v2 o2 vs2 os2 Hv2 H2]; [done|].
  rewrite (propagate_nonempty _ _ _ _ _ Hv1 H1) in P1.
  rewrite (propagate_nonempty _ _ _ _ _ Hv2 H2) in P2.
  injection P1 as <- <-. injection P2 as <- <-.
  simpl.
  rewrite (propagate_nonempty h v1 (vs1 ++ v2 :: vs2) o1 (os1 ++ o2 :: os2) Hv1);
    [|apply Forall2_app; [done|by constructor]].
  rewrite !fmap_app, !foldl_app, !fmap_cons. simpl. do 3 f_equal.
  - rewrite (foldl_ts_max_acc (ts_max _ _)), (foldl_ts_max_acc (state (base_of o2))).
    by rewrite ts_max_assoc.
  - rewrite (foldl_union_acc (_ ∪ _)), (foldl_union_acc (guards (base_of o2))).
    f_equal. set_solver.
Qed.

Lemma propagate_app_witness :
  let h : store := [Plain UnknownVariable (mkBase YES {[mkGuard "a" LOCAL None]} None None);
                    Plain UnknownVariable (mkBase NO {[mkGuard "b" GLOBAL None]} None None)] in
  propagate ([0] ++ [1]) h =
    (Ok (mkOptions (Some (ts_max YES NO))
           (Some ({[mkGuard "a" LOCAL None]} ∪ {[mkGuard "b" GLOBAL None]}))), h).
Proof.
  intros h.
  eapply (propagate_app h [0] [1]).
  - constructor; [reflexivity|constructor].
  - constructor; [reflexivity|constructor].
  - reflexivity.
  - reflexivity.
Defined.

(** X3: the options do not depend on the order of the operands. *)
Theorem propagate_permutation (h : store) (vars vars' : list loc) :
  Forall (fun l => l < length h) vars ->
  vars ≡ₚ vars' ->
  propagate vars h = propagate vars' h.
Proof.
  intros Hvalid Hperm.
  assert (Hobjs : forall vs, Forall (fun l => l < length h) vs ->
            exists os, Forall2 (fun l o => h !! l = Some o) vs os).
  { induction 1 as [|l vs Hl _ [os IH]]; [by exists []|].
    destruct (lookup_lt_is_Some_2 h l Hl) as [o Ho]. exists (o :: os). by constructor. }
  assert (Hres : forall vs os, vs <> [] ->
            Forall2 (fun l o => h !! l = Some o) vs os ->
            propagate vs h =
              (Ok (mkOptions
                     (Some (foldl ts_max UNKNOWN
                              ((fun l => default UNKNOWN
                                  (state ∘ base_of <$> h !! l)) <$> vs)))
                     (Some (foldl (∪) ∅
                              ((fun l => default ∅
                                  (guards ∘ base_of <$> h !! l)) <$> vs)))), h)).
  { intros vs os Hne Hall. destruct Hall as [|v o vs os Hv Hall]; [done|].
    rewrite (propagate_nonempty _ _ _ _ _ Hv Hall).
    assert (Hs : (fun v => state (base_of v)) <$> os =
                 (fun l => default UNKNOWN (state ∘ base_of <$> h !! l)) <$> vs).
    { clear Hv Hne. induction Hall as [|l x vs os Hl _ IH]; [done|].
      rewrite !fmap_cons, IH, Hl. done. }
    assert (Hg : (fun v => guards (base_of v)) <$> os =
                 (fun l => default ∅ (guards ∘ base_of <$> h !! l)) <$> vs).
    { clear Hv Hne Hs. induction Hall as [|l x vs os Hl _ IH]; [done|].
      rewrite !fmap_cons, IH, Hl. done. }
    rewrite Hs, Hg, !fmap_cons. cbn [foldl]. rewrite Hv.
    change (default UNKNOWN (state ∘ base_of <$> Some o)) with (state (base_of o)).
    change (default ∅ (guards ∘ base_of <$> Some o)) with (guards (base_of o)).
    replace (ts_max UNKNOWN (state (base_of o))) with (state (base_of o))
      by by destruct (state (base_of o)).
    by rewrite (left_id_L ∅ (∪)). }
  destruct vars as [|v vars].
  { apply Permutation_nil_l in Hperm as ->. done. }
  assert (vars' <> []) as Hne'.
  { intros ->. by apply Permutation_nil_r in Hperm. }
  destruct (Hobjs _ Hvalid) as [os Hos].
  destruct (Hobjs vars') as [os' Hos']; [by rewrite <- Hperm|].
  rewrite (Hres (v :: vars) os ltac:(done) Hos), (Hres _ _ Hne' Hos').
  set (f := fun l => default UNKNOWN (state ∘ base_of <$> h !! l)).
  set (k := fun l => default ∅ (guards ∘ base_of <$> h !! l)).
  assert (Hfold : forall l, foldl ts_max UNKNOWN l = foldr ts_max UNKNOWN l).
  { intros l. induction l as [|x l IH]; [done|].
    cbn [foldl foldr]. rewrite foldl_ts_max_acc, IH. by destruct x. }
  assert (Hstate : foldl ts_max UNKNOWN (f <$> v :: vars)
                   = foldl ts_max UNKNOWN (f <$> vars')).
  { rewrite !Hfold. apply (foldr_permutation (=) ts_max UNKNOWN).
    - intros j1 a1 j2 a2 b _ _ _. rewrite !ts_max_assoc. f_equal. apply ts_max_comm.
    - by rewrite Hperm. }
  assert (Hguards : foldl (∪) ∅ (k <$> v :: vars) = foldl (∪) ∅ (k <$> vars')).
  { apply set_eq. intros g. rewrite !foldl_union_elem.
    setoid_rewrite list_elem_of_fmap. setoid_rewrite Hperm. done. }
  by rewrite Hstate, Hguards.
Qed.

Lemma propagate_permutation_witness :
  let h : store := [Plain UnknownVariable (mkBase YES ∅ None None);
                    Plain UnknownVariable (mkBase NO ∅ None None)] in
  propagate [0; 1] h = propagate [1; 0] h.
Proof.
  intros h. apply propagate_permutation.
  - repeat constructor; simpl; lia.
  - apply perm_swap.
Defined.

(** ** Clones with new guards or a new name *)

Lemma with_base_with_base {R} f g (o : object R) :
  with_base f (with_base g o) = with_base (fun b => f (g b)) o.
Proof. by destruct o. Qed.

Lemma with_base_ext {R} f g (o : object R) :
  f (base_of o) = g (base_of o) -> with_base f o = with_base g o.
Proof. destruct o; simpl; by intros ->. Qed.

(** X4: adding guards in two steps builds the value that adding their union
    builds; the value the guards are added to is left as it was. *)
Theorem add_guards_twice (h : store) (v : loc) (o : object loc) (g1 g2 : gset Guard) :
  h !! v = Some o ->
  let o12 := with_base (set_guards (guards (base_of o) ∪ (g1 ∪ g2))) o in
  exists r h',
    (r1 ← add_guards v g1; add_guards r1 g2) h = (Ok r, h') /\
    h' !! r = Some o12 /\
    h' !! v = Some o /\
    add_guards v (g1 ∪ g2) h = (Ok (length h), h ++ [o12]).
Proof.
  intros Hv o12.
  set (o1 := with_base (set_guards (guards (base_of o) ∪ g1)) o).
  assert (Hn : (h ++ [o1]) !! length h = Some o1) by by apply list_lookup_middle.
  exists (S (length h)), (h ++ [o1; o12]). split; [|split; [|split]].
  - rewrite (bind_ok _ _ _ _ _ (add_guards_run _ _ _ _ Hv)).
    rewrite (add_guards_run _ _ _ _ Hn). rewrite length_app, Nat.add_1_r.
    rewrite <- app_assoc. simpl. do 4 f_equal.
    unfold o1, o12. rewrite with_base_with_base. apply with_base_ext.
    rewrite base_of_with_base. unfold set_guards. simpl. f_equal. set_solver.
  - replace (h ++ [o1; o12]) with ((h ++ [o1]) ++ [o12]) by by rewrite <- app_assoc.
    apply list_lookup_middle. rewrite length_app. simpl. lia.
  - by apply lookup_app_l_Some.
  - by apply add_guards_run.
Qed.

Lemma add_guards_twice_witness :
  let ga := mkGuard "a" LOCAL None in
  let gb := mkGuard "b" LOCAL None in
  let h : store := [ConstantVariable (mkBase YES ∅ None None) (PInt 1)] in
  add_guards 0 ({[ga]} ∪ {[gb]}) h =
    (Ok 1, h ++ [ConstantVariable
                   (mkBase YES (∅ ∪ ({[ga]} ∪ {[gb]})) None None) (PInt 1)]).
Proof.
  intros ga gb h.
  destruct (add_guards_twice h 0 _ {[ga]} {[gb]} eq_refl) as (r & h' & _ & _ & _ & H).
  exact H.
Defined.

(** X5: a value that is given a non-empty initial name can create a guard,
    the LOCAL guard on that name, whatever names it had before, unless it
    is an attribute access. *)
Theorem with_initial_name_create_guard (h : store) (v : loc) (o : object loc)
    (name : string) (fn : option nat) :
  h !! v = Some o ->
  is_GetAttrVariable o = false ->
  name <> "" ->
  (r ← with_initial_name v name; create_guard r fn) h =
    (Ok (mkGuard name LOCAL fn),
     h ++ [with_base (set_initial_name (Some name)) o]).
Proof.
  intros Hv Hc Hname. unfold with_initial_name, clone.
  rewrite (bind_ok _ _ _ (length h)
             (h ++ [with_base (set_initial_name (Some name)) o])).
  2:{ by rewrite (bind_ok _ _ _ _ _ (deref_ok _ _ _ Hv)). }
  rewrite (create_guard_base _ _ (with_base (set_initial_name (Some name)) o)).
  - rewrite base_of_with_base. unfold VariableTracker_create_guard. simpl.
    by rewrite decide_False.
  - by apply list_lookup_middle.
  - by destruct o.
Qed.

Lemma with_initial_name_create_guard_witness :
  let h : store := [Plain UnknownVariable (mkBase UNKNOWN ∅ None (Some "g"))] in
  (r ← with_initial_name 0 "x"; create_guard r None) h =
    (Ok (mkGuard "x" LOCAL None),
     h ++ [Plain UnknownVariable (mkBase UNKNOWN ∅ (Some "x") (Some "g"))]).
Proof.
  intros h. by apply (with_initial_name_create_guard h 0 _ "x" None eq_refl eq_refl).
Defined.

(** ** Identity keys do not see state, guards or names *)

Lemma mapM_extend {A B} (f : A -> M B) l (h ext : list (object nat)) ys h1 :
  (forall x, readonly (f x)) ->
  (forall x y h2, f x h = (Ok y, h2) -> f x (h ++ ext) = (Ok y, h ++ ext)) ->
  mapM f l h = (Ok ys, h1) ->
  mapM f l (h ++ ext) = (Ok ys, h ++ ext).
Proof.
  intros Hro Hf. revert ys h1.
  induction l as [|x l IH]; intros ys h1 H; simpl in H |- *.
  - by injection H as <- _.
  - apply bind_inv in H as (y & h2 & Hy & H).
    pose proof (readonly_run _ _ _ _ (Hro x) Hy) as ->.
    apply bind_inv in H as (ys' & h3 & Hys & H). injection H as <- _.
    rewrite (bind_ok _ _ _ _ _ (Hf _ _ _ Hy)).
    by rewrite (bind_ok _ _ _ _ _ (IH _ _ Hys)).
Qed.

(** A key computed in a store is the key computed in any extension of
    the store. *)
Lemma get_key_extend id_int fuel l (h ext : list (object nat)) k h1 :
  get_key id_int fuel l h = (Ok k, h1) ->
  get_key id_int fuel l (h ++ ext) = (Ok k, h ++ ext).
Proof.
  revert l k h1. induction fuel as [|fuel IH]; intros l k h1 H; [done|].
  simpl in H |- *.
  apply bind_inv in H as (o & h2 & [-> Ho]%deref_inv & H).
  rewrite (bind_ok _ _ _ _ _ (deref_ok _ _ _ (lookup_extend _ ext _ _ Ho))).
  assert (Hmap : forall items ks h2,
            mapM (get_key id_int fuel) items h = (Ok ks, h2) ->
            mapM (get_key id_int fuel) items (h ++ ext) = (Ok ks, h ++ ext)).
  { intros items ks h2. apply mapM_extend; [apply readonly_get_key|].
    intros x y h3. apply IH. }
  destruct o; try (by injection H as <- _).
  - apply bind_inv in H as (ks & h2 & Hks & H). injection H as <- _.
    by rewrite (bind_ok _ _ _ _ _ (Hmap _ _ _ Hks)).
  - apply bind_inv in H as (k' & h2 & Hk & H). injection H as <- _.
    by rewrite (bind_ok _ _ _ _ _ (IH _ _ _ Hk)).
  - apply bind_inv in H as (ks & h2 & Hks & H). injection H as <- _.
    by rewrite (bind_ok _ _ _ _ _ (Hmap _ _ _ Hks)).
  - apply bind_inv in H as (keys & h2 & [-> Hkeys]%lift_inv & H).
    apply bind_inv in H as (ks & h2 & Hks & H). injection H as <- _.
    rewrite Hkeys. rewrite (bind_ok _ _ _ keys (h ++ ext)) by done.
    erewrite bind_ok; [done|].
    eapply mapM_extend; [| |exact Hks].
    + intros x. auto using readonly_get_key with readonly.
    + intros x y h3 Hx.
      apply bind_inv in Hx as (v & h4 & [-> Hv]%lift_inv & Hx).
      apply bind_inv in Hx as (kv & h4 & Hkv & Hx). injection Hx as <- _.
      rewrite Hv. rewrite (bind_ok _ _ _ v (h ++ ext)) by done.
      by rewrite (bind_ok _ _ _ _ _ (IH _ _ _ Hkv)).
  - apply bind_inv in H as (k' & h2 & Hk & H). injection H as <- _.
    by rewrite (bind_ok _ _ _ _ _ (IH _ _ _ Hk)).
Qed.

Lemma get_key_with_base id_int fuel v r f (h h' : list (object nat)) o k h1 :
  h !! v = Some o -> h' !! r = Some (with_base f o) ->
  (forall l k' h2, get_key id_int (pred fuel) l h = (Ok k', h2) ->
     get_key id_int (pred fuel) l h' = (Ok k', h')) ->
  get_key id_int fuel v h = (Ok k, h1) ->
  get_key id_int fuel r h' = (Ok k, h').
Proof.
  intros Hv Hr Hsub H. destruct fuel as [|fuel]; [done|]. simpl in Hsub.
  simpl in H |- *.
  rewrite (bind_ok _ _ _ _ _ (deref_ok _ _ _ Hv)) in H.
  rewrite (bind_ok _ _ _ _ _ (deref_ok _ _ _ Hr)).
  assert (Hmap : forall items ks h2,
            mapM (get_key id_int fuel) items h = (Ok ks, h2) ->
            mapM (get_key id_int fuel) items h' = (Ok ks, h')).
  { intros items. induction items as [|x items IHi]; intros ks h2 Hm; simpl in Hm |- *.
    - by injection Hm as <- _.
    - apply bind_inv in Hm as (y & h3 & Hy & Hm).
      pose proof (readonly_run _ _ _ _ (readonly_get_key _ _ _) Hy) as ->.
      apply bind_inv in Hm as (ys & h4 & Hys & Hm). injection Hm as <- _.
      rewrite (bind_ok _ _ _ _ _ (Hsub _ _ _ Hy)).
      by rewrite (bind_ok _ _ _ _ _ (IHi _ _ Hys)). }
  destruct o; simpl; try (by injection H as <- _).
  - apply bind_inv in H as (ks & h2 & Hks & H). injection H as <- _.
    by rewrite (bind_ok _ _ _ _ _ (Hmap _ _ _ Hks)).
  - apply bind_inv in H as (k' & h2 & Hk & H). injection H as <- _.
    by rewrite (bind_ok _ _ _ _ _ (Hsub _ _ _ Hk)).
  - apply bind_inv in H as (ks & h2 & Hks & H). injection H as <- _.
    by rewrite (bind_ok _ _ _ _ _ (Hmap _ _ _ Hks)).
  - apply bind_inv in H as (keys & h2 & [-> Hkeys]%lift_inv & H).
    apply bind_inv in H as (ks & h2 & Hks & H). injection H as <- _.
    rewrite Hkeys. rewrite (bind_ok _ _ _ keys h') by done.
    erewrite bind_ok; [done|].
    clear Hkeys. revert ks h2 Hks.
    induction keys as [|x keys IHk]; intros ks h2 Hks; simpl in Hks |- *.
    + by injection Hks as <- _.
    + apply bind_inv in Hks as (y & h3 & Hy & Hks).
      apply bind_inv in Hy as (w & h4 & [-> Hw]%lift_inv & Hy).
      apply bind_inv in Hy as (kv & h4 & Hkv & Hy). injection Hy as <- <-.
      pose proof (readonly_run _ _ _ _ (readonly_get_key _ _ _) Hkv) as ->.
      apply bind_inv in Hks as (ys & h5 & Hys & Hks). injection Hks as <- _.
      rewrite Hw.
      rewrite (bind_ok _ _ _ (KTuple [KAtom (dict_key_value x); kv]) h').
      2:{ rewrite (bind_ok _ _ _ w h') by done.
          by rewrite (bind_ok _ _ _ _ _ (Hsub _ _ _ Hkv)). }
      by rewrite (bind_ok _ _ _ _ _ (IHk _ _ Hys)).
  - apply bind_inv in H as (k' & h2 & Hk & H). injection H as <- _.
    by rewrite (bind_ok _ _ _ _ _ (Hsub _ _ _ Hk)).
Qed.

(** X6: the key of a value is the key of its clones with added guards and
    with a new initial name: keys record neither the state, the guards nor
    the names of the value itself. *)
Theorem get_key_ignores_base (id_int : Z -> Z) (fuel : nat) (h : store) (v : loc)
    (k : key) (gs : gset Guard) (name : string) :
  get_key id_int fuel v h = (Ok k, h) ->
  (exists r h', add_guards v gs h = (Ok r, h') /\
                get_key id_int fuel r h' = (Ok k, h')) /\
  (exists r h', with_initial_name v name h = (Ok r, h') /\
                get_key id_int fuel r h' = (Ok k, h')).
Proof.
  intros H.
  assert (exists o, h !! v = Some o) as [o Hv].
  { destruct fuel as [|fuel]; [done|]. simpl in H.
    apply bind_inv in H as (o & h2 & [_ Ho]%deref_inv & _). eauto. }
  assert (Hclone : forall f,
            get_key id_int fuel (length h) (h ++ [with_base f o])
            = (Ok k, h ++ [with_base f o])).
  { intros f. eapply (get_key_with_base _ _ v _ f h); [done| | |exact H].
    - by apply list_lookup_middle.
    - intros l k' h2. apply get_key_extend. }
  split.
  - eexists _, _. split; [by apply add_guards_run|]. apply Hclone.
  - eexists _, _. split; [|apply Hclone].
    unfold with_initial_name, clone.
    by rewrite (bind_ok _ _ _ _ _ (deref_ok _ _ _ Hv)).
Qed.

Lemma get_key_ignores_base_witness :
  let h : store := [ConstantVariable (mkBase YES ∅ None None) (PInt 7);
                    BaseList TupleVariable (mkBase YES ∅ (Some "t") None) [0]] in
  exists r h', add_guards 1 {[mkGuard "t" LOCAL None]} h = (Ok r, h') /\
    get_key id 2 r h' =
      (Ok (KTuple [KClass "TupleVariable";
                   KTuple [KTuple [KClass "ConstantVariable"; KAtom (PInt 7)]]]), h').
Proof.
  intros h.
  exact (proj1 (get_key_ignores_base id 2 h 1 _ {[mkGuard "t" LOCAL None]} ""
                  eq_refl)).
Defined.

(** ** Indexing: what can go wrong *)

Lemma as_python_constant_undefined fuel h l o :
  h !! l = Some o -> defines_constant o = false ->
  as_python_constant (S fuel) l h = (Raise NotImplementedError, h).
Proof.
  intros Hl Hc. simpl. rewrite (bind_ok _ _ _ _ _ (deref_ok _ _ _ Hl)).
  destruct o as [| | | | | | | |[]| | | | | |]; done.
Qed.

(** X7: indexing a list, tuple, slice or constant value by a value that is no
    Python constant raises [NotImplementedError] and constructs nothing. *)
Theorem getitem_const_key_not_constant (fuel : nat) (h : store) (self arg : loc)
    (so ao : object loc) :
  h !! self = Some so -> h !! arg = Some ao ->
  class_name so ∈ ["ConstantVariable"; "BaseListVariable"; "ListVariable";
                   "TupleVariable"; "SliceVariable"] ->
  defines_constant ao = false ->
  getitem_const (S fuel) self arg h = (Raise NotImplementedError, h).
Proof.
  intros Hs Ha Hc Hk. unfold getitem_const.
  rewrite (bind_ok _ _ _ _ _ (deref_ok _ _ _ Hs)).
  pose proof (as_python_constant_undefined fuel h arg ao Ha Hk) as Hn.
  destruct so as [[]|[]| | | | | | |c| | | | | |]; simpl in Hc;
    try (exfalso; set_solver).
  - unfold ConstantVariable_getitem_const. by rewrite (bind_raise _ _ _ _ _ Hn).
  - unfold BaseListVariable_getitem_const. by rewrite (bind_raise _ _ _ _ _ Hn).
Qed.

Lemma getitem_const_key_not_constant_witness :
  let h : store :=
    [BaseList ListVariable (mkBase YES ∅ (Some "l") None) [];
     Tensor TensorVariable (mkBase YES ∅ (Some "i") None) 3 None None None None None] in
  getitem_const 1 0 1 h = (Raise NotImplementedError, h).
Proof.
  intros h. apply (getitem_const_key_not_constant 0 h 0 1 _ _ eq_refl eq_refl);
    [set_solver|done].
Defined.

Lemma py_index_out_of_range {A} (seq : list A) (i : Z) :
  (i < - Z.of_nat (length seq) \/ Z.of_nat (length seq) <= i)%Z ->
  py_index seq i = Raise IndexError.
Proof.
  intros Hi. unfold py_index.
  destruct (decide (i < 0)%Z); rewrite decide_False by lia; done.
Qed.

(** X8: indexing a list value by a constant integer outside [-len, len)
    raises [IndexError], and by a constant that is neither an integer nor a
    slice [AssertionError]; in both cases nothing is constructed. *)
Theorem getitem_const_bad_index (fuel : nat) (h : store) (self arg : loc)
    (c : list_class) (b ab : base) (items : list loc) (key : pyvalue) :
  h !! self = Some (BaseList c b items) ->
  h !! arg = Some (ConstantVariable ab key) ->
  (forall i, as_int key = Some i ->
     (i < - Z.of_nat (length items) \/ Z.of_nat (length items) <= i)%Z ->
     getitem_const (S fuel) self arg h = (Raise IndexError, h)) /\
  (as_int key = None -> (forall x y z, key <> PSlice x y z) ->
     getitem_const (S fuel) self arg h = (Raise AssertionError, h)).
Proof.
  intros Hs Ha.
  assert (Hrun : getitem_const (S fuel) self arg h =
                 BaseListVariable_getitem_const (S fuel) self arg items h).
  { unfold getitem_const. by rewrite (bind_ok _ _ _ _ _ (deref_ok _ _ _ Hs)). }
  rewrite Hrun. unfold BaseListVariable_getitem_const.
  rewrite (bind_ok _ _ _ _ _ (as_python_constant_constant _ _ _ _ _ Ha)).
  split.
  - intros i Hi Hrange. destruct key; simpl in Hi |- *; try done;
      injection Hi as <-; rewrite (py_index_out_of_range _ _ Hrange); done.
  - intros Hi Hsl. destruct key; simpl in Hi; try done.
    by destruct (Hsl key1 key2 key3).
Qed.

Lemma getitem_const_bad_index_witness :
  let h : store :=
    [ConstantVariable (mkBase YES ∅ None None) (PInt 5);
     BaseList TupleVariable (mkBase YES ∅ None None) [0];
     ConstantVariable (mkBase YES ∅ None None) (PInt 1);
     ConstantVariable (mkBase YES ∅ None None) (PStr "k")] in
  getitem_const 1 1 2 h = (Raise IndexError, h) /\
  getitem_const 1 1 3 h = (Raise AssertionError, h).
Proof.
  intros h. split.
  - apply (proj1 (getitem_const_bad_index 0 h 1 2 _ _ _ [0] (PInt 1) eq_refl eq_refl)
             1%Z eq_refl). simpl. lia.
  - by apply (proj2 (getitem_const_bad_index 0 h 1 3 _ _ _ [0] (PStr "k")
                       eq_refl eq_refl)).
Defined.

(** ** Sequences of constants *)

Lemma mapM_as_python_constant_constants fuel h items vals :
  Forall2 (fun i v => exists bi, h !! i = Some (ConstantVariable bi v)) items vals ->
  mapM (as_python_constant (S fuel)) items h = (Ok vals, h).
Proof.
  induction 1 as [|i v items vals [bi Hi] _ IH]; [done|].
  cbn [mapM]. rewrite (bind_ok _ _ _ _ _ (as_python_constant_constant _ _ _ _ _ Hi)).
  by rewrite (bind_ok _ _ _ _ _ IH).
Qed.

(** X9: a list or tuple value whose items are constants is the constant list
    or tuple of their values; a slice value is the slice of its one to
    three items and raises [TypeError] for any other number of items; a
    value of the base class is no constant. *)
Theorem as_python_constant_sequence (fuel : nat) (h : store) (l : loc)
    (c : list_class) (b : base) (items : list loc) (vals : list pyvalue) :
  h !! l = Some (BaseList c b items) ->
  Forall2 (fun i v => exists bi, h !! i = Some (ConstantVariable bi v)) items vals ->
  as_python_constant (S (S fuel)) l h =
    match c with
    | BaseListVariable => (Raise NotImplementedError, h)
    | ListVariable => (Ok (PList vals), h)
    | TupleVariable => (Ok (PTuple vals), h)
    | SliceVariable =>
        match vals with
        | [y] => (Ok (PSlice PNone y PNone), h)
        | [x; y] => (Ok (PSlice x y PNone), h)
        | [x; y; z] => (Ok (PSlice x y z), h)
        | _ => (Raise TypeError, h)
        end
    end.
Proof.
  intros Hl Hall. cbn [as_python_constant].
  rewrite (bind_ok _ _ _ _ _ (deref_ok _ _ _ Hl)).
  pose proof (mapM_as_python_constant_constants fuel h items vals Hall) as Hm.
  destruct c; [done| | |].
  - by rewrite (fmap_ok _ _ _ _ _ Hm).
  - by rewrite (fmap_ok _ _ _ _ _ Hm).
  - rewrite (bind_ok _ _ _ _ _ Hm). by destruct vals as [|x [|y [|z [|w vals]]]].
Qed.

Lemma as_python_constant_sequence_witness :
  let k n := ConstantVariable (mkBase YES ∅ None None) n in
  let h : store := [k (PInt 1); k PNone;
                    BaseList SliceVariable (mkBase YES ∅ None None) [0; 1];
                    BaseList TupleVariable (mkBase YES ∅ None None) [0; 0]] in
  as_python_constant 2 2 h = (Ok (PSlice (PInt 1) PNone PNone), h) /\
  as_python_constant 2 3 h = (Ok (PTuple [PInt 1; PInt 1]), h).
Proof.
  intros k h. split.
  - apply (as_python_constant_sequence 0 h 2 SliceVariable _ [0; 1] [PInt 1; PNone]
             eq_refl).
    repeat constructor; by eexists.
  - apply (as_python_constant_sequence 0 h 3 TupleVariable _ [0; 0] [PInt 1; PInt 1]
             eq_refl).
    repeat constructor; by eexists.
Defined.

(** ** Indexing: what it builds *)

(** X10: slicing a list, tuple or slice value builds a value of the same
    class with the selected items that keeps the state and the names of
    the sliced value and adds the guards of the key; a key the slice of
    which is not defined (a zero step) raises and constructs nothing. *)
Theorem getitem_const_slice (fuel : nat) (h : store) (self arg : loc)
    (c : list_class) (b : base) (items : list loc) (ao : object loc)
    (x y z : pyvalue) :
  h !! self = Some (BaseList c b items) ->
  h !! arg = Some ao ->
  as_python_constant fuel arg h = (Ok (PSlice x y z), h) ->
  getitem_const fuel self arg h =
    match py_slice items x y z with
    | Ok part =>
        (Ok (S (length h)),
         h ++ [BaseList c b part;
               BaseList c (set_guards (guards b ∪ guards (base_of ao)) b) part])
    | Raise e => (Raise e, h)
    end.
Proof.
  intros Hs Ha Hk. unfold getitem_const.
  rewrite (bind_ok _ _ _ _ _ (deref_ok _ _ _ Hs)).
  unfold BaseListVariable_getitem_const. rewrite (bind_ok _ _ _ _ _ Hk).
  destruct (py_slice items x y z) as [part|e]; [|done].
  rewrite (bind_ok _ _ _ part h) by done.
  rewrite (bind_ok _ _ _ (length h) (h ++ [BaseList c b part])).
  2:{ unfold clone. by rewrite (bind_ok _ _ _ _ _ (deref_ok _ _ _ Hs)). }
  rewrite (bind_ok _ _ _ _ _ (deref_ok _ _ _ (lookup_extend _ _ _ _ Ha))).
  rewrite (add_guards_run _ (length h) (BaseList c b part)).
  - rewrite length_app, Nat.add_1_r, <- app_assoc. done.
  - by apply list_lookup_middle.
Qed.

Lemma getitem_const_slice_witness :
  let k n := ConstantVariable (mkBase YES ∅ None None) n in
  let g := mkGuard "s" LOCAL None in
  let h : store := [k (PInt 10); k (PInt 20); k (PInt 30); k (PInt 1); k PNone;
                    BaseList ListVariable (mkBase YES ∅ (Some "l") None) [0; 1; 2];
                    BaseList SliceVariable (mkBase YES {[g]} None None) [3; 4]] in
  getitem_const 2 5 6 h =
    (Ok 8, h ++ [BaseList ListVariable (mkBase YES ∅ (Some "l") None) [1; 2];
                 BaseList ListVariable (mkBase YES (∅ ∪ {[g]}) (Some "l") None) [1; 2]]).
Proof.
  intros k g h.
  exact (getitem_const_slice 2 h 5 6 ListVariable _ [0; 1; 2] _ (PInt 1) PNone PNone
           eq_refl eq_refl eq_refl).
Defined.

(** X11: indexing a constant builds the constant [value[key]] with the larger
    of the two states and the union of the two guard sets and without
    names; when [value[key]] raises, so does the indexing, and nothing is
    constructed. *)
Theorem getitem_const_constant (fuel : nat) (h : store) (self arg : loc)
    (b : base) (value : pyvalue) (ao : object loc) (key : pyvalue) :
  h !! self = Some (ConstantVariable b value) ->
  h !! arg = Some ao ->
  as_python_constant fuel arg h = (Ok key, h) ->
  getitem_const fuel self arg h =
    match py_getitem value key with
    | Ok v =>
        (Ok (length h),
         h ++ [ConstantVariable
                 (mkBase (ts_max (state b) (state (base_of ao)))
                    (guards b ∪ guards (base_of ao)) None None) v])
    | Raise e => (Raise e, h)
    end.
Proof.
  intros Hs Ha Hk. unfold getitem_const.
  rewrite (bind_ok _ _ _ _ _ (deref_ok _ _ _ Hs)).
  by apply (ConstantVariable_getitem_const_run fuel h self arg b value ao key).
Qed.

Lemma getitem_const_constant_witness :
  let h : store :=
    [ConstantVariable (mkBase YES ∅ (Some "shape") None) (PTuple [PInt 4; PInt 3]);
     ConstantVariable (mkBase UNKNOWN ∅ None None) (PInt (-1))] in
  getitem_const 1 0 1 h =
    (Ok 2, h ++ [ConstantVariable (mkBase YES (∅ ∪ ∅) None None) (PInt 3)]).
Proof.
  intros h.
  exact (getitem_const_constant 1 h 0 1 _ _ _ (PInt (-1)) eq_refl eq_refl eq_refl).
Defined.

Lemma py_slice_elem {A} (seq : list A) x y z part a :
  py_slice seq x y z = Ok part -> a ∈ part -> a ∈ seq.
Proof.
  unfold py_slice. intros H Ha.
  apply rbind_inv in H as (c & _ & H).
  case_decide; [done|].
  apply rbind_inv in H as (s & _ & H). apply rbind_inv in H as (e & _ & H).
  injection H as <-.
  apply list_elem_of_omap in Ha as (i & _ & Hi).
  by apply list_elem_of_lookup_2 in Hi.
Qed.

Lemma py_index_elem {A} (seq : list A) i a : py_index seq i = Ok a -> a ∈ seq.
Proof.
  unfold py_index. case_decide; [|done].
  destruct (seq !! _) eqn:E; [|done]. intros [= <-].
  by apply list_elem_of_lookup_2 in E.
Qed.

Lemma is_literal_forall l : forallb is_literal l = true <-> Forall (fun v => is_literal v = true) l.
Proof. rewrite forallb_forall, Forall_forall. by setoid_rewrite list_elem_of_In. Qed.

Lemma py_subscript_literal {A} (seq : list A) key one many v (P : A -> Prop) :
  Forall P seq ->
  (forall a, P a -> is_literal (one a) = true) ->
  (forall l, Forall P l -> is_literal (many l) = true) ->
  py_subscript seq key one many = Ok v -> is_literal v = true.
Proof.
  intros Hseq Hone Hmany H. unfold py_subscript in H.
  assert (Hidx : forall i, one <$> py_index seq i = Ok v -> is_literal v = true).
  { intros i Hi. destruct (py_index seq i) as [a|] eqn:E; [|done].
    injection Hi as <-. apply Hone. rewrite Forall_forall in Hseq.
    by apply Hseq, (py_index_elem _ i). }
  destruct key; simpl in H; try done; try by eapply Hidx.
  destruct (py_slice seq key1 key2 key3) as [part|] eqn:E; [|done].
  injection H as <-. apply Hmany. apply Forall_forall. intros a Ha.
  rewrite Forall_forall in Hseq. by apply Hseq, (py_slice_elem _ _ _ _ _ _ E).
Qed.

(** X12: indexing a constant that holds a literal builds a constant that
    holds a literal. *)
Theorem getitem_const_literal (fuel : nat) (h : store) (self arg : loc) (b : base)
    (value : pyvalue) (r : loc) (h' : store) :
  h !! self = Some (ConstantVariable b value) ->
  is_literal value = true ->
  getitem_const fuel self arg h = (Ok r, h') ->
  exists b' v, h' !! r = Some (ConstantVariable b' v) /\ is_literal v = true.
Proof.
  intros Hs Hlit H. unfold getitem_const in H.
  rewrite (bind_ok _ _ _ _ _ (deref_ok _ _ _ Hs)) in H.
  unfold ConstantVariable_getitem_const in H.
  apply bind_inv in H as (key & h1 & Hk & H).
  apply bind_inv in H as (v & h2 & [-> Hv]%lift_inv & H).
  apply bind_inv in H as (opts & h2 & _ & H).
  apply alloc_inv in H as (_ & _ & H). eexists _, v. split; [exact H|].
  destruct value; simpl in Hv; try done.
  - by apply (py_subscript_literal _ _ _ _ _ (fun _ => True)) in Hv;
      [|apply Forall_true|..].
  - apply (py_subscript_literal _ _ _ _ _ (fun v => is_literal v = true)) in Hv;
      [done|by apply is_literal_forall|done|intros; by apply is_literal_forall].
  - apply (py_subscript_literal _ _ _ _ _ (fun v => is_literal v = true)) in Hv;
      [done|by apply is_literal_forall|done|intros; by apply is_literal_forall].
Qed.

Lemma getitem_const_literal_witness :
  let h : store :=
    [ConstantVariable (mkBase YES ∅ None None) (PTuple [PInt 4; PStr "a"]);
     ConstantVariable (mkBase YES ∅ None None) (PInt 1)] in
  exists b' v, (getitem_const 1 0 1 h).2 !! 2 = Some (ConstantVariable b' v) /\
               is_literal v = true.
Proof.
  intros h.
  exact (getitem_const_literal 1 h 0 1 _ _ 2 (getitem_const 1 0 1 h).2
           eq_refl eq_refl eq_refl).
Defined.

(** ** Calls of wrapped constants *)

(** X13: a call without arguments returns the wrapped value itself and builds
    nothing; keyword arguments fail the assertion; a call with two or more
    arguments returns one value per argument. *)
Theorem call_const_edges (fuel : nat) (h : store) (self : loc) (b : base) (value : loc) :
  h !! self = Some (FunctionConstantWrapper b value) ->
  call_const fuel self [] [] h = (Ok (One value), h) /\
  (forall args kw kws,
     call_const fuel self args (kw :: kws) h = (Raise AssertionError, h)) /\
  (forall a1 a2 args res h',
     call_const fuel self (a1 :: a2 :: args) [] h = (Ok res, h') ->
     exists rs, res = Many rs /\ length rs = S (S (length args))).
Proof.
  intros Hs.
  assert (Hrun : forall args kwargs,
    call_const fuel self args kwargs h =
      (if decide (kwargs = []) then
         match args with
         | [a] => One <$> getitem_const fuel value a
         | [] => mret (One value)
         | _ => Many <$> mapM (getitem_const fuel value) args
         end
       else raise AssertionError) h).
  { intros args kwargs. unfold call_const.
    by rewrite (bind_ok _ _ _ _ _ (deref_ok _ _ _ Hs)). }
  split; [by rewrite Hrun|]. split; [intros; by rewrite Hrun|].
  intros a1 a2 args res h' H. rewrite Hrun in H. rewrite decide_True in H by done.
  unfold fmap, M_fmap in H.
  destruct (mapM _ _ h) as [[rs|e] h1] eqn:Hm; [|done].
  injection H as <- <-. exists rs. split; [done|].
  by apply mapM_length in Hm.
Qed.

Lemma call_const_edges_witness :
  let h : store :=
    [ConstantVariable (mkBase YES ∅ None None) (PTuple [PInt 4; PInt 3]);
     FunctionConstantWrapper (mkBase YES ∅ None None) 0] in
  call_const 1 1 [] [] h = (Ok (One 0), h).
Proof.
  intros h. exact (proj1 (call_const_edges 1 h 1 _ 0 eq_refl)).
Defined.

(** ** Constant attributes of tensors *)

(** X14: every constant attribute of a tensor value is a new value with the
    state and the guards of the tensor value and without names, and the
    tensor value and all older values are left as they were. *)
Theorem const_attr_options (is_cuda : nat -> bool) (h : store) (x : loc)
    (o : object loc) (name : string) (r : loc) (h' : store) :
  h !! x = Some o ->
  const_attr is_cuda x name h = (Ok (Some r), h') ->
  length h <= r /\
  (forall l, l < length h -> h' !! l = h !! l) /\
  exists ro, h' !! r = Some ro /\
    base_of ro = mkBase (state (base_of o)) (guards (base_of o)) None None.
Proof.
  intros Hx H.
  pose proof (preserves_const_attr is_cuda x name h) as Hpres.
  rewrite H in Hpres. simpl in Hpres.
  unfold const_attr in H. rewrite (bind_ok _ _ _ _ _ (deref_ok _ _ _ Hx)) in H.
  destruct o; try done.
  rewrite (bind_ok _ _ _ _ _ (propagate_single _ _ _ Hx)) in H.
  cbn [base_of state guards] in H |- *.
  assert (Hwrap : forall (w : bool) v h0 h1 r1,
    length h <= length h0 ->
    (c0 ← alloc (ConstantVariable
                   (VariableTracker_init
                      (mkOptions (Some (state b)) (Some (guards b)))) v);
     if w then Some <$> alloc (FunctionConstantWrapper
                 (VariableTracker_init
                    (mkOptions (Some (state b)) (Some (guards b)))) c0)
     else mret (Some c0)) h0 = (Ok (Some r1), h1) ->
    length h <= r1 /\ exists ro, h1 !! r1 = Some ro /\
      base_of ro = mkBase (state b) (guards b) None None).
  { intros w v h0 h1 r1 Hlen Hw. unfold mbind, M_bind, alloc in Hw.
    destruct w; simpl in Hw.
    - unfold fmap, M_fmap in Hw. simpl in Hw. injection Hw as <- <-.
      split; [rewrite length_app; lia|]. eexists.
      split; [by apply list_lookup_middle|done].
    - injection Hw as <- <-. split; [lia|]. eexists.
      split; [by apply list_lookup_middle|done]. }
  assert (Hone : forall (ro : object nat) h1 r1,
    (Some <$> alloc ro) h = (Ok (Some r1), h1) ->
    length h <= r1 /\ h1 !! r1 = Some ro).
  { intros ro h1 r1 Hw. unfold fmap, M_fmap, alloc in Hw.
    injection Hw as <- <-. split; [lia|]. by apply list_lookup_middle. }
  cbv beta zeta in H.
  assert (length h <= r /\ exists ro, h' !! r = Some ro /\
            base_of ro = mkBase (state b) (guards b) None None) as [? ?];
    [|done].
  repeat (destruct (_ && _) in H;
          [first [by apply (Hwrap _ _ h h' r (Nat.le_refl _)) in H
                 |by apply (Hwrap true _ h h' r (Nat.le_refl _)) in H
                 |apply Hone in H as [? ?]; split; [done|];
                  eexists; split; [eassumption|done]]|]).
  discriminate H.
Qed.

Lemma const_attr_options_witness :
  let g := mkGuard "x" LOCAL None in
  let h : store :=
    [Tensor TensorVariable (mkBase YES {[g]} (Some "x") None) 7
       None None (Some 2%Z) None None] in
  exists ro, (const_attr (fun _ => false) 0 "dim" h).2 !! 2 = Some ro /\
    base_of ro = mkBase YES {[g]} None None.
Proof.
  intros g h.
  exact (proj2 (proj2 (const_attr_options (fun _ => false) h 0 _ "dim" 2
                         (const_attr (fun _ => false) 0 "dim" h).2
                         eq_refl eq_refl))).
Defined.

(** Decides the tests on a given attribute name. *)
Ltac eval_names :=
  repeat match goal with
    | |- context [name_in ?a ?l] =>
        let v := eval vm_compute in (name_in a l) in
        change (name_in a l) with v
    | |- context [@bool_decide (?a = ?b) ?d] =>
        let v := eval vm_compute in (@bool_decide (a = b) d) in
        change (@bool_decide (a = b) d) with v
    end.

Lemma py_index_fmap {A B} (f : A -> B) (seq : list A) i :
  py_index (f <$> seq) i = f <$> py_index seq i.
Proof.
  unfold py_index. rewrite length_fmap. case_decide; [|done].
  rewrite list_lookup_fmap. by destruct (seq !! _).
Qed.

(** X15: the size of a tensor value called with a constant index, as in
    [x.size(i)], and its shape indexed by the same constant, as in
    [x.shape[i]], are constants with the same value, the same state and the
    same guards. *)
Theorem size_call_is_shape_index (is_cuda : nat -> bool) (fuel : nat) (h : store)
    (x a : loc) (c : tensor_class) (b ab : base) (proxy : nat)
    (dt dv : option nat) (nd : option Z) (sz : list Z) (st : option (list Z))
    (i n : Z) :
  h !! x = Some (Tensor c b proxy dt dv nd (Some sz) st) ->
  h !! a = Some (ConstantVariable ab (PInt i)) ->
  py_index sz i = Ok n ->
  let B := mkBase (ts_max (state b) (state ab)) (guards b ∪ guards ab) None None in
  (exists w h1 r h2,
     const_attr is_cuda x "size" h = (Ok (Some w), h1) /\
     call_const (S fuel) w [a] [] h1 = (Ok (One r), h2) /\
     h2 !! r = Some (ConstantVariable B (PInt n))) /\
  (exists s h1 r h2,
     const_attr is_cuda x "shape" h = (Ok (Some s), h1) /\
     getitem_const (S fuel) s a h1 = (Ok r, h2) /\
     h2 !! r = Some (ConstantVariable B (PInt n))).
Proof.
  intros Hx Ha Hn B.
  set (b0 := mkBase (state b) (guards b) None None).
  set (k := ConstantVariable b0 (PTuple (PInt <$> sz)) : object nat).
  assert (Hget : forall (h1 : list (object nat)) s,
    h1 !! s = Some k -> h1 !! a = Some (ConstantVariable ab (PInt i)) ->
    getitem_const (S fuel) s a h1 =
      (Ok (length h1), h1 ++ [ConstantVariable B (PInt n)])).
  { intros h1 s Hs Ha1. unfold getitem_const.
    rewrite (bind_ok _ _ _ _ _ (deref_ok _ _ _ Hs)). unfold k in Hs |- *.
    rewrite (ConstantVariable_getitem_const_run (S fuel) h1 s a b0 _ _ (PInt i) Hs Ha1
               (as_python_constant_constant _ _ _ _ _ Ha1)).
    simpl. unfold py_subscript. simpl. by rewrite py_index_fmap, Hn. }
  set (W := FunctionConstantWrapper b0 (length h) : object nat).
  assert (Hk1 : (h ++ [k; W]) !! length h = Some k) by by apply list_lookup_middle.
  assert (HW : (h ++ [k; W]) !! S (length h) = Some W).
  { replace (h ++ [k; W]) with ((h ++ [k]) ++ [W]) by by rewrite <- app_assoc.
    apply list_lookup_middle. rewrite length_app. simpl. lia. }
  assert (Hk2 : (h ++ [k]) !! length h = Some k) by by apply list_lookup_middle.
  assert (Hprop : propagate [x] h =
            (Ok (mkOptions (Some (state b)) (Some (guards b))), h)).
  { by rewrite (propagate_single _ _ _ Hx). }
  split.
  - exists (S (length h)), (h ++ [k; W]),
      (length (h ++ [k; W])), ((h ++ [k; W]) ++ [ConstantVariable B (PInt n)]).
    split; [|split].
    + unfold const_attr. rewrite (bind_ok _ _ _ _ _ (deref_ok _ _ _ Hx)).
      rewrite (bind_ok _ _ _ _ _ Hprop).
      eval_names. cbn. unfold alloc, mbind, M_bind, fmap, M_fmap. cbn.
      rewrite length_app, Nat.add_1_r, <- app_assoc. done.
    + unfold call_const. rewrite (bind_ok _ _ _ _ _ (deref_ok _ _ _ HW)).
      unfold W at 1. rewrite decide_True by done. apply fmap_ok.
      apply Hget; [done|].
      by apply lookup_app_l_Some.
    + by apply list_lookup_middle.
  - exists (length h), (h ++ [k]),
      (length (h ++ [k])), ((h ++ [k]) ++ [ConstantVariable B (PInt n)]).
    split; [|split].
    + unfold const_attr. rewrite (bind_ok _ _ _ _ _ (deref_ok _ _ _ Hx)).
      rewrite (bind_ok _ _ _ _ _ Hprop).
      eval_names. cbn. unfold alloc, mbind, M_bind, fmap, M_fmap. cbn. done.
    + apply Hget; [done|]. by apply lookup_app_l_Some.
    + by apply list_lookup_middle.
Qed.

Lemma size_call_is_shape_index_witness :
  let g := mkGuard "x" LOCAL None in
  let h : store :=
    [Tensor TensorVariable (mkBase YES {[g]} (Some "x") None) 7
       None None (Some 2%Z) (Some [4; 3]%Z) (Some [3; 1]%Z);
     ConstantVariable (mkBase UNKNOWN ∅ None None) (PInt 1)] in
  exists w h1 r h2,
    const_attr (fun _ => false) 0 "size" h = (Ok (Some w), h1) /\
    call_const 1 w [1] [] h1 = (Ok (One r), h2) /\
    h2 !! r = Some (ConstantVariable
                      (mkBase (ts_max YES UNKNOWN) ({[g]} ∪ ∅) None None) (PInt 3)).
Proof.
  intros g h.
  exact (proj1 (size_call_is_shape_index (fun _ => false) 0 h 0 1 _ _ _ _ _ _ _ _ _
                  1%Z 3%Z eq_refl eq_refl eq_refl)).
Defined.

(** ** Iterating to the end *)

(** X16: advancing a fresh iterator as many times as it has items emits all
    its items in order; the advance after that raises [StopIteration];
    no other value has changed. *)
Theorem iterate_to_exhaustion (h : store) (self : loc) (b : base) (items : list loc) :
  h !! self = Some (ListIteratorVariable b items 0) ->
  exists h',
    advance (length items) self h = (Ok items, h') /\
    next_variables self h' = (Raise StopIteration, h') /\
    forall i, i <> self -> h' !! i = h !! i.
Proof.
  intros Hs.
  pose proof (advance_from h self b items 0 (length items) Hs) as Hadv.
  rewrite Hadv by lia. simpl. rewrite take_ge by done.
  destruct items as [|x items].
  - exists h. split; [done|]. split; [|done].
    apply (next_variables_exhausted h self b [] 0 Hs). simpl. lia.
  - eexists. split; [done|]. split.
    + eapply next_variables_exhausted.
      * apply list_lookup_insert_eq. by apply lookup_lt_Some in Hs.
      * lia.
    + intros i Hi. by apply list_lookup_insert_ne.
Qed.

Lemma iterate_to_exhaustion_witness :
  let c := ConstantVariable (mkBase YES ∅ None None) (PInt 1) in
  let h : store := [c; c; ListIteratorVariable (mkBase YES ∅ (Some "it") None) [0; 1] 0] in
  exists h', advance 2 2 h = (Ok [0; 1], h') /\
             next_variables 2 h' = (Raise StopIteration, h').
Proof.
  intros c h.
  destruct (iterate_to_exhaustion h 2 _ [0; 1] eq_refl) as (h' & H1 & H2 & _).
  by exists h'.
Defined.

(** ** The key of a dict does not depend on the order of its entries *)

Lemma string_compare_Lt_trans s t u :
  String.compare s t = Lt -> String.compare t u = Lt -> String.compare s u = Lt.
Proof.
  revert t u. induction s as [|a s IH]; intros [|b t] [|c u]; simpl; try done.
  unfold Ascii.compare.
  destruct (N.compare_spec (Ascii.N_of_ascii a) (Ascii.N_of_ascii b)) as [E1|L1|G1];
    destruct (N.compare_spec (Ascii.N_of_ascii b) (Ascii.N_of_ascii c)) as [E2|L2|G2];
    destruct (N.compare_spec (Ascii.N_of_ascii a) (Ascii.N_of_ascii c)) as [E3|L3|G3];
    try done; try lia; eauto.
Qed.

Lemma string_leb_trans s t u :
  String.leb s t = true -> String.leb t u = true -> String.leb s u = true.
Proof.
  unfold String.leb.
  destruct (String.compare s t) eqn:E1; [|
    destruct (String.compare t u) eqn:E2; [| |done] |done].
  - apply String.compare_eq_iff in E1 as ->. done.
  - apply String.compare_eq_iff in E2 as ->. by rewrite E1.
  - by rewrite (string_compare_Lt_trans _ _ _ E1 E2).
Qed.

Lemma Sorted_StronglySorted_on {A} (R : relation A) (P : A -> Prop) l :
  (forall x y z, P x -> P y -> P z -> R x y -> R y z -> R x z) ->
  Forall P l -> Sorted R l -> StronglySorted R l.
Proof.
  intros Htrans HP Hs. induction Hs as [|x l Hl IH Hhd]; [constructor|].
  apply Forall_cons in HP as [Hx HP]. specialize (IH HP).
  constructor; [done|].
  destruct Hhd as [|y l Hxy]; [constructor|].
  apply Forall_cons in HP as [Hy HP]. constructor; [done|].
  apply StronglySorted_inv in IH as [_ Hy'].
  rewrite Forall_forall in Hy', HP. apply Forall_forall. intros z Hz.
  apply (Htrans x y z); auto.
Qed.

Lemma dict_keys_alt keys :
  dict_keys keys <->
  NoDup keys /\
  forall x y, x ∈ keys -> y ∈ keys ->
    py_eq (dict_key_value x) (dict_key_value y) = true -> x = y.
Proof.
  split.
  - intros H. split.
    + apply NoDup_alt. intros i j x Hi Hj.
      apply (H i j x x Hi Hj), py_eq_dict_key.
    + intros x y [i Hi]%list_elem_of_lookup [j Hj]%list_elem_of_lookup Heq.
      pose proof (H i j x y Hi Hj Heq) as ->. congruence.
  - intros [Hnd H] i j x y Hi Hj Heq.
    assert (x = y) as ->.
    { apply H; [by eapply list_elem_of_lookup_2..|done]. }
    by eapply NoDup_lookup.
Qed.

Lemma dict_keys_perm keys keys' : keys ≡ₚ keys' -> dict_keys keys -> dict_keys keys'.
Proof.
  intros Hp. rewrite !dict_keys_alt. intros [Hnd H]. split; [by rewrite <- Hp|].
  intros x y Hx Hy. rewrite <- Hp in Hx, Hy. by apply H.
Qed.

(** On the keys of a dict that can be sorted, [<=] is an order. *)
Lemma key_le_order keys :
  dict_keys keys ->
  forallb key_is_number keys || forallb key_is_string keys = true ->
  (forall x y z, x ∈ keys -> y ∈ keys -> z ∈ keys ->
     key_le x y -> key_le y z -> key_le x z) /\
  (forall x y, x ∈ keys -> y ∈ keys -> key_le x y -> key_le y x -> x = y).
Proof.
  intros [_ Heq]%dict_keys_alt Hkind.
  assert (Hk : (forall k, k ∈ keys -> key_is_number k = true) \/
               (forall k, k ∈ keys -> key_is_string k = true)).
  { apply orb_true_iff in Hkind as [H|H]; [left|right]; intros k Hk;
      rewrite forallb_forall in H; by apply H, list_elem_of_In. }
  split.
  - intros x y z Hx Hy Hz. destruct Hk as [Hk|Hk];
      apply Hk in Hx, Hy, Hz; destruct x, y, z; try done; simpl.
    all: try (repeat match goal with b : bool |- _ => destruct b end; lia).
    apply string_leb_trans.
  - intros x y Hx Hy Hxy Hyx. apply (Heq x y Hx Hy).
    destruct Hk as [Hk|Hk]; apply Hk in Hx, Hy; destruct x, y; try done;
      simpl in Hxy, Hyx |- *; apply bool_decide_eq_true.
    all: try (f_equal;
              repeat match goal with b : bool |- _ => destruct b end; lia).
    by apply String.leb_antisym.
Qed.

Lemma forallb_perm {A} (f : A -> bool) l l' : l ≡ₚ l' -> forallb f l = forallb f l'.
Proof.
  intros Hp. apply eq_true_iff_eq. rewrite !forallb_forall.
  by setoid_rewrite <- list_elem_of_In; setoid_rewrite Hp.
Qed.

(** Sorting the keys of a dict gives the same list whatever the order of
    insertion. *)
Lemma py_sorted_perm_eq keys keys' :
  dict_keys keys -> keys ≡ₚ keys' -> py_sorted keys = py_sorted keys'.
Proof.
  intros Hkeys Hp. unfold py_sorted.
  rewrite <- (Permutation_length Hp).
  case_decide as Hlen.
  { destruct keys as [|k [|k' keys]]; simpl in Hlen; [| |lia].
    - by apply Permutation_nil_l in Hp as ->.
    - by apply Permutation_singleton_l in Hp as ->. }
  rewrite <- !(forallb_perm _ _ _ Hp).
  destruct (_ || _) eqn:Hkind; [|done]. f_equal.
  destruct (key_le_order keys Hkeys Hkind) as (Htrans & Hanti).
  apply (StronglySorted_unique_strong key_le).
  - intros x y Hx Hy. rewrite merge_sort_Permutation in Hx.
    rewrite merge_sort_Permutation, <- Hp in Hy. by apply Hanti.
  - apply (Sorted_StronglySorted_on _ (fun k => k ∈ keys)); [done| |].
    + apply Forall_forall. intros x Hx. by rewrite merge_sort_Permutation in Hx.
    + apply (Sorted_merge_sort key_le (Total0 := key_le_total)).
  - apply (Sorted_StronglySorted_on _ (fun k => k ∈ keys)); [done| |].
    + apply Forall_forall. intros x Hx.
      by rewrite merge_sort_Permutation, <- Hp in Hx.
    + apply (Sorted_merge_sort key_le (Total0 := key_le_total)).
  - by rewrite !merge_sort_Permutation.
Qed.

(** Looking up a key of a dict finds its entry. *)
Lemma dict_get_entry {A} (items : list (dict_key * A)) k v :
  dict_keys items.*1 -> (k, v) ∈ items -> dict_get items k = Ok v.
Proof.
  intros [Hnd Heq]%dict_keys_alt Hin. unfold dict_get.
  assert (Hfind : forall e, e ∈ items ->
            py_eq (dict_key_value e.1) (dict_key_value k) = true -> e = (k, v)).
  { intros [k0 v0] He Hpy. simpl in Hpy.
    assert (k0 = k) as ->.
    { apply Heq; [| |done];
        apply list_elem_of_fmap; [by exists (k0, v0)|by exists (k, v)]. }
    f_equal. clear Heq Hpy.
    induction items as [|[k1 v1] items IH]; [by apply elem_of_nil in He|].
    simpl in Hnd. apply NoDup_cons in Hnd as [Hnotin Hnd].
    apply elem_of_cons in He as [He|He];
      apply elem_of_cons in Hin as [Hin|Hin]; simplify_eq; try done.
    - destruct Hnotin. apply list_elem_of_fmap. by eexists (_, _).
    - destruct Hnotin. apply list_elem_of_fmap. by eexists (_, _).
    - by apply IH. }
  destruct (find _ items) as [e|] eqn:Hf.
  - apply find_some in Hf as [He Hpy]. apply list_elem_of_In in He.
    by rewrite (Hfind e He Hpy).
  - apply list_elem_of_In in Hin.
    pose proof (find_none _ _ Hf _ Hin) as Hn. simpl in Hn.
    by rewrite py_eq_dict_key in Hn.
Qed.

Lemma mapM_ext_in {A B} (f1 f2 : A -> M B) l h :
  (forall x h', x ∈ l -> f1 x h' = f2 x h') -> mapM f1 l h = mapM f2 l h.
Proof.
  revert h. induction l as [|x l IH]; intros h Hf; [done|]. simpl.
  unfold mbind at 1 3, M_bind. rewrite Hf by left.
  destruct (f2 x h) as [[y|e] h1]; [|done].
  unfold mbind, M_bind. rewrite IH; [done|].
  intros x' h' Hx'. apply Hf. by right.
Qed.

(** X17: two dict values with the same entries, inserted in different orders,
    have the same key, or raise the same exception. *)
Theorem get_key_dict_order (id_int : Z -> Z) (fuel : nat) (h : store) (d d' : loc)
    (b b' : base) (items items' : list (dict_key * loc)) :
  h !! d = Some (ConstDictVariable b items) ->
  h !! d' = Some (ConstDictVariable b' items') ->
  items ≡ₚ items' ->
  dict_keys items.*1 ->
  get_key id_int fuel d h = get_key id_int fuel d' h.
Proof.
  intros Hd Hd' Hp Hkeys. destruct fuel as [|fuel]; [done|]. simpl.
  rewrite (bind_ok _ _ _ _ _ (deref_ok _ _ _ Hd)).
  rewrite (bind_ok _ _ _ _ _ (deref_ok _ _ _ Hd')).
  assert (Hp1 : items.*1 ≡ₚ items'.*1) by by rewrite Hp.
  rewrite <- (py_sorted_perm_eq _ _ Hkeys Hp1).
  destruct (py_sorted items.*1) as [keys|e] eqn:Hsorted; [|done].
  rewrite !(bind_ok _ _ _ keys h) by done.
  unfold mbind at 1 3, M_bind.
  rewrite (mapM_ext_in _ (fun k => v ← lift (dict_get items' k);
                                   kv ← get_key id_int fuel v;
                                   mret (KTuple [KAtom (dict_key_value k); kv]))); [done|].
  intros k h1 Hk.
  assert (k ∈ items.*1) as Hin by by rewrite <- (py_sorted_perm _ _ Hsorted).
  apply list_elem_of_fmap in Hin as ([k0 v] & -> & Hin). simpl.
  rewrite (dict_get_entry items k0 v Hkeys Hin).
  rewrite (dict_get_entry items' k0 v); [done| |by rewrite <- Hp].
  by apply (dict_keys_perm _ _ Hp1).
Qed.

Lemma get_key_dict_order_witness :
  let c := ConstantVariable (mkBase YES ∅ None None) (PInt 1) in
  let h : store := [c; c;
     ConstDictVariable (mkBase YES ∅ None None) [(DStr "b", 0); (DStr "a", 1)];
     ConstDictVariable (mkBase NO ∅ None None) [(DStr "a", 1); (DStr "b", 0)]] in
  get_key id 2 2 h = get_key id 2 3 h.
Proof.
  intros c h.
  apply (get_key_dict_order id 2 h 2 3 _ _ _ _ eq_refl eq_refl).
  - apply perm_swap.
  - intros [|[|i]] [|[|j]] x y Hi Hj Heq; cbv in Hi, Hj; simplify_eq; done.
Defined.

(** ** Copying keeps the key *)

Lemma get_key_prefix id_int fuel l (h h' : list (object nat)) k h1 :
  get_key id_int fuel l h = (Ok k, h1) -> h `prefix_of` h' ->
  get_key id_int fuel l h' = (Ok k, h').
Proof. intros H [ext ->]. by eapply get_key_extend. Qed.

Lemma apply_identity_prefix fuel value h0 c h' :
  apply fuel identity value h0 = (Ok c, h') -> h0 `prefix_of` h'.
Proof.
  intros H.
  pose proof (preserves_prefix _ h0
                (preserves_apply fuel identity value keeps_identity)) as Hp.
  by rewrite H in Hp.
Qed.

Lemma mapM_dict_get {B} (entries : list (dict_key * loc)) (G : dict_key -> loc -> M B) hh :
  dict_keys entries.*1 ->
  mapM (fun k => v ← lift (dict_get entries k); G k v) entries.*1 hh =
  mapM (fun e => G e.1 e.2) entries hh.
Proof.
  intros Hkeys.
  assert (Hsub : forall l, l ⊆ entries ->
            mapM (fun k => v ← lift (dict_get entries k); G k v) l.*1 hh =
            mapM (fun e => G e.1 e.2) l hh); [|by apply Hsub].
  intros l. revert hh. induction l as [|[k v] l IH]; intros hh Hl; [done|].
  rewrite fmap_cons. simpl.
  rewrite (dict_get_entry entries k v Hkeys) by (apply Hl; left).
  unfold mbind, M_bind, lift. simpl.
  destruct (G k v hh) as [[y|e] h1]; [|done].
  specialize (IH h1). unfold mbind, M_bind, lift in IH. rewrite IH; [done|].
  intros x Hx. apply Hl. by right.
Qed.

Section copy_key.
Variable id_int : Z -> Z.
Variables (fuel f : nat) (h : store).
Hypothesis IH : forall value h0 c h' k h1,
  h `prefix_of` h0 ->
  apply fuel identity value h0 = (Ok c, h') ->
  get_key id_int f value h = (Ok k, h1) ->
  get_key id_int f c h' = (Ok k, h').

Lemma copy_key_one value h0 c h' k h1 h3 :
  h `prefix_of` h0 ->
  apply fuel identity value h0 = (Ok c, h') ->
  get_key id_int f value h = (Ok k, h1) ->
  h' `prefix_of` h3 ->
  get_key id_int f c h3 = (Ok k, h3).
Proof using IH.
  intros Hp Ha Hk Hp'. eapply get_key_prefix; [|done]. by eapply IH.
Qed.

Lemma copy_key_list items h0 items' h2 ks h1 :
  h `prefix_of` h0 ->
  mapM (apply fuel identity) items h0 = (Ok items', h2) ->
  mapM (get_key id_int f) items h = (Ok ks, h1) ->
  h0 `prefix_of` h2 /\
  forall h3, h2 `prefix_of` h3 ->
    mapM (get_key id_int f) items' h3 = (Ok ks, h3).
Proof using IH.
  revert h0 items' h2 ks h1.
  induction items as [|x items IHl]; intros h0 items' h2 ks h1 Hp Ha Hk;
    simpl in Ha, Hk.
  - injection Ha as <- <-. injection Hk as <- _. done.
  - apply bind_inv in Ha as (x' & hx & Hx & Ha).
    apply bind_inv in Ha as (rest' & h3 & Hrest & Ha). injection Ha as <- <-.
    apply bind_inv in Hk as (kx & hk & Hkx & Hk).
    pose proof (readonly_run _ _ _ _ (readonly_get_key _ _ _) Hkx) as ->.
    apply bind_inv in Hk as (kr & hk2 & Hkr & Hk). injection Hk as <- _.
    pose proof (apply_identity_prefix _ _ _ _ _ Hx) as Hpx.
    destruct (IHl hx rest' h3 kr hk2) as [Hp3 Hrest']; [by etrans|done|done|].
    split; [by etrans|]. intros h4 Hp4. simpl.
    rewrite (bind_ok _ _ _ kx h4).
    + by rewrite (bind_ok _ _ _ _ _ (Hrest' h4 Hp4)).
    + eapply copy_key_one; [done..|]. by etrans.
Qed.

Lemma copy_key_entries (items : list (dict_key * loc)) l h0 entries h2 ks h1 :
  h `prefix_of` h0 ->
  mapM (fun k => v ← lift (dict_get items k);
                 v' ← apply fuel identity v; mret (k, v')) l h0 = (Ok entries, h2) ->
  mapM (fun k => v ← lift (dict_get items k);
                 kv ← get_key id_int f v;
                 mret (KTuple [KAtom (dict_key_value k); kv])) l h = (Ok ks, h1) ->
  h0 `prefix_of` h2 /\ entries.*1 = l /\
  forall h3, h2 `prefix_of` h3 ->
    mapM (fun e => kv ← get_key id_int f e.2;
                   mret (KTuple [KAtom (dict_key_value e.1); kv])) entries h3
    = (Ok ks, h3).
Proof using IH.
  revert h0 entries h2 ks h1.
  induction l as [|x l IHl]; intros h0 entries h2 ks h1 Hp Ha Hk;
    simpl in Ha, Hk.
  - injection Ha as <- <-. injection Hk as <- _. done.
  - apply bind_inv in Ha as ([k' x'] & hx & Hx & Ha).
    apply bind_inv in Ha as (rest' & h3 & Hrest & Ha). injection Ha as <- <-.
    apply bind_inv in Hx as (v & hv & [-> Hv]%lift_inv & Hx).
    apply bind_inv in Hx as (v' & hx' & Hx & Hret). injection Hret as <- <- <-.
    apply bind_inv in Hk as (kx & hk & Hkx & Hk).
    apply bind_inv in Hkx as (v2 & hv2 & [-> Hv2]%lift_inv & Hkx).
    rewrite Hv in Hv2. injection Hv2 as <-.
    apply bind_inv in Hkx as (kv & hkv & Hkv & Hret). injection Hret as <- <-.
    pose proof (readonly_run _ _ _ _ (readonly_get_key _ _ _) Hkv) as ->.
    apply bind_inv in Hk as (kr & hk2 & Hkr & Hk). injection Hk as <- _.
    pose proof (apply_identity_prefix _ _ _ _ _ Hx) as Hpx.
    destruct (IHl hx' rest' h3 kr hk2) as (Hp3 & Hfst & Hrest');
      [by etrans|done|done|].
    split; [by etrans|]. split; [by rewrite fmap_cons, Hfst|].
    intros h4 Hp4. simpl.
    rewrite (bind_ok _ _ _ (KTuple [KAtom (dict_key_value x); kv]) h4).
    + by rewrite (bind_ok _ _ _ _ _ (Hrest' h4 Hp4)).
    + rewrite (bind_ok _ _ _ kv h4); [done|].
      eapply copy_key_one; [done..|]. by etrans.
Qed.

End copy_key.

Lemma copy_key_aux id_int fuel :
  forall f h value h0 c h' k h1,
    proper_dicts h -> no_wrappers h -> h `prefix_of` h0 ->
    apply fuel identity value h0 = (Ok c, h') ->
    get_key id_int f value h = (Ok k, h1) ->
    get_key id_int f c h' = (Ok k, h').
Proof.
  induction fuel as [|fuel IH]; intros f h value h0 c h' k h1 Hdicts Hnw Hp Ha Hk;
    [done|].
  destruct f as [|f]; [done|].
  cbn [apply] in Ha.
  apply bind_inv in Ha as (o & ? & [-> Ho]%deref_inv & Ha).
  apply bind_inv in Ha as (d & h2 & Hd & Ha).
  apply bind_inv in Ha as (c' & h3 & (o' & _ & -> & -> & Hc)%clone_inv & Ha).
  injection Ha as <- <-.
  cbn [get_key] in Hk |- *.
  apply bind_inv in Hk as (o2 & ? & [-> Ho2]%deref_inv & Hk).
  pose proof (prefix_lookup_Some _ _ _ _ Ho2 Hp) as Ho0.
  rewrite Ho in Ho0. injection Ho0 as <-.
  rewrite (bind_ok _ _ _ _ _ (deref_ok _ _ _ Hc)).
  pose proof (Hnw _ _ Ho2) as Hno.
  specialize (IH f h).
  assert (IH' : forall value h0 c h' k h1,
            h `prefix_of` h0 ->
            apply fuel identity value h0 = (Ok c, h') ->
            get_key id_int f value h = (Ok k, h1) ->
            get_key id_int f c h' = (Ok k, h')) by eauto.
  clear IH.
  assert (Hst : forall o' hc, h0 `prefix_of` hc -> base_of o' = base_of o ->
            read_state value o' hc = (Ok o', hc)).
  { intros o1 hc Hhc Hb.
    apply (read_state_same hc value o); [|done].
    exact (prefix_lookup_Some _ _ _ _ Ho Hhc). }
  assert (Hlast : forall hc, hc `prefix_of` hc ++ [d]) by (intros; by eexists).
  destruct o; simpl in Hd, Hk, Hno |- *; try done;
    try (unfold mret, M_ret in Hd, Hk |- *; injection Hd as <- <-;
         by injection Hk as <- _).
  - unfold mret, M_ret in Hd, Hk |- *. injection Hd as <- <-.
    injection Hk as <- _. simpl. by rewrite apply_value_id.
  - apply bind_inv in Hd as (items' & h4 & Hitems & Hd).
    apply bind_inv in Hk as (ks & hk & Hks & Hk). injection Hk as <- _.
    destruct (copy_key_list id_int fuel f h IH' _ _ _ _ _ _ Hp Hitems Hks)
      as [Hp4 Hks'].
    rewrite Hst in Hd by done. injection Hd as <- <-. simpl.
    by rewrite (bind_ok _ _ _ _ _ (Hks' _ (Hlast _))).
  - apply bind_inv in Hd as (obj' & h4 & Hobj & Hd).
    apply bind_inv in Hk as (ko & hk & Hko & Hk). injection Hk as <- _.
    pose proof (apply_identity_prefix _ _ _ _ _ Hobj) as Hp4.
    rewrite Hst in Hd by done. injection Hd as <- <-. simpl.
    by rewrite (bind_ok _ _ _ _ _
                  (copy_key_one id_int fuel f h IH' _ _ _ _ _ _ _ Hp Hobj Hko (Hlast _))).
  - apply bind_inv in Hd as (items' & h4 & Hitems & Hd).
    apply bind_inv in Hk as (ks & hk & Hks & Hk). injection Hk as <- _.
    destruct (copy_key_list id_int fuel f h IH' _ _ _ _ _ _ Hp Hitems Hks)
      as [Hp4 Hks'].
    rewrite Hst in Hd by done. injection Hd as <- <-. simpl.
    by rewrite (bind_ok _ _ _ _ _ (Hks' _ (Hlast _))).
  - apply bind_inv in Hd as (items' & h4 & Hitems & Hd).
    unfold apply_items in Hitems.
    apply bind_inv in Hitems as (keys & ? & [-> Hkeys]%lift_inv & Hitems).
    apply bind_inv in Hk as (keys2 & ? & [-> Hkeys2]%lift_inv & Hk).
    rewrite Hkeys in Hkeys2. injection Hkeys2 as <-.
    apply bind_inv in Hk as (ks & hk & Hks & Hk). injection Hk as <- _.
    destruct (copy_key_entries id_int fuel f h IH' _ _ _ _ _ _ _ Hp Hitems Hks)
      as (Hp4 & Hfst & Hks').
    rewrite Hst in Hd by done. injection Hd as <- <-. simpl.
    pose proof (Hdicts _ _ _ Ho2) as Hdk.
    pose proof (py_sorted_perm _ _ Hkeys) as Hperm.
    assert (dict_keys keys) as Hdk'.
    { eapply dict_keys_perm; [|done]. by symmetry. }
    rewrite Hfst, <- (py_sorted_perm_eq _ _ Hdk (symmetry Hperm)), Hkeys.
    rewrite (bind_ok _ _ _ keys (h4 ++ [ConstDictVariable b items'])) by done.
    rewrite <- Hfst.
    rewrite (bind_ok _ _ _ ks (h4 ++ [ConstDictVariable b items'])); [done|].
    rewrite (mapM_dict_get items'
               (fun k v => kv ← get_key id_int f v;
                           mret (KTuple [KAtom (dict_key_value k); kv])))
      by by rewrite Hfst.
    apply Hks', Hlast.
  - apply bind_inv in Hd as (obj' & h4 & Hobj & Hd).
    apply bind_inv in Hk as (ko & hk & Hko & Hk). injection Hk as <- _.
    pose proof (apply_identity_prefix _ _ _ _ _ Hobj) as Hp4.
    rewrite Hst in Hd by done. injection Hd as <- <-. simpl.
    by rewrite (bind_ok _ _ _ _ _
                  (copy_key_one id_int fuel f h IH' _ _ _ _ _ _ _ Hp Hobj Hko (Hlast _))).
Qed.

(** The instance a traversal returns is new, and the value it started
    from is one of the store. *)
Lemma apply_identity_fresh fuel value h c h' :
  apply fuel identity value h = (Ok c, h') -> value < length h <= c.
Proof.
  intros H. destruct fuel as [|fuel]; [done|]. cbn [apply] in H.
  apply bind_inv in H as (o & ? & [-> Ho]%deref_inv & H).
  apply bind_inv in H as (d & h2 & Hd & H).
  apply bind_inv in H as (c' & h3 & (o' & _ & -> & -> & Hc)%clone_inv & H).
  injection H as <- <-.
  pose proof (preserves_prefix _ h
                (preserves_apply_dict (apply fuel identity) value o
                   (fun l => preserves_apply fuel identity l keeps_identity)))
    as [ext Hext].
  rewrite Hd in Hext. simpl in Hext. subst h2.
  apply lookup_lt_Some in Ho. rewrite length_app. lia.
Qed.

(** X18: a copy is a new instance with the key of the value it was made from,
    and making it leaves that value's key as it is, in a store of Python
    dicts that holds no [FunctionConstantWrapper]. *)
Theorem copy_keeps_key (id_int : Z -> Z) (fuel f : nat) (h h' : store)
    (value c : loc) (k : key) :
  proper_dicts h -> no_wrappers h ->
  copy fuel value h = (Ok c, h') ->
  get_key id_int f value h = (Ok k, h) ->
  c <> value /\
  get_key id_int f value h' = (Ok k, h') /\
  get_key id_int f c h' = (Ok k, h').
Proof.
  intros Hdicts Hnw Hcopy Hk. unfold copy in Hcopy.
  pose proof (apply_identity_prefix _ _ _ _ _ Hcopy) as Hp.
  pose proof (apply_identity_fresh _ _ _ _ _ Hcopy) as Hfresh.
  split; [lia|]. split.
  - by eapply get_key_prefix.
  - by eapply (copy_key_aux id_int fuel f h value h).
Qed.

Lemma copy_keeps_key_witness :
  let b := mkBase YES ∅ None None in
  let t := mkBase YES ∅ (Some "t") None in
  let h : store :=
    [ConstantVariable b (PInt 1);
     ConstDictVariable b [(DStr "b", 0); (DStr "a", 0)];
     BaseList TupleVariable t [0; 1]] in
  let h' : store :=
    h ++ [ConstantVariable b (PInt 1); ConstantVariable b (PInt 1);
          ConstantVariable b (PInt 1);
          ConstDictVariable b [(DStr "a", 4); (DStr "b", 5)];
          BaseList TupleVariable t [3; 6]] in
  let one := KTuple [KClass "ConstantVariable"; KAtom (PInt 1)] in
  let k := KTuple [KClass "TupleVariable";
                   KTuple [one;
                           KTuple [KClass "ConstDictVariable";
                                   KTuple [KTuple [KAtom (PStr "a"); one];
                                           KTuple [KAtom (PStr "b"); one]]]]] in
  7 <> 2 /\ get_key id 3 2 h' = (Ok k, h') /\ get_key id 3 7 h' = (Ok k, h').
Proof.
  intros b t h h' one k.
  apply (copy_keeps_key id 3 3 h h' 2 7 k).
  - intros [|[|[|l]]] b' items Hl; try done. injection Hl as _ <-.
    intros [|[|i]] [|[|j]] x y Hi Hj Heq; cbv in Hi, Hj; simplify_eq; done.
  - intros [|[|[|l]]] o Hl; try done; by injection Hl as <-.
  - vm_compute. reflexivity.
  - vm_compute. reflexivity.
Defined.

(** X19: the copy of a [FunctionConstantWrapper] does not have the key of the
    original: the key holds the wrapped instance itself, and the copy wraps
    a copy of it. *)
Theorem copy_wrapper_new_key (id_int : Z -> Z) (fuel f : nat) (h h' : store)
    (value c : loc) (b : base) (v : loc) (k k' : key) :
  h !! value = Some (FunctionConstantWrapper b v) ->
  copy fuel value h = (Ok c, h') ->
  get_key id_int f value h = (Ok k, h) ->
  get_key id_int f c h' = (Ok k', h') ->
  key_eq k k' = false.
Proof.
  intros Hv Hcopy Hk Hk'. unfold copy in Hcopy.
  destruct fuel as [|fuel]; [done|]. destruct f as [|f]; [done|].
  cbn [apply] in Hcopy.
  rewrite (bind_ok _ _ _ _ _ (deref_ok _ _ _ Hv)) in Hcopy. simpl in Hcopy.
  apply bind_inv in Hcopy as (d & h2 & Hd & Hcopy).
  apply bind_inv in Hd as (v' & h3 & Hv' & Hd). injection Hd as <- <-.
  apply bind_inv in Hcopy as (c' & h4 & (o' & _ & -> & -> & Hc)%clone_inv & Hcopy).
  injection Hcopy as <- <-.
  pose proof (apply_identity_fresh _ _ _ _ _ Hv') as Hfresh.
  cbn [get_key] in Hk, Hk'.
  rewrite (bind_ok _ _ _ _ _ (deref_ok _ _ _ Hv)) in Hk.
  rewrite (bind_ok _ _ _ _ _ (deref_ok _ _ _ Hc)) in Hk'.
  injection Hk as <-. injection Hk' as <-. simpl.
  by rewrite (bool_decide_eq_false_2 (v = v')) by lia.
Qed.

Lemma copy_wrapper_new_key_witness :
  let b := mkBase YES ∅ None None in
  let h : store := [ConstantVariable b (PInt 1); FunctionConstantWrapper b 0] in
  let h' : store := h ++ [ConstantVariable b (PInt 1); FunctionConstantWrapper b 2] in
  key_eq (KTuple [KClass "FunctionConstantWrapper"; KObject 0])
         (KTuple [KClass "FunctionConstantWrapper"; KObject 2]) = false.
Proof.
  intros b h h'.
  apply (copy_wrapper_new_key id 2 1 h h' 1 3 b 0); by vm_compute.
Defined.

(** ** Lists and tuples of constants *)

Lemma is_python_constant_inv fuel i h flag h' :
  is_python_constant fuel i h = (Ok flag, h') ->
  if flag then exists v, as_python_constant fuel i h = (Ok v, h')
  else as_python_constant fuel i h = (Raise NotImplementedError, h').
Proof.
  unfold is_python_constant.
  destruct (as_python_constant fuel i h) as [[v|[]] h1]; intros [= <- <-]; eauto.
Qed.

Lemma mapM_as_python_constant_flags fuel h items flags :
  Forall2 (fun i flag => is_python_constant fuel i h = (Ok flag, h)) items flags ->
  if forallb id flags
  then exists vals, mapM (as_python_constant fuel) items h = (Ok vals, h)
  else mapM (as_python_constant fuel) items h = (Raise NotImplementedError, h).
Proof.
  induction 1 as [|i flag items flags Hi _ IH]; simpl; [by eexists|].
  apply is_python_constant_inv in Hi. destruct flag; simpl.
  - destruct Hi as [v Hv]. rewrite (bind_ok _ _ _ _ _ Hv).
    destruct (forallb id flags).
    + destruct IH as [vals Hvals]. rewrite (bind_ok _ _ _ _ _ Hvals). by eexists.
    + by rewrite (bind_raise _ _ _ _ _ IH).
  - by rewrite (bind_raise _ _ _ _ _ Hi).
Qed.

(** X20: a list or a tuple value is a constant exactly when all its items are,
    and asking constructs nothing; a value of the base class of the lists
    is never one. *)
Theorem is_python_constant_items (fuel : nat) (h : store) (l : loc)
    (c : list_class) (b : base) (items : list loc) (flags : list bool) :
  h !! l = Some (BaseList c b items) ->
  c <> SliceVariable ->
  Forall2 (fun i flag => is_python_constant fuel i h = (Ok flag, h)) items flags ->
  is_python_constant (S fuel) l h =
    (Ok (if c is BaseListVariable then false else forallb id flags), h).
Proof.
  intros Hl Hc Hall. unfold is_python_constant. cbn [as_python_constant].
  rewrite (bind_ok _ _ _ _ _ (deref_ok _ _ _ Hl)).
  pose proof (mapM_as_python_constant_flags fuel h items flags Hall) as Hm.
  destruct c; [done| | |done].
  - destruct (forallb id flags).
    + destruct Hm as [vals Hm]. by rewrite (fmap_ok _ _ _ _ _ Hm).
    + unfold fmap, M_fmap. by rewrite Hm.
  - destruct (forallb id flags).
    + destruct Hm as [vals Hm]. by rewrite (fmap_ok _ _ _ _ _ Hm).
    + unfold fmap, M_fmap. by rewrite Hm.
Qed.

Lemma is_python_constant_items_witness :
  let b := mkBase YES ∅ None None in
  let h : store := [ConstantVariable b (PInt 1); Plain UnknownVariable b;
                    BaseList TupleVariable b [0; 1; 0]] in
  is_python_constant 2 2 h = (Ok false, h).
Proof.
  intros b h.
  apply (is_python_constant_items 1 h 2 TupleVariable b [0; 1; 0] [true; false; true]);
    [done|done|].
  repeat constructor.
Defined.

(** ** Short names of models *)

Lemma slice_positions_take {A} (seq : list A) (k lo : nat) :
  lo + k <= length seq ->
  omap (fun i => seq !! Z.to_nat i) (slice_positions (Z.of_nat lo) 1 k) =
  take k (drop lo seq).
Proof.
  revert lo. induction k as [|k IH]; intros lo Hlen; [done|].
  simpl. rewrite Nat2Z.id.
  destruct (lookup_lt_is_Some_2 seq lo ltac:(lia)) as [x Hx]. rewrite Hx.
  rewrite (drop_S _ _ _ Hx). simpl. f_equal.
  replace (Z.of_nat lo + 1)%Z with (Z.of_nat (S lo)) by lia.
  apply IH. lia.
Qed.

(** [py_prefix] is the slice with no start and no step. *)
Lemma py_slice_prefix {A} (seq : list A) (stop : Z) :
  py_slice seq PNone (PInt stop) PNone = Ok (py_prefix seq stop).
Proof.
  unfold py_slice, py_prefix. simpl.
  set (n := Z.of_nat (length seq)).
  set (hi := adjust_bound n 1 n (Some stop)).
  assert (0 <= hi <= n)%Z as Hhi.
  { unfold hi, adjust_bound. repeat case_decide; lia. }
  f_equal.
  replace (Z.to_nat (if decide (0 < hi)%Z then (hi - 0 - 1) / 1 + 1 else 0)%Z)
    with (Z.to_nat hi) by (case_decide; [rewrite Z.div_1_r|]; lia).
  pose proof (slice_positions_take seq (Z.to_nat hi) 0) as Hs.
  rewrite drop_0 in Hs. change (Z.of_nat 0) with 0%Z in Hs.
  rewrite Hs; [done|]. unfold n in Hhi. lia.
Qed.

Lemma rstrip_prefix chars s : rstrip chars s `prefix_of` s.
Proof.
  induction s as [|a s IH]; simpl; [done|].
  destruct (rstrip chars s) as [|b r].
  - case_bool_decide; [apply prefix_nil|]. apply prefix_cons, prefix_nil.
  - by apply prefix_cons.
Qed.

Lemma rstrip_last chars s a : last (rstrip chars s) = Some a -> a ∉ chars.
Proof.
  induction s as [|b s IH]; simpl; [done|].
  destruct (rstrip chars s) as [|c r].
  - case_bool_decide; [done|]. by intros [= <-].
  - intros H. apply IH. by rewrite last_cons_cons in H.
Qed.

Lemma py_prefix_length {A} (seq : list A) (stop : Z) :
  (0 <= stop <= Z.of_nat (length seq))%Z ->
  length (py_prefix seq stop) = Z.to_nat stop.
Proof.
  intros H. unfold py_prefix, adjust_bound.
  rewrite length_take. repeat case_decide; lia.
Qed.

(** X21: with a limit of at least three characters the short name is no longer
    than the limit and no longer than the name; it is the name itself
    exactly when the name fits, and otherwise three dots after a prefix of
    the name that does not end with an underscore; shortening twice is
    shortening once. *)
Theorem short_name_fits (name : list ascii) (limit : Z) :
  (3 <= limit)%Z ->
  (Z.of_nat (length (short_name name limit)) <= limit)%Z /\
  length (short_name name limit) <= length name /\
  (short_name name limit = name <-> (Z.of_nat (length name) <= limit)%Z) /\
  ((limit < Z.of_nat (length name))%Z ->
   exists p, short_name name limit = p ++ ["."; "."; "."]%char /\
             p `prefix_of` name /\ last p <> Some "_"%char) /\
  short_name (short_name name limit) limit = short_name name limit.
Proof.
  intros Hlimit.
  assert (Hlen : (Z.of_nat (length (short_name name limit)) <= limit)%Z /\
                 ((limit < Z.of_nat (length name))%Z ->
                  length (short_name name limit) < length name)).
  { unfold short_name. case_decide as Hn; [lia|].
    pose proof (prefix_length _ _ (rstrip_prefix ["_"%char]
                                     (py_prefix name (limit - 3)))) as Hp.
    rewrite py_prefix_length in Hp by lia.
    rewrite length_app. simpl. lia. }
  destruct Hlen as [Hfit Hshorter].
  split; [done|]. split; [|split; [|split]].
  - destruct (decide (Z.of_nat (length name) <= limit)%Z) as [Hn|Hn].
    + unfold short_name. by rewrite decide_True.
    + specialize (Hshorter ltac:(lia)). lia.
  - split.
    + intros Heq. destruct (decide (Z.of_nat (length name) <= limit)%Z) as [|Hn];
        [done|].
      specialize (Hshorter ltac:(lia)). rewrite Heq in Hshorter. lia.
    + intros Hn. unfold short_name. by rewrite decide_True.
  - intros Hn. unfold short_name. rewrite decide_False by lia.
    eexists. split; [done|]. split.
    + etrans; [apply rstrip_prefix|]. unfold py_prefix. apply prefix_take.
    + intros Hl. by apply rstrip_last, not_elem_of_cons in Hl as [? _].
  - unfold short_name at 1. by rewrite decide_True.
Qed.

Lemma short_name_fits_witness :
  let name := String.list_ascii_of_string "attention_is_all_you_need_pytorch" in
  (Z.of_nat (length (short_name name 20)) <= 20)%Z /\
  length (short_name name 20) <= length name /\
  (short_name name 20 = name <-> (Z.of_nat (length name) <= 20)%Z) /\
  ((20 < Z.of_nat (length name))%Z ->
   exists p, short_name name 20 = p ++ ["."; "."; "."]%char /\
             p `prefix_of` name /\ last p <> Some "_"%char) /\
  short_name (short_name name 20) 20 = short_name name 20.
Proof.
  intros name. apply (short_name_fits name 20). lia.
Defined.

(** X22: with a limit below three a name longer than the limit is not
    truncated to the limit: its short name has at least three
    characters. *)
Theorem short_name_small_limit (name : list ascii) (limit : Z) :
  (limit < 3)%Z -> (limit < Z.of_nat (length name))%Z ->
  (limit < Z.of_nat (length (short_name name limit)))%Z /\
  exists p, short_name name limit = p ++ ["."; "."; "."]%char.
Proof.
  intros Hlimit Hn. unfold short_name. rewrite decide_False by lia.
  split; [|by eexists]. rewrite length_app. simpl. lia.
Qed.

Lemma short_name_small_limit_witness :
  let name := String.list_ascii_of_string "abcd" in
  (2 < Z.of_nat (length (short_name name 2)))%Z /\
  exists p, short_name name 2 = p ++ ["."; "."; "."]%char.
Proof.
  intros name. apply (short_name_small_limit name 2); [lia|]. by vm_compute.
Defined.

(** ** Comparing results in tests *)

Lemma all_zip_take {tensor} (f : tvalue tensor -> tvalue tensor -> test_exn + bool) a b :
  all_zip f a b =
  all_zip f (take (length a `min` length b) a) (take (length a `min` length b) b).
Proof.
  revert b. induction a as [|ai a IH]; intros [|bi b]; simpl; try done.
  destruct (f ai bi) as [e|[|]]; auto.
Qed.

(** X23: two sequences are compared item by item up to the length of the
    shorter one, whether they are lists or tuples: what the longer one
    holds beyond that is never looked at, and every sequence is the same
    as the empty one. *)
Theorem same_compares_common_prefix {tensor : Type}
    (allclose : tensor -> tensor -> test_exn + bool) (fuel : nat)
    (ta tb ta' tb' : bool) (a b : list (tvalue tensor)) :
  same allclose fuel (TSeq ta a) (TSeq tb b) =
    same allclose fuel (TSeq ta' (take (length a `min` length b) a))
                       (TSeq tb' (take (length a `min` length b) b)) /\
  same allclose (S fuel) (TSeq ta a) (TSeq tb []) = inr true /\
  same allclose (S fuel) (TSeq ta []) (TSeq tb b) = inr true.
Proof.
  split; [|split].
  - destruct fuel as [|fuel]; [done|]. simpl. apply all_zip_take.
  - simpl. by destruct a.
  - done.
Qed.

(** X24: two sequences are the same exactly when all pairs of items at the
    same position are. *)
Theorem same_sequences_true {tensor : Type}
    (allclose : tensor -> tensor -> test_exn + bool) (fuel : nat)
    (ta tb : bool) (a b : list (tvalue tensor)) :
  same allclose (S fuel) (TSeq ta a) (TSeq tb b) = inr true <->
  forall i ai bi, a !! i = Some ai -> b !! i = Some bi ->
    same allclose fuel ai bi = inr true.
Proof.
  simpl. generalize (same allclose fuel). intros f.
  revert b. induction a as [|x a IH]; intros [|y b]; simpl; try done.
  split.
  - intros H [|i] ai bi Hai Hbi; simpl in Hai, Hbi.
    + injection Hai as <-. injection Hbi as <-.
      by destruct (f x y) as [e|[|]].
    + destruct (f x y) as [e|[|]]; try done.
      by apply (proj1 (IH b) H i).
  - intros H. rewrite (H 0 x y eq_refl eq_refl). apply IH.
    intros i ai bi Hai Hbi. by apply (H (S i)).
Qed.
